(** * A shallow embedding of the soongo/negotiator content negotiation core

    Go strings are modelled as byte strings ([string]); the helpers below are
    the parts of Go's [strings] package the negotiator calls. Go [int] is [Z]
    (64-bit wrap-around written out where the code subtracts), [float64] is
    the IEEE binary64 format of [SpecFloat] (prec 53, emax 1024), a Go panic is
    the [Panic] outcome of the [result] monad and a Go [map[string]string] is a
    [gmap string string]. *)

From Stdlib Require Import ZArith String Ascii Bool List Lia Permutation Sorted.
From Stdlib Require Import Floats.SpecFloat.
From stdpp Require Import base gmap strings list.

Open Scope string_scope.

(** ** Go runtime outcomes: a value, or a panic (index out of range) *)

Inductive result (A : Type) : Type :=
| Ok (x : A)
| Panic.
Arguments Ok {A} x.
Arguments Panic {A}.

Definition rbind {A B : Type} (m : result A) (f : A -> result B) : result B :=
  match m with
  | Ok x => f x
  | Panic => Panic
  end.

Notation "x <- m ;; k" := (rbind m (fun x => k))
  (at level 99, m at next level, right associativity).

(** [s[k]] on a Go slice: panics out of range. *)
Definition slice_get {A : Type} (l : list A) (k : Z) : result A :=
  if (k <? 0)%Z then Panic else
  match l !! Z.to_nat k with
  | Some x => Ok x
  | None => Panic
  end.

(** ** Go's 64-bit [int] *)

Module GoInt.
Definition wrap (z : Z) : Z :=
  (Z.modulo (z + 2 ^ 63) (2 ^ 64) - 2 ^ 63)%Z.
Definition sub (a b : Z) : Z := wrap (a - b).
End GoInt.

(** ** The parts of Go's [strings] package used by the negotiator *)

Module GoStrings.

Definition ascii_eqb (a b : ascii) : bool := Ascii.eqb a b.

(** strings.Split(s, sep) for a one-byte separator: never empty. *)
Fixpoint split (sep : ascii) (s : string) : list string :=
  match s with
  | EmptyString => [EmptyString]
  | String c s' =>
      if ascii_eqb c sep then EmptyString :: split sep s'
      else match split sep s' with
           | p :: ps => String c p :: ps
           | [] => [String c EmptyString]
           end
  end.

(** strings.Trim(s, " ") *)
Fixpoint trim_left (s : string) : string :=
  match s with
  | String " " s' => trim_left s'
  | _ => s
  end.

Fixpoint trim_right (s : string) : string :=
  match s with
  | EmptyString => EmptyString
  | String c s' =>
      let r := trim_right s' in
      if ascii_eqb c " " && String.eqb r "" then EmptyString else String c r
  end.

Definition Trim (s : string) : string := trim_right (trim_left s).

(** strings.ToLower on bytes: 'A'..'Z' become 'a'..'z'. *)
Definition lower_byte (c : ascii) : ascii :=
  let n := nat_of_ascii c in
  if ((65 <=? n) && (n <=? 90))%nat then ascii_of_nat (n + 32)%nat else c.

Fixpoint ToLower (s : string) : string :=
  match s with
  | EmptyString => EmptyString
  | String c s' => String (lower_byte c) (ToLower s')
  end.

(** strings.Index(s, sep) for a one-byte [sep]: -1 when absent. *)
Fixpoint Index (s : string) (c : ascii) : Z :=
  match s with
  | EmptyString => (-1)%Z
  | String c' s' =>
      if ascii_eqb c' c then 0%Z
      else let r := Index s' c in if (r <? 0)%Z then r else (r + 1)%Z
  end.

(** strings.Count(s, sep) for a one-byte [sep]. *)
Fixpoint Count (s : string) (c : ascii) : Z :=
  match s with
  | EmptyString => 0%Z
  | String c' s' => ((if ascii_eqb c' c then 1 else 0) + Count s' c)%Z
  end.

(** strings.Join(elems, sep) *)
Fixpoint Join (elems : list string) (sep : string) : string :=
  match elems with
  | [] => EmptyString
  | [x] => x
  | x :: rest => x ++ sep ++ Join rest sep
  end.

(** s[lo:hi] (callers keep 0 <= lo <= hi <= len s) *)
Definition slice (s : string) (lo hi : Z) : string :=
  substring (Z.to_nat lo) (Z.to_nat (hi - lo)) s.

(** s[k] *)
Definition byte_at (s : string) (k : Z) : option ascii :=
  String.get (Z.to_nat k) s.

End GoStrings.

(** ** Go's [float64], [math.Min] and [strconv.ParseFloat(s, 64)] *)

Module Float64.

Definition prec : Z := 53%Z.
Definition emax : Z := 1024%Z.
Definition float64 := spec_float.

Definition zero : float64 := S754_zero false.
Definition one : float64 := SFone prec emax.

(** Go's comparison operators on floats (IEEE: false on NaN) *)
Definition gt (x y : float64) : bool := SFltb y x.
Definition lt (x y : float64) : bool := SFltb x y.
Definition eq (x y : float64) : bool := SFeqb x y.
Definition ne (x y : float64) : bool := negb (SFeqb x y).
Definition sub (x y : float64) : float64 := SFsub prec emax x y.

Definition is_nan (x : float64) : bool :=
  match x with S754_nan => true | _ => false end.
Definition is_neg_inf (x : float64) : bool :=
  match x with S754_infinity true => true | _ => false end.
Definition signbit (x : float64) : bool :=
  match x with
  | S754_zero s | S754_infinity s | S754_finite s _ _ => s
  | S754_nan => false
  end.

(** math.Min *)
Definition math_Min (x y : float64) : float64 :=
  if is_neg_inf x || is_neg_inf y then S754_infinity true
  else if is_nan x || is_nan y then S754_nan
  else if eq x zero && eq x y then (if signbit x then x else y)
  else if lt x y then x else y.

(** Go's [lower(c)] in strconv: [c | ('x' - 'X')] *)
Definition lower (c : ascii) : Z := Z.lor (Z.of_nat (nat_of_ascii c)) 32%Z.
Definition code (c : ascii) : Z := Z.of_nat (nat_of_ascii c).
Definition is_digit (c : ascii) : bool := ((48 <=? code c) && (code c <=? 57))%Z.

(** commonPrefixLenIgnoreCase(s, prefix) *)
Fixpoint commonPrefixLenIgnoreCase (s prefix : list ascii) : Z :=
  match s, prefix with
  | c :: s', p :: prefix' =>
      let c' := if ((65 <=? code c) && (code c <=? 90))%Z then (code c + 32)%Z else code c in
      if (c' =? code p)%Z then (1 + commonPrefixLenIgnoreCase s' prefix')%Z else 0%Z
  | _, _ => 0%Z
  end.

(** special(s): the value and the number of bytes consumed *)
Definition special (s : list ascii) : option (float64 * Z) :=
  let inf (sign : bool) (nsign : Z) (s : list ascii) :=
    let n := commonPrefixLenIgnoreCase s (list_ascii_of_string "infinity") in
    let n := if ((3 <? n) && (n <? 8))%Z then 3%Z else n in
    if ((n =? 3) || (n =? 8))%Z then Some (S754_infinity sign, (nsign + n)%Z) else None in
  match s with
  | [] => None
  | c :: s' =>
      if Ascii.eqb c "+" then inf false 1%Z s'
      else if Ascii.eqb c "-" then inf true 1%Z s'
      else if Ascii.eqb c "i" || Ascii.eqb c "I" then inf false 0%Z s
      else if Ascii.eqb c "n" || Ascii.eqb c "N" then
        (if (commonPrefixLenIgnoreCase s (list_ascii_of_string "nan") =? 3)%Z
         then Some (S754_nan, 3%Z) else None)
      else None
  end.

(** State of readFloat's mantissa loop. The significant digits are kept
    exactly in [mant] (Go keeps the first 19 (16 hex) and a truncation flag,
    then rounds correctly; the correctly rounded value is the same). *)
Record rf_state := mk_rf {
  underscores : bool; sawdot : bool; sawdigits : bool;
  nd : Z; dp : Z; mant : Z }.

Definition rf_digit (base : Z) (st : rf_state) (v : Z) (is_zero : bool) : rf_state :=
  if is_zero && (nd st =? 0)%Z
  then mk_rf (underscores st) (sawdot st) true (nd st) (dp st - 1) (mant st)
  else mk_rf (underscores st) (sawdot st) true (nd st + 1) (dp st) (mant st * base + v).

Fixpoint mant_loop (base : Z) (st : rf_state) (s : list ascii) : rf_state * list ascii :=
  match s with
  | [] => (st, [])
  | c :: s' =>
      if Ascii.eqb c "_" then
        mant_loop base (mk_rf true (sawdot st) (sawdigits st) (nd st) (dp st) (mant st)) s'
      else if Ascii.eqb c "." then
        (if sawdot st then (st, s)
         else mant_loop base (mk_rf (underscores st) true (sawdigits st) (nd st) (nd st) (mant st)) s')
      else if is_digit c then
        mant_loop base (rf_digit base st (code c - 48) (Ascii.eqb c "0")) s'
      else if (base =? 16)%Z && ((97 <=? lower c) && (lower c <=? 102))%Z then
        mant_loop base (mk_rf (underscores st) (sawdot st) true (nd st + 1) (dp st)
                          (mant st * 16 + (lower c - 97 + 10))) s'
      else (st, s)
  end.

(** the exponent digits: [e] stops growing once it reaches 10000 *)
Fixpoint exp_loop (und : bool) (e : Z) (s : list ascii) : bool * Z * list ascii :=
  match s with
  | c :: s' =>
      if Ascii.eqb c "_" then exp_loop true e s'
      else if is_digit c then
        exp_loop und (if (e <? 10000)%Z then (e * 10 + (code c - 48))%Z else e) s'
      else (und, e, s)
  | [] => (und, e, s)
  end.

(** underscoreOK(s) *)
Inductive saw_class := SawStart | SawDigit | SawUnderscore | SawOther.

Fixpoint underscore_loop (hex : bool) (saw : saw_class) (s : list ascii) : bool :=
  match s with
  | [] => match saw with SawUnderscore => false | _ => true end
  | c :: s' =>
      if is_digit c || (hex && ((97 <=? lower c) && (lower c <=? 102))%Z) then
        underscore_loop hex SawDigit s'
      else if Ascii.eqb c "_" then
        match saw with
        | SawDigit => underscore_loop hex SawUnderscore s'
        | _ => false
        end
      else match saw with
           | SawUnderscore => false
           | _ => underscore_loop hex SawOther s'
           end
  end.

Definition underscoreOK (s : list ascii) : bool :=
  let s := match s with
           | c :: s' => if Ascii.eqb c "-" || Ascii.eqb c "+" then s' else s
           | [] => s
           end in
  match s with
  | c0 :: c1 :: s' =>
      if Ascii.eqb c0 "0" && ((lower c1 =? 98) || (lower c1 =? 111) || (lower c1 =? 120))%Z
      then underscore_loop (lower c1 =? 120)%Z SawDigit s'
      else underscore_loop false SawStart s
  | _ => underscore_loop false SawStart s
  end.

(** readFloat(s): (mantissa value, exponent, base, negative) and the
    unconsumed rest, or [None] when [ok] is false. The value read is
    [mant * base^exp] with base 10, or base 2 for hexadecimal input. *)
Definition readFloat (s0 : list ascii) : option (Z * Z * bool * bool * list ascii) :=
  match s0 with
  | [] => None
  | _ =>
    let '(neg, s) := match s0 with
                     | c :: s' => if Ascii.eqb c "+" then (false, s')
                                  else if Ascii.eqb c "-" then (true, s') else (false, s0)
                     | [] => (false, s0)
                     end in
    let '(hex, s) := match s with
                     | c0 :: c1 :: c2 :: s' =>
                         if Ascii.eqb c0 "0" && (lower c1 =? 120)%Z then (true, c2 :: s') else (false, s)
                     | _ => (false, s)
                     end in
    let base := if hex then 16%Z else 10%Z in
    let '(st, rest) := mant_loop base (mk_rf false false false 0 0 0) s in
    if negb (sawdigits st) then None else
    let dp0 := if sawdot st then dp st else nd st in
    let dp1 := if hex then (dp0 * 4)%Z else dp0 in
    let nbits := if hex then (nd st * 4)%Z else nd st in
    let expChar := if hex then 112%Z else 101%Z in
    let exponent :=
      match rest with
      | c :: rest' =>
          if (lower c =? expChar)%Z then
            match rest' with
            | [] => None
            | c' :: rest'' =>
                let '(esign, r) := if Ascii.eqb c' "+" then (1%Z, rest'')
                                   else if Ascii.eqb c' "-" then ((-1)%Z, rest'')
                                   else (1%Z, rest') in
                match r with
                | d :: _ =>
                    if is_digit d then
                      let '(und, e, r') := exp_loop false 0 r in
                      Some (und, (dp1 + e * esign)%Z, r')
                    else None
                | [] => None
                end
            end
          else if hex then None else Some (false, dp1, rest)
      | [] => if hex then None else Some (false, dp1, rest)
      end in
    match exponent with
    | None => None
    | Some (und, dp2, rest2) =>
        let consumed := firstn (length s0 - length rest2) s0 in
        if (underscores st || und) && negb (underscoreOK consumed) then None
        else Some (mant st, (dp2 - nbits)%Z, hex, neg, rest2)
    end
  end.

(** the value [±m * 10^e] (or [±m * 2^e]) rounded to nearest even *)
Definition round_value (m e : Z) (hex neg : bool) : float64 :=
  if (m =? 0)%Z then S754_zero neg
  else if hex then binary_normalize prec emax (if neg then - m else m)%Z e false
  else if (0 <=? e)%Z then binary_normalize prec emax (if neg then - (m * 10 ^ e) else m * 10 ^ e)%Z 0 false
  else let '(mz, ez, lz) := SFdiv_core_binary prec emax m 0 (5 ^ (- e)) (- e) in
       binary_round_aux prec emax neg mz ez lz.

(** strconv.ParseFloat(s, 64): [None] is a non-nil error (syntax error,
    trailing bytes, or a range error on overflow). *)
Definition ParseFloat (str : string) : option float64 :=
  let s := list_ascii_of_string str in
  match special s with
  | Some (f, n) => if (n =? Z.of_nat (length s))%Z then Some f else None
  | None =>
      match readFloat s with
      | None => None
      | Some (m, e, hex, neg, rest) =>
          match rest with
          | [] => match round_value m e hex neg with
                  | S754_infinity _ => None
                  | f => Some f
                  end
          | _ => None
          end
      end
  end.

End Float64.
Abbreviation float64 := Float64.float64.

(** ** The regexp2 patterns of the parsers

    A backtracking matcher (the regexp2 engine is a port of .NET's) for the
    constructs the four patterns use: [^], [$] (without Multiline: the end of
    the input or just before a final newline), literal bytes, greedy [*] and
    [+] over a character class, capture groups and greedy optional groups. *)

Module Regexp.

Inductive rx : Type :=
| Bol
| EolZ
| Lit (c : ascii)
| Rep (least : nat) (cls : ascii -> bool)
| Cap (n : nat) (r : rx)
| Opt (r : rx)
| Seq (r1 r2 : rx).

Definition caps := list (nat * string).

Fixpoint span (cls : ascii -> bool) (s : string) : nat :=
  match s with
  | String c s' => if cls c then S (span cls s') else 0
  | EmptyString => 0
  end.

(** try the continuation after [j], [j-1], ..., [least] repetitions *)
Fixpoint rep_try (least j : nat) (s : string) (cs : caps)
    (k : string -> caps -> option caps) : option caps :=
  if (j <? least)%nat then None else
  match k (substring j (String.length s - j) s) cs with
  | Some r => Some r
  | None => match j with
            | O => None
            | S j' => rep_try least j' s cs k
            end
  end.

(** [n0] is the length of the whole input, so that [^] can check the position *)
Fixpoint mt (n0 : nat) (r : rx) (s : string) (cs : caps)
    (k : string -> caps -> option caps) {struct r} : option caps :=
  match r with
  | Bol => if (String.length s =? n0)%nat then k s cs else None
  | EolZ =>
      match s with
      | EmptyString => k s cs
      | String "010"%char EmptyString => k s cs
      | _ => None
      end
  | Lit c =>
      match s with
      | String c' s' => if Ascii.eqb c c' then k s' cs else None
      | EmptyString => None
      end
  | Rep least cls => rep_try least (span cls s) s cs k
  | Cap n r1 =>
      mt n0 r1 s cs (fun s' cs' => k s' ((n, substring 0 (String.length s - String.length s') s) :: cs'))
  | Opt r1 =>
      match mt n0 r1 s cs k with
      | Some res => Some res
      | None => k s cs
      end
  | Seq r1 r2 => mt n0 r1 s cs (fun s' cs' => mt n0 r2 s' cs' k)
  end.

(** FindStringMatch for a pattern anchored with [^]: the captures of the
    match, if any. *)
Definition FindStringMatch (r : rx) (s : string) : option caps :=
  mt (String.length s) r s [] (fun _ cs => Some cs).

(** match.Groups()[n].String(): "" for a group that did not participate *)
Fixpoint group (cs : caps) (n : nat) : string :=
  match cs with
  | [] => ""
  | (m, v) :: cs' => if (m =? n)%nat then v else group cs' n
  end.

(** the class of white space (on bytes), the dot, and the negated classes of the patterns *)
Definition is_space (c : ascii) : bool :=
  let n := nat_of_ascii c in ((9 <=? n) && (n <=? 13))%nat || (n =? 32)%nat.
Definition not_newline (c : ascii) : bool := negb (Ascii.eqb c "010"%char).
Definition not_in (cs : list ascii) (c : ascii) : bool :=
  negb (is_space c) && negb (existsb (Ascii.eqb c) cs).

Fixpoint seq (rs : list rx) : rx :=
  match rs with
  | [] => Opt (Rep 0 (fun _ => false))
  | [r] => r
  | r :: rs' => Seq r (seq rs')
  end.

(** the tail shared by the four patterns: optional white space, an optional
    parameter group (numbered [n]) after a semicolon, and the end *)
Definition params_tail (n : nat) : list rx :=
  [Rep 0 is_space; Opt (Seq (Lit ";") (Cap n (Rep 0 not_newline))); EolZ].

Definition simpleCharsetPattern : string := "^\s*([^\s;]+)\s*(?:;(.*))?$".
(** simpleCharsetRegExp = simpleEncodingRegExp = [simpleCharsetPattern] *)
Definition simpleCharsetRegExp : rx :=
  seq ([Bol; Rep 0 is_space; Cap 1 (Rep 1 (not_in [";"%char]))] ++ params_tail 2).
Definition simpleEncodingRegExp : rx := simpleCharsetRegExp.

Definition simpleLanguagePattern : string := "^\s*([^\s\-;]+)(?:-([^\s;]+))?\s*(?:;(.*))?$".
(** simpleLanguageRegExp = [simpleLanguagePattern] *)
Definition simpleLanguageRegExp : rx :=
  seq ([Bol; Rep 0 is_space; Cap 1 (Rep 1 (not_in ["-"%char; ";"%char]));
        Opt (Seq (Lit "-") (Cap 2 (Rep 1 (not_in [";"%char]))))] ++ params_tail 3).

Definition simpleMediaTypePattern : string := "^\s*([^\s\/;]+)\/([^;\s]+)\s*(?:;(.*))?$".
(** simpleMediaTypeRegExp = [simpleMediaTypePattern] *)
Definition simpleMediaTypeRegExp : rx :=
  seq ([Bol; Rep 0 is_space; Cap 1 (Rep 1 (not_in ["/"%char; ";"%char]));
        Lit "/"; Cap 2 (Rep 1 (not_in [";"%char]))] ++ params_tail 3).

End Regexp.

(** * Go's [sort.Sort]

    [sort.Sort] of the Go standard library (Go 1.19 and later, pattern-defeating
    quicksort), over a slice seen through [Less] and [Swap].  The slice is the
    state of a small state monad; every loop of the Go code is a [loop] whose
    body says whether to go on ([inl]) or to leave with a value ([inr]).  The
    fuel given to loops and to the recursion is the length of the slice plus
    one, which the Go code never exceeds. *)
Module GoSort.
Section Sort.
Context {T : Type} (less : T -> T -> bool).

Definition M (A : Type) : Type := list T -> A * list T.
Definition ret {A} (x : A) : M A := fun l => (x, l).
Definition bind {A B} (m : M A) (f : A -> M B) : M B :=
  fun l => let (x, l') := m l in f x l'.

Local Open Scope Z_scope.
Local Notation "'let*' x := m 'in' k" := (bind m (fun x => k))
  (at level 200, x pattern, m at level 200, k at level 200).

(** [data.Less(i, j)] and [data.Swap(i, j)] on the slice *)
Definition Less (i j : Z) : M bool := fun l =>
  (match l !! Z.to_nat i, l !! Z.to_nat j with
   | Some x, Some y => less x y
   | _, _ => false
   end, l).
Definition swap_list (l : list T) (i j : nat) : list T :=
  match l !! i, l !! j with
  | Some x, Some y => <[i:=y]> (<[j:=x]> l)
  | _, _ => l
  end.
Definition Swap (i j : Z) : M unit := fun l =>
  (tt, swap_list l (Z.to_nat i) (Z.to_nat j)).

Fixpoint loop {S R : Type} (fuel : nat) (exit : S -> R)
    (body : S -> M (S + R)) (s : S) : M R :=
  match fuel with
  | O => ret (exit s)
  | Datatypes.S f =>
      let* r := body s in
      match r with
      | inl s' => loop f exit body s'
      | inr x => ret x
      end
  end.

Variable n : nat.

(** [for j := i; j > a && data.Less(j, j-1); j-- { data.Swap(j, j-1) }] *)
Definition insertionSort (a b : Z) : M unit :=
  loop n (fun _ => tt) (fun i =>
    if i <? b then
      let* _ := loop n (fun _ => tt) (fun j =>
             if a <? j then
               let* c := Less j (j - 1) in
               if c then (let* _ := Swap j (j - 1) in ret (inl (j - 1)))
               else ret (inr tt)
             else ret (inr tt)) i in
      ret (inl (i + 1))
    else ret (inr tt)) (a + 1).

Definition siftDown (lo hi first : Z) : M unit :=
  loop n (fun _ => tt) (fun root =>
    let child := 2 * root + 1 in
    if hi <=? child then ret (inr tt) else
    let* child := (if child + 1 <? hi then
                let* c := Less (first + child) (first + child + 1) in
                ret (if c then child + 1 else child)
              else ret child) in
    let* c := Less (first + root) (first + child) in
    if negb c then ret (inr tt) else
    let* _ := Swap (first + root) (first + child) in
    ret (inl child)) lo.

Definition heapSort (a b : Z) : M unit :=
  let first := a in let lo := 0 in let hi := b - a in
  let* _ := loop n (fun _ => tt) (fun i =>
         if 0 <=? i then (let* _ := siftDown i hi first in ret (inl (i - 1)))
         else ret (inr tt)) (Z.quot (hi - 1) 2) in
  loop n (fun _ => tt) (fun i =>
    if 0 <=? i then
      let* _ := Swap first (first + i) in
      let* _ := siftDown lo i first in
      ret (inl (i - 1))
    else ret (inr tt)) (hi - 1).

(** [bits.Len] of a non-negative int *)
Definition bitsLen (x : Z) : Z := if x <=? 0 then 0 else Z.log2 x + 1.

Definition xorshift_next (r : Z) : Z :=
  let m := 2 ^ 64 in
  let r := Z.lxor r ((Z.shiftl r 13) mod m) in
  let r := Z.lxor r (Z.shiftr r 7) in
  Z.lxor r ((Z.shiftl r 17) mod m).

Definition nextPowerOfTwo (length : Z) : Z := Z.shiftl 1 (bitsLen length).

Definition breakPatterns (a b : Z) : M unit :=
  let length := b - a in
  if 8 <=? length then
    let modulus := nextPowerOfTwo length in
    let idx := a + (Z.quot length 4) * 2 - 1 in
    loop n (fun _ => tt) (fun '(i, random) =>
      if i <? 3 then
        let random := xorshift_next random in
        let other := Z.land random (modulus - 1) in
        let other := if length <=? other then other - length else other in
        let* _ := Swap (idx - 1 + i) (a + other) in
        ret (inl (i + 1, random))
      else ret (inr tt)) (0, length)
  else ret tt.

Inductive sortedHint := unknownHint | increasingHint | decreasingHint.

Definition order2 (a b swaps : Z) : M (Z * Z * Z) :=
  let* c := Less b a in
  ret (if c then (b, a, swaps + 1) else (a, b, swaps)).

Definition median (a b c swaps : Z) : M (Z * Z) :=
  let* (a, b, swaps) := order2 a b swaps in
  let* (b, c, swaps) := order2 b c swaps in
  let* (a, b, swaps) := order2 a b swaps in
  ret (b, swaps).

Definition medianAdjacent (a swaps : Z) : M (Z * Z) :=
  median (a - 1) a (a + 1) swaps.

Definition reverseRange (a b : Z) : M unit :=
  loop n (fun _ => tt) (fun '(i, j) =>
    if i <? j then (let* _ := Swap i j in ret (inl (i + 1, j - 1)))
    else ret (inr tt)) (a, b - 1).

Definition choosePivot (a b : Z) : M (Z * sortedHint) :=
  let l := b - a in
  let i := a + Z.quot l 4 * 1 in
  let j := a + Z.quot l 4 * 2 in
  let k := a + Z.quot l 4 * 3 in
  let* (j, swaps) :=
    (if 8 <=? l then
       let* (i, j, k, swaps) :=
         (if 50 <=? l then
            let* (i, swaps) := medianAdjacent i 0 in
            let* (j, swaps) := medianAdjacent j swaps in
            let* (k, swaps) := medianAdjacent k swaps in
            ret (i, j, k, swaps)
          else ret (i, j, k, 0)) in
       median i j k swaps
     else ret (j, 0)) in
  ret (if swaps =? 0 then (j, increasingHint)
       else if swaps =? 12 then (j, decreasingHint)
       else (j, unknownHint)).

(** shifts one element left ([for j := i - 1; j >= 1; j--]) or right
    ([for j := i + 1; j < b; j++]) while it is out of order *)
Definition shift_left (i : Z) : M unit :=
  loop n (fun _ => tt) (fun j =>
    if 1 <=? j then
      let* c := Less j (j - 1) in
      if negb c then ret (inr tt)
      else (let* _ := Swap j (j - 1) in ret (inl (j - 1)))
    else ret (inr tt)) (i - 1).
Definition shift_right (i b : Z) : M unit :=
  loop n (fun _ => tt) (fun j =>
    if j <? b then
      let* c := Less j (j - 1) in
      if negb c then ret (inr tt)
      else (let* _ := Swap j (j - 1) in ret (inl (j + 1)))
    else ret (inr tt)) (i + 1).

Definition partialInsertionSort (a b : Z) : M bool :=
  loop n (fun _ => false) (fun '(j, i) =>
    if j <? 5 then
      let* i := loop n id (fun i =>
                  if i <? b then
                    let* c := Less i (i - 1) in
                    if negb c then ret (inl (i + 1)) else ret (inr i)
                  else ret (inr i)) i in
      if i =? b then ret (inr true) else
      if b - a <? 50 then ret (inr false) else
      let* _ := Swap i (i - 1) in
      let* _ := (if 2 <=? i - a then shift_left i else ret tt) in
      let* _ := (if 2 <=? b - i then shift_right i b else ret tt) in
      ret (inl (j + 1, i))
    else ret (inr false)) (0, a + 1).

(** the two scans [for i <= j && data.Less(i, a) { i++ }] and
    [for i <= j && !data.Less(j, a) { j-- }] of [partition] *)
Definition scan_up (a : Z) (ij : Z * Z) : M (Z * Z) :=
  loop n id (fun '(i, j) =>
    if i <=? j then
      let* c := Less i a in
      if c then ret (inl (i + 1, j)) else ret (inr (i, j))
    else ret (inr (i, j))) ij.
Definition scan_down (a : Z) (ij : Z * Z) : M (Z * Z) :=
  loop n id (fun '(i, j) =>
    if i <=? j then
      let* c := Less j a in
      if negb c then ret (inl (i, j - 1)) else ret (inr (i, j))
    else ret (inr (i, j))) ij.

Definition partition (a b pivot : Z) : M (Z * bool) :=
  let* _ := Swap a pivot in
  let* (i, j) := scan_up a (a + 1, b - 1) in
  let* (i, j) := scan_down a (i, j) in
  if j <? i then (let* _ := Swap j a in ret (j, true)) else
  let* _ := Swap i j in
  let* j := loop n snd (fun '(i, j) =>
    let* (i, j) := scan_up a (i, j) in
    let* (i, j) := scan_down a (i, j) in
    if j <? i then ret (inr j) else
    let* _ := Swap i j in
    ret (inl (i + 1, j - 1))) (i + 1, j - 1) in
  let* _ := Swap j a in
  ret (j, false).

Definition partitionEqual (a b pivot : Z) : M Z :=
  let* _ := Swap a pivot in
  loop n fst (fun '(i, j) =>
    let* i := loop n id (fun i =>
                if i <=? j then
                  let* c := Less a i in
                  if negb c then ret (inl (i + 1)) else ret (inr i)
                else ret (inr i)) i in
    let* j := loop n id (fun j =>
                if i <=? j then
                  let* c := Less a j in
                  if c then ret (inl (j - 1)) else ret (inr j)
                else ret (inr j)) j in
    if j <? i then ret (inr i) else
    let* _ := Swap i j in
    ret (inl (i + 1, j - 1))) (a + 1, b - 1).

Definition hint_eqb (h1 h2 : sortedHint) : bool :=
  match h1, h2 with
  | unknownHint, unknownHint | increasingHint, increasingHint
  | decreasingHint, decreasingHint => true
  | _, _ => false
  end.

(** [pdqsort(data, a, b, limit)]: one step of the Go loop per unit of fuel;
    [continue] and the recursive call both go one level down *)
Fixpoint pdqsort (fuel : nat) (a b limit : Z) (wasBalanced wasPartitioned : bool)
    : M unit :=
  match fuel with
  | O => ret tt
  | Datatypes.S f =>
    let length := b - a in
    if length <=? 12 then insertionSort a b else
    if limit =? 0 then heapSort a b else
    let* _ := (if negb wasBalanced then breakPatterns a b else ret tt) in
    let limit := if negb wasBalanced then limit - 1 else limit in
    let* (pivot, hint) := choosePivot a b in
    let* (pivot, hint) :=
      (if hint_eqb hint decreasingHint then
         let* _ := reverseRange a b in
         ret ((b - 1) - (pivot - a), increasingHint)
       else ret (pivot, hint)) in
    let* done :=
      (if wasBalanced && wasPartitioned && hint_eqb hint increasingHint
       then partialInsertionSort a b else ret false) in
    if done then ret tt else
    let* eq :=
      (if 0 <? a then (let* c := Less (a - 1) pivot in ret (negb c))
       else ret false) in
    if eq then
      (let* mid := partitionEqual a b pivot in
       pdqsort f mid b limit wasBalanced wasPartitioned)
    else
    let* (mid, alreadyPartitioned) := partition a b pivot in
    let leftLen := mid - a in
    let rightLen := b - mid in
    let balanceThreshold := Z.quot length 8 in
    if leftLen <? rightLen then
      let* _ := pdqsort f a mid limit true true in
      pdqsort f (mid + 1) b limit (balanceThreshold <=? leftLen) alreadyPartitioned
    else
      let* _ := pdqsort f (mid + 1) b limit true true in
      pdqsort f a mid limit (balanceThreshold <=? rightLen) alreadyPartitioned
  end.

End Sort.

(** [sort.Sort(data)] *)
Definition Sort {T} (less : T -> T -> bool) (l : list T) : list T :=
  let n := length l in
  if (n <=? 1)%nat then l
  else snd (pdqsort less (S n) (S n) 0 (Z.of_nat n) (bitsLen (Z.of_nat n)) true true l).

End GoSort.

(** * What the four dimensions share *)
Module Common.
Local Open Scope Z_scope.

(** [type specificity struct { i int; o int; q float64; s int }] *)
Record specificity := mkSpecificity { i : Z; o : Z; q : float64; s : Z }.

(** Go's [==] on the struct (field by field, [==] on the float) *)
Definition specificity_eqb (a b : specificity) : bool :=
  (a.(i) =? b.(i)) && (a.(o) =? b.(o)) && Float64.eq a.(q) b.(q) && (a.(s) =? b.(s)).

(** [specificities.indexOf] *)
Fixpoint indexOf_from (ss : list specificity) (x : specificity) (k : Z) : Z :=
  match ss with
  | [] => -1
  | v :: ss' => if specificity_eqb v x then k else indexOf_from ss' x (k + 1)
  end.
Definition indexOf (ss : list specificity) (x : specificity) : Z := indexOf_from ss x 0.

Definition isSpecificityQuality (x : specificity) : bool := Float64.gt x.(q) Float64.zero.

(** [specificity{o: -1, q: 0, s: 0}] *)
Definition no_match : specificity := mkSpecificity 0 (-1) Float64.zero 0.

(** one turn of the loop of [getXPriority]: the incumbent is replaced when one
    of the three differences (incumbent minus match) is negative *)
Definition priority_step (priority : specificity) (spec : option specificity) : specificity :=
  match spec with
  | None => priority
  | Some sp =>
      let s' := GoInt.sub priority.(s) sp.(s) in
      let q' := Float64.sub priority.(q) sp.(q) in
      let o' := GoInt.sub priority.(o) sp.(o) in
      if (s' <? 0) || Float64.lt q' Float64.zero || (o' <? 0) then sp else priority
  end.

(** [for i, v := range types { result[i] = f(v, i) }] *)
Fixpoint imap_from {A B} (f : A -> Z -> B) (l : list A) (k : Z) : list B :=
  match l with
  | [] => []
  | x :: l' => f x k :: imap_from f l' (k + 1)
  end.
Definition imap {A B} (f : A -> Z -> B) (l : list A) : list B := imap_from f l 0.

(** the closing loop of the selectors in candidate mode:
    [i := priorities.indexOf(v); if i >= 0 { results = append(results, provided[i]) }] *)
Fixpoint results (priorities filtered : list specificity) (provided : list string)
    : result (list string) :=
  match filtered with
  | [] => Ok []
  | v :: rest =>
      let k := indexOf priorities v in
      if 0 <=? k then
        x <- slice_get provided k ;;
        r <- results priorities rest provided ;;
        Ok (x :: r)
      else results priorities rest provided
  end.

(** [for i := 0; i < length; i++ { x := parse(strings.Trim(accepts[i], " "), i);
    if x != nil { results = append(results, *x) } }] *)
Fixpoint parse_all_from {A} (parse : string -> Z -> result (option A))
    (accepts : list string) (k : Z) : result (list A) :=
  match accepts with
  | [] => Ok []
  | a :: rest =>
      x <- parse (GoStrings.Trim a) k ;;
      r <- parse_all_from parse rest (k + 1) ;;
      Ok (match x with Some y => y :: r | None => r end)
  end.
Definition parse_all {A} (parse : string -> Z -> result (option A))
    (accepts : list string) : result (list A) := parse_all_from parse accepts 0.

(** the parameter loop of parseCharset, parseEncoding and parseLanguage:
    [p := strings.Split(strings.Trim(params[j], " "), "="); if p[0] == "q" {
    q1, err := strconv.ParseFloat(p[1], 64); if err != nil { return nil };
    q = q1; break }]; [Ok None] is the [return nil] *)
Fixpoint scan_q (params : list string) (q0 : float64) : result (option float64) :=
  match params with
  | [] => Ok (Some q0)
  | param :: rest =>
      let p := GoStrings.split "=" (GoStrings.Trim param) in
      p0 <- slice_get p 0 ;;
      if String.eqb p0 "q" then
        p1 <- slice_get p 1 ;;
        match Float64.ParseFloat p1 with
        | None => Ok None
        | Some q1 => Ok (Some q1)
        end
      else scan_q rest q0
  end.

(** Modelled from the spec: [compareSpecs] is not among the sources; the
    order below is the one the specification gives for candidate mode:
    quality descending, then specificity bits ascending, then entry order
    ascending, then candidate order ascending. *)
Definition compareSpecs (s1 s2 : specificity) : bool :=
  if Float64.ne s1.(q) s2.(q) then Float64.gt s1.(q) s2.(q)
  else if negb (s1.(s) =? s2.(s)) then s1.(s) <? s2.(s)
  else if negb (s1.(o) =? s2.(o)) then s1.(o) <? s2.(o)
  else s1.(i) <? s2.(i).

(** the comparator written inline in PreferredCharsets and PreferredMediaTypes:
    [s1.q > s2.q || s1.s < s2.s || s1.o < s2.o || s1.i < s2.i] *)
Definition specificityLess (s1 s2 : specificity) : bool :=
  Float64.gt s1.(q) s2.(q) || (s1.(s) <? s2.(s)) || (s1.(o) <? s2.(o)) || (s1.(i) <? s2.(i)).

End Common.

Abbreviation specificity := Common.specificity.

(** * Accept-Charset *)
Module Charset.
Local Open Scope Z_scope.

Record acceptCharset := mkAcceptCharset { charset : string; q : float64; i : Z }.

Definition toCharsets (acs : list acceptCharset) : list string := map charset acs.

Definition parseCharset (s : string) (i : Z) : result (option acceptCharset) :=
  match Regexp.FindStringMatch Regexp.simpleCharsetRegExp s with
  | None => Ok None
  | Some m =>
      let charset := Regexp.group m 1 in
      if String.eqb (Regexp.group m 2) "" then Ok (Some (mkAcceptCharset charset Float64.one i))
      else
        r <- Common.scan_q (GoStrings.split ";" (Regexp.group m 2)) Float64.one ;;
        Ok (match r with
            | None => None
            | Some q => Some (mkAcceptCharset charset q i)
            end)
  end.

Definition parseAcceptCharset (accept : string) : result (list acceptCharset) :=
  Common.parse_all parseCharset (GoStrings.split "," accept).

Definition charsetSpecify (charset : string) (ac : acceptCharset) (index : Z)
    : option specificity :=
  let s := 0 in
  if String.eqb (GoStrings.ToLower ac.(Charset.charset)) (GoStrings.ToLower charset)
  then Some (Common.mkSpecificity index ac.(i) ac.(q) (Z.lor s 1))
  else if negb (String.eqb ac.(Charset.charset) "*") then None
  else Some (Common.mkSpecificity index ac.(i) ac.(q) s).

Definition getCharsetPriority (charset : string) (acs : list acceptCharset) (index : Z)
    : specificity :=
  fold_left (fun priority ac => Common.priority_step priority (charsetSpecify charset ac index))
    acs Common.no_match.

Definition isAcceptCharsetQuality (ac : acceptCharset) : bool := Float64.gt ac.(q) Float64.zero.

Definition getCharsetSpecificities (types : list string) (acs : list acceptCharset)
    : list specificity :=
  Common.imap (fun v i => getCharsetPriority v acs i) types.

(** the comparator of the no-candidate branch: [ac1.q > ac2.q || ac1.i < ac2.i] *)
Definition acceptCharsetLess (ac1 ac2 : acceptCharset) : bool :=
  Float64.gt ac1.(q) ac2.(q) || (ac1.(i) <? ac2.(i)).

Definition PreferredCharsets (accept : string) (provided : list string) : result (list string) :=
  acs <- parseAcceptCharset accept ;;
  match provided with
  | [] =>
      let filteredAcs := List.filter isAcceptCharsetQuality acs in
      Ok (toCharsets (GoSort.Sort acceptCharsetLess filteredAcs))
  | _ =>
      let priorities := getCharsetSpecificities provided acs in
      let filteredPriorities := List.filter Common.isSpecificityQuality priorities in
      Common.results priorities (GoSort.Sort Common.specificityLess filteredPriorities) provided
  end.

End Charset.

(** * Accept-Encoding *)
Module Encoding.
Local Open Scope Z_scope.

Record acceptEncoding := mkAcceptEncoding { encoding : string; q : float64; i : Z }.

Definition toEncodings (acs : list acceptEncoding) : list string := map encoding acs.

Definition parseEncoding (s : string) (i : Z) : result (option acceptEncoding) :=
  match Regexp.FindStringMatch Regexp.simpleEncodingRegExp s with
  | None => Ok None
  | Some m =>
      let encoding := Regexp.group m 1 in
      if String.eqb (Regexp.group m 2) "" then Ok (Some (mkAcceptEncoding encoding Float64.one i))
      else
        r <- Common.scan_q (GoStrings.split ";" (Regexp.group m 2)) Float64.one ;;
        Ok (match r with
            | None => None
            | Some q => Some (mkAcceptEncoding encoding q i)
            end)
  end.

Definition encodingSpecify (encoding : string) (ac : acceptEncoding) (index : Z)
    : option specificity :=
  let s := 0 in
  if String.eqb (GoStrings.ToLower ac.(Encoding.encoding)) (GoStrings.ToLower encoding)
  then Some (Common.mkSpecificity index ac.(i) ac.(q) (Z.lor s 1))
  else if negb (String.eqb ac.(Encoding.encoding) "*") then None
  else Some (Common.mkSpecificity index ac.(i) ac.(q) s).

(** the loop of parseAcceptEncoding over the segments, with its three
    accumulators [results], [hasIdentity] and [minQuality] *)
Fixpoint parse_loop (accepts : list string) (k : Z) (results : list acceptEncoding)
    (hasIdentity : bool) (minQuality : float64)
    : result (list acceptEncoding * bool * float64) :=
  match accepts with
  | [] => Ok (results, hasIdentity, minQuality)
  | a :: rest =>
      e <- parseEncoding (GoStrings.Trim a) k ;;
      match e with
      | None => parse_loop rest (k + 1) results hasIdentity minQuality
      | Some encoding =>
          let spec := encodingSpecify "identity" encoding 0 in
          parse_loop rest (k + 1) (app results [encoding])
            (hasIdentity || match spec with Some _ => true | None => false end)
            (Float64.math_Min minQuality encoding.(q))
      end
  end.

Definition parseAcceptEncoding (accept : string) : result (list acceptEncoding) :=
  let accepts := GoStrings.split "," accept in
  let length := Z.of_nat (List.length accepts) in
  r <- parse_loop accepts 0 [] false Float64.one ;;
  let '(results, hasIdentity, minQuality) := r in
  Ok (if negb hasIdentity then app results [mkAcceptEncoding "identity" minQuality length]
      else results).

Definition getEncodingPriority (encoding : string) (acs : list acceptEncoding) (index : Z)
    : specificity :=
  fold_left (fun priority ac => Common.priority_step priority (encodingSpecify encoding ac index))
    acs Common.no_match.

Definition isAcceptEncodingQuality (ac : acceptEncoding) : bool := Float64.gt ac.(q) Float64.zero.

Definition getEncodingSpecificities (types : list string) (acs : list acceptEncoding)
    : list specificity :=
  Common.imap (fun v i => getEncodingPriority v acs i) types.

(** [if ac1.q != ac2.q { return ac1.q > ac2.q }; return ac1.i < ac2.i] *)
Definition acceptEncodingLess (ac1 ac2 : acceptEncoding) : bool :=
  if Float64.ne ac1.(q) ac2.(q) then Float64.gt ac1.(q) ac2.(q) else ac1.(i) <? ac2.(i).

Definition PreferredEncodings (accept : string) (provided : list string) : result (list string) :=
  acs <- parseAcceptEncoding accept ;;
  match provided with
  | [] =>
      let filteredAcs := List.filter isAcceptEncodingQuality acs in
      Ok (toEncodings (GoSort.Sort acceptEncodingLess filteredAcs))
  | _ =>
      let priorities := getEncodingSpecificities provided acs in
      let filteredPriorities := List.filter Common.isSpecificityQuality priorities in
      Common.results priorities (GoSort.Sort Common.compareSpecs filteredPriorities) provided
  end.

End Encoding.

(** * Accept-Language *)
Module Language.
Local Open Scope Z_scope.

Record acceptLanguage := mkAcceptLanguage
  { prefix : string; suffix : string; full : string; q : float64; i : Z }.

Definition toLanguages (acs : list acceptLanguage) : list string := map full acs.

Definition parseLanguage (s : string) (i : Z) : result (option acceptLanguage) :=
  match Regexp.FindStringMatch Regexp.simpleLanguageRegExp s with
  | None => Ok None
  | Some m =>
      let prefix := Regexp.group m 1 in
      let suffix := Regexp.group m 2 in
      let full := if negb (String.eqb suffix "") then prefix ++ "-" ++ suffix else prefix in
      if String.eqb (Regexp.group m 3) "" then
        Ok (Some (mkAcceptLanguage prefix suffix full Float64.one i))
      else
        r <- Common.scan_q (GoStrings.split ";" (Regexp.group m 3)) Float64.one ;;
        Ok (match r with
            | None => None
            | Some q => Some (mkAcceptLanguage prefix suffix full q i)
            end)
  end.

Definition parseAcceptLanguage (accept : string) : result (list acceptLanguage) :=
  Common.parse_all parseLanguage (GoStrings.split "," accept).

(** the candidate is reparsed, which can panic like any parse *)
Definition languageSpecify (language : string) (ac : acceptLanguage) (index : Z)
    : result (option specificity) :=
  pr <- parseLanguage language index ;;
  match pr with
  | None => Ok None
  | Some p =>
      let lower := GoStrings.ToLower in
      let s := 0 in
      let mk s := Some (Common.mkSpecificity index ac.(i) ac.(q) s) in
      Ok (if String.eqb (lower ac.(full)) (lower p.(full)) then mk (Z.lor s 4)
          else if String.eqb (lower ac.(prefix)) (lower p.(full)) then mk (Z.lor s 2)
          else if String.eqb (lower ac.(full)) (lower p.(prefix)) then mk (Z.lor s 1)
          else if negb (String.eqb ac.(full) "*") then None
          else mk s)
  end.

Fixpoint priority_loop (language : string) (acs : list acceptLanguage) (index : Z)
    (priority : specificity) : result specificity :=
  match acs with
  | [] => Ok priority
  | ac :: rest =>
      spec <- languageSpecify language ac index ;;
      priority_loop language rest index (Common.priority_step priority spec)
  end.

Definition getLanguagePriority (language : string) (acs : list acceptLanguage) (index : Z)
    : result specificity :=
  priority_loop language acs index Common.no_match.

Definition isAcceptLanguageQuality (ac : acceptLanguage) : bool := Float64.gt ac.(q) Float64.zero.

Fixpoint specificities_from (types : list string) (acs : list acceptLanguage) (k : Z)
    : result (list specificity) :=
  match types with
  | [] => Ok []
  | v :: rest =>
      x <- getLanguagePriority v acs k ;;
      r <- specificities_from rest acs (k + 1) ;;
      Ok (x :: r)
  end.
Definition getLanguageSpecificities (types : list string) (acs : list acceptLanguage)
    : result (list specificity) := specificities_from types acs 0.

(** [if ac1.q != ac2.q { return ac1.q > ac2.q }; return ac1.i < ac2.i] *)
Definition acceptLanguageLess (ac1 ac2 : acceptLanguage) : bool :=
  if Float64.ne ac1.(q) ac2.(q) then Float64.gt ac1.(q) ac2.(q) else ac1.(i) <? ac2.(i).

Definition PreferredLanguages (accept : string) (provided : list string) : result (list string) :=
  acs <- parseAcceptLanguage accept ;;
  match provided with
  | [] =>
      let filteredAcs := List.filter isAcceptLanguageQuality acs in
      Ok (toLanguages (GoSort.Sort acceptLanguageLess filteredAcs))
  | _ =>
      priorities <- getLanguageSpecificities provided acs ;;
      let filteredPriorities := List.filter Common.isSpecificityQuality priorities in
      Common.results priorities (GoSort.Sort Common.compareSpecs filteredPriorities) provided
  end.

End Language.

(** * Accept (media types) *)
Module MediaType.
Local Open Scope Z_scope.

Record acceptMediaType := mkAcceptMediaType
  { mainType : string; subtype : string; params : gmap string string; q : float64; i : Z }.

Definition toMediaTypes (acs : list acceptMediaType) : list string :=
  map (fun ac => ac.(mainType) ++ "/" ++ ac.(subtype)) acs.

Definition dquote : ascii := "034"%char.

(** [strings.Count(s, dquote)], [dquote] being the double quote byte *)
Definition quoteCount (s : string) : Z := GoStrings.Count s dquote.

(** [splitKeyValuePair]: the two-element slice [[key, val]] as a pair *)
Definition splitKeyValuePair (s : string) : string * string :=
  let index := GoStrings.Index s "=" in
  if index =? -1 then (s, "")
  else (GoStrings.slice s 0 index,
        GoStrings.slice s (index + 1) (Z.of_nat (String.length s))).

(** the merging loop shared by splitMediaTypes and splitParameters: the
    piece being built ([accepts[j]]) takes the next one behind [sep] while it
    holds an odd number of quotes *)
Fixpoint join_quoted (sep cur : string) (rest : list string) : list string :=
  match rest with
  | [] => [cur]
  | x :: rest' =>
      if Z.rem (quoteCount cur) 2 =? 0 then cur :: join_quoted sep x rest'
      else join_quoted sep (cur ++ sep ++ x) rest'
  end.

Definition splitMediaTypes (accept : string) : list string :=
  match GoStrings.split "," accept with
  | [] => []
  | a0 :: rest => join_quoted "," a0 rest
  end.

Definition splitParameters (str : string) : list string :=
  map GoStrings.Trim
    (match GoStrings.split ";" str with
     | [] => []
     | p0 :: rest => join_quoted ";" p0 rest
     end).

(** [s[k] == c] for [0 <= k < len(s)] *)
Definition byte_is (s : string) (k : Z) (c : ascii) : bool :=
  match GoStrings.byte_at s k with
  | Some c' => Ascii.eqb c' c
  | None => false
  end.

(** when [val] is not empty and both [val[0]] and [val[len(val)-1]] are
    [dquote]: [val = val[1:int(math.Max(float64(len(val)-1), 1))]]; the
    float maximum of two small integers is exact, hence [Z.max] *)
Definition unquote (val : string) : string :=
  let len := Z.of_nat (String.length val) in
  if negb (String.eqb val "") && byte_is val 0 dquote && byte_is val (len - 1) dquote
  then GoStrings.slice val 1 (Z.max (len - 1) 1)
  else val.

(** the loop over [arr] in parseMediaType; [None] is the [return nil] *)
Fixpoint params_loop (arr : list (string * string)) (params : gmap string string)
    (q : float64) : option (gmap string string * float64) :=
  match arr with
  | [] => Some (params, q)
  | (k, v) :: rest =>
      let key := GoStrings.ToLower k in
      let val := unquote v in
      if String.eqb key "q" then
        match Float64.ParseFloat val with
        | None => None
        | Some q1 => Some (params, q1)
        end
      else params_loop rest (<[key := val]> params) q
  end.

Definition parseMediaType (s : string) (i : Z) : option acceptMediaType :=
  match Regexp.FindStringMatch Regexp.simpleMediaTypeRegExp s with
  | None => None
  | Some m =>
      let mainType := Regexp.group m 1 in
      let subType := Regexp.group m 2 in
      if String.eqb (Regexp.group m 3) "" then
        Some (mkAcceptMediaType mainType subType ∅ Float64.one i)
      else
        let kvps := splitParameters (Regexp.group m 3) in
        let arr := map splitKeyValuePair kvps in
        match params_loop arr ∅ Float64.one with
        | None => None
        | Some (params, q) => Some (mkAcceptMediaType mainType subType params q i)
        end
  end.

Fixpoint parse_all_from (accepts : list string) (k : Z) : list acceptMediaType :=
  match accepts with
  | [] => []
  | a :: rest =>
      match parseMediaType (GoStrings.Trim a) k with
      | Some mt => mt :: parse_all_from rest (k + 1)
      | None => parse_all_from rest (k + 1)
      end
  end.
Definition parseAcceptMediaType (accept : string) : list acceptMediaType :=
  parse_all_from (splitMediaTypes accept) 0.

(** Go's map lookup: the zero value [""] for a missing key *)
Definition lookup_str (m : gmap string string) (k : string) : string :=
  default "" (m !! k).

(** [getMapKeys]: Go's iteration order is unspecified; the only caller,
    [every], does not depend on it *)
Definition getMapKeys (m : gmap string string) : list string := map fst (map_to_list m).

Definition every (arr : list string) (f : string -> bool) : bool := forallb f arr.

Definition mediaTypeSpecify (mediaType : string) (ac : acceptMediaType) (index : Z)
    : option specificity :=
  match parseMediaType mediaType index with
  | None => None
  | Some p =>
      let lower := GoStrings.ToLower in
      let s := 0 in
      let s_type :=
        if String.eqb (lower ac.(mainType)) (lower p.(mainType)) then Some (Z.lor s 4)
        else if negb (String.eqb ac.(mainType) "*") then None else Some s in
      match s_type with
      | None => None
      | Some s =>
      let s_sub :=
        if String.eqb (lower ac.(subtype)) (lower p.(subtype)) then Some (Z.lor s 2)
        else if negb (String.eqb ac.(subtype) "*") then None else Some s in
      match s_sub with
      | None => None
      | Some s =>
      let keys := getMapKeys ac.(params) in
      let s_params :=
        if (0 <? Z.of_nat (List.length keys)) then
          if every keys (fun k => String.eqb (lookup_str ac.(params) k) "*"
                                || String.eqb (lower (lookup_str ac.(params) k))
                                              (lower (lookup_str p.(params) k)))
          then Some (Z.lor s 1) else None
        else Some s in
      match s_params with
      | None => None
      | Some s => Some (Common.mkSpecificity index ac.(i) ac.(q) s)
      end end end
  end.

Definition getMediaTypePriority (mediaType : string) (acs : list acceptMediaType) (index : Z)
    : specificity :=
  fold_left (fun priority ac => Common.priority_step priority (mediaTypeSpecify mediaType ac index))
    acs Common.no_match.

Definition isAcceptMediaTypeQuality (ac : acceptMediaType) : bool := Float64.gt ac.(q) Float64.zero.

Definition getMediaTypeSpecificities (types : list string) (acs : list acceptMediaType)
    : list specificity :=
  Common.imap (fun v i => getMediaTypePriority v acs i) types.

(** the comparator of the no-candidate branch: [ac1.q > ac2.q || ac1.i < ac2.i] *)
Definition acceptMediaTypeLess (ac1 ac2 : acceptMediaType) : bool :=
  Float64.gt ac1.(q) ac2.(q) || (ac1.(i) <? ac2.(i)).

Definition PreferredMediaTypes (accept : string) (provided : list string) : result (list string) :=
  let acs := parseAcceptMediaType accept in
  match provided with
  | [] =>
      let filteredAcs := List.filter isAcceptMediaTypeQuality acs in
      Ok (toMediaTypes (GoSort.Sort acceptMediaTypeLess filteredAcs))
  | _ =>
      let priorities := getMediaTypeSpecificities provided acs in
      let filteredPriorities := List.filter Common.isSpecificityQuality priorities in
      Common.results priorities (GoSort.Sort Common.specificityLess filteredPriorities) provided
  end.

End MediaType.

(** * The Negotiator: the request headers and their default values *)
Module NegotiatorAPI.
Local Open Scope Z_scope.

(** a Go [[]string]: [None] is the nil slice *)
Definition slice : Type := option (list string).

(** [http.Header] is a [map[string][]string]; [None] is the nil map *)
Definition httpHeader : Type := option (gmap string slice).

(** textproto's [validHeaderFieldByte]: [isTokenTable[b]] for [b < 127] *)
Definition validHeaderFieldByte (c : ascii) : bool :=
  let n := nat_of_ascii c in
  ((48 <=? n) && (n <=? 57))%nat || ((65 <=? n) && (n <=? 90))%nat ||
  ((97 <=? n) && (n <=? 122))%nat ||
  existsb (fun d => Ascii.eqb c d)
    ["!"; "#"; "$"; "%"; "&"; "'"; "*"; "+"; "-"; "."; "^"; "_"; "`"; "|"; "~"]%char.

Definition is_lower (c : ascii) : bool :=
  let n := nat_of_ascii c in ((97 <=? n) && (n <=? 122))%nat.
Definition is_upper (c : ascii) : bool :=
  let n := nat_of_ascii c in ((65 <=? n) && (n <=? 90))%nat.

(** the rewriting loop of [canonicalMIMEHeaderKey]: [toLower] is ['a' - 'A'] *)
Fixpoint canonical_loop (upper : bool) (a : string) : string :=
  match a with
  | EmptyString => EmptyString
  | String c a' =>
      let c' := if upper && is_lower c then ascii_of_nat (nat_of_ascii c - 32)
                else if negb upper && is_upper c then ascii_of_nat (nat_of_ascii c + 32)
                else c in
      String c' (canonical_loop (Ascii.eqb c' "-") a')
  end.

(** [canonicalMIMEHeaderKey(a)]: unchanged when a byte is not a token byte;
    the [commonHeader] lookup returns an interned copy of the same bytes *)
Definition canonicalMIMEHeaderKey (a : string) : string :=
  if forallb validHeaderFieldByte (list_ascii_of_string a) then canonical_loop true a else a.

(** the quick check of [CanonicalMIMEHeaderKey]: [true] when it hands the key
    over to [canonicalMIMEHeaderKey], [false] when it returns [s] *)
Fixpoint needs_canonical (upper : bool) (s : string) : bool :=
  match s with
  | EmptyString => false
  | String c s' =>
      if negb (validHeaderFieldByte c) then false
      else if upper && is_lower c then true
      else if negb upper && is_upper c then true
      else needs_canonical (Ascii.eqb c "-") s'
  end.

Definition CanonicalMIMEHeaderKey (s : string) : string :=
  if needs_canonical true s then canonicalMIMEHeaderKey s else s.

Definition HeaderAcceptCharset : string := CanonicalMIMEHeaderKey "Accept-Charset".
Definition HeaderAcceptEncoding : string := CanonicalMIMEHeaderKey "Accept-Encoding".
Definition HeaderAcceptLanguage : string := CanonicalMIMEHeaderKey "Accept-Language".
Definition HeaderAccept : string := CanonicalMIMEHeaderKey "Accept".

Record Negotiator := New { Header : httpHeader }.

(** [getHeaderValues]: nil for a nil map and for a missing key *)
Definition getHeaderValues (h : httpHeader) (key : string) : slice :=
  match h with
  | None => None
  | Some m =>
      match m !! CanonicalMIMEHeaderKey key with
      | Some v => v
      | None => None
      end
  end.

Definition getAccept (h : httpHeader) (key defaultValue : string) : string :=
  match getHeaderValues h key with
  | None => defaultValue
  | Some values => GoStrings.Join values ","
  end.

Definition getMostPreferred (accepts : list string) : string :=
  match accepts with
  | [] => ""
  | a :: _ => a
  end.

Definition Charsets (n : Negotiator) (available : list string) : result (list string) :=
  Charset.PreferredCharsets (getAccept n.(Header) HeaderAcceptCharset "*") available.
Definition Charset (n : Negotiator) (available : list string) : result string :=
  r <- Charsets n available ;; Ok (getMostPreferred r).

Definition Encodings (n : Negotiator) (available : list string) : result (list string) :=
  Encoding.PreferredEncodings (getAccept n.(Header) HeaderAcceptEncoding "*") available.
Definition Encoding (n : Negotiator) (available : list string) : result string :=
  r <- Encodings n available ;; Ok (getMostPreferred r).

Definition Languages (n : Negotiator) (available : list string) : result (list string) :=
  Language.PreferredLanguages (getAccept n.(Header) HeaderAcceptLanguage "*") available.
Definition Language (n : Negotiator) (available : list string) : result string :=
  r <- Languages n available ;; Ok (getMostPreferred r).

Definition MediaTypes (n : Negotiator) (available : list string) : result (list string) :=
  MediaType.PreferredMediaTypes (getAccept n.(Header) HeaderAccept "*/*") available.
Definition MediaType (n : Negotiator) (available : list string) : result string :=
  r <- MediaTypes n available ;; Ok (getMostPreferred r).

End NegotiatorAPI.

(** * Proofs *)

(** ** [sort.Sort] only permutes the slice *)
Module GoSortFacts.
Import GoSort.
Section Perm.
Context {T : Type} (less : T -> T -> bool).

(** a computation that leaves a permutation of the slice behind *)
Definition PP {A} (m : GoSort.M (T:=T) A) : Prop := forall l, Permutation l (snd (m l)).

Lemma replace_perm (l : list T) (k : nat) (a b : T) :
  l !! k = Some a -> Permutation (b :: l) (a :: <[k:=b]> l).
Proof.
  intros Hk.
  assert (Hlt : k < length l) by (eapply lookup_lt_Some; eauto).
  rewrite (insert_take_drop l k b Hlt).
  pose proof (take_drop_middle l k a Hk) as Hl.
  transitivity (b :: (take k l ++ a :: drop (S k) l)); [rewrite Hl; reflexivity|].
  transitivity (b :: a :: take k l ++ drop (S k) l).
  { constructor. symmetry. apply Permutation_middle. }
  transitivity (a :: b :: take k l ++ drop (S k) l); [constructor|].
  constructor. apply Permutation_middle.
Qed.

Lemma swap_list_perm (l : list T) (i j : nat) : Permutation l (swap_list l i j).
Proof.
  unfold swap_list.
  destruct (l !! i) as [x|] eqn:Hi; [|reflexivity].
  destruct (l !! j) as [y|] eqn:Hj; [|reflexivity].
  assert (H1 : Permutation (x :: l) (y :: <[j:=x]> l)) by (apply replace_perm; exact Hj).
  destruct (decide (i = j)) as [->|Hne].
  - rewrite Hi in Hj. injection Hj as <-.
    rewrite list_insert_insert_eq, list_insert_id by exact Hi. reflexivity.
  - assert (Hi' : <[j:=x]> l !! i = Some x) by (rewrite list_lookup_insert_ne; auto).
    assert (H2 : Permutation (y :: <[j:=x]> l) (x :: <[i:=y]> (<[j:=x]> l)))
      by (apply replace_perm; exact Hi').
    apply (Permutation_cons_inv (a:=x)). etransitivity; eauto.
Qed.

Lemma PP_ret {A} (x : A) : PP (ret x).
Proof. intros l. reflexivity. Qed.

Lemma PP_bind {A B} (m : M A) (f : A -> M B) :
  PP m -> (forall x, PP (f x)) -> PP (bind m f).
Proof.
  intros Hm Hf l. unfold bind.
  specialize (Hm l). destruct (m l) as [x l'] eqn:E. simpl in Hm.
  etransitivity; [exact Hm|]. apply Hf.
Qed.

Lemma PP_Less i j : PP (Less less i j).
Proof. intros l. reflexivity. Qed.

Lemma PP_Swap i j : PP (Swap (T:=T) i j).
Proof. intros l. apply swap_list_perm. Qed.

Lemma PP_loop {S R} fuel (exit : S -> R) (body : S -> M (S + R)) s :
  (forall s, PP (body s)) -> PP (loop fuel exit body s).
Proof.
  intros Hb. revert s. induction fuel as [|f IH]; intros s; simpl.
  - apply PP_ret.
  - apply PP_bind; [apply Hb|]. intros [s'|x]; [apply IH|apply PP_ret].
Qed.

End Perm.

Ltac pp_step :=
  match goal with
  | |- PP (bind _ _) => apply PP_bind; [|intros ?]
  | |- PP (ret _) => apply PP_ret
  | |- PP (Less _ _ _) => apply PP_Less
  | |- PP (Swap _ _) => apply PP_Swap
  | |- PP (loop _ _ _ _) => apply PP_loop; intros ?
  | |- PP (if ?b then _ else _) => destruct b
  | |- PP (match ?x with _ => _ end) => destruct x
  | |- PP (let _ := _ in _) => cbv zeta
  end.
Ltac pp := repeat pp_step.

Section PermSort.
Context {T : Type} (less : T -> T -> bool) (n : nat).

Lemma PP_insertionSort a b : PP (insertionSort less n a b).
Proof. unfold insertionSort. pp. Qed.
Lemma PP_heapSort a b : PP (heapSort less n a b).
Proof. unfold heapSort, siftDown. pp. Qed.
Lemma PP_breakPatterns a b : PP (breakPatterns (T:=T) n a b).
Proof. unfold breakPatterns. pp. Qed.
Lemma PP_choosePivot a b : PP (choosePivot less a b).
Proof. unfold choosePivot, medianAdjacent, median, order2. pp. Qed.
Lemma PP_reverseRange a b : PP (reverseRange (T:=T) n a b).
Proof. unfold reverseRange. pp. Qed.
Lemma PP_partialInsertionSort a b : PP (partialInsertionSort less n a b).
Proof. unfold partialInsertionSort, shift_left, shift_right. pp. Qed.
Lemma PP_partition a b p : PP (partition less n a b p).
Proof. unfold partition, scan_up, scan_down. pp. Qed.
Lemma PP_partitionEqual a b p : PP (partitionEqual less n a b p).
Proof. unfold partitionEqual. pp. Qed.

Lemma PP_pdqsort fuel a b limit wb wp : PP (pdqsort less n fuel a b limit wb wp).
Proof.
  revert a b limit wb wp. induction fuel as [|f IH]; intros a b limit wb wp; simpl.
  - apply PP_ret.
  - repeat first
      [ apply IH | apply PP_insertionSort | apply PP_heapSort | apply PP_breakPatterns
      | apply PP_choosePivot | apply PP_reverseRange | apply PP_partialInsertionSort
      | apply PP_partition | apply PP_partitionEqual | pp_step ].
Qed.
End PermSort.

Lemma Sort_perm {T} (less : T -> T -> bool) (l : list T) : Permutation l (Sort less l).
Proof.
  unfold Sort. destruct (length l <=? 1)%nat; [reflexivity|].
  apply PP_pdqsort.
Qed.

End GoSortFacts.

(** ** Facts on the shared pieces *)
Module CommonFacts.
Import Common.
Local Open Scope Z_scope.

Lemma SFeqb_refl_nonnan (x : float64) : Float64.is_nan x = false -> Float64.eq x x = true.
Proof.
  destruct x as [sx|sx| |sx mx ex]; simpl; try discriminate; intros _;
    unfold Float64.eq, SFeqb, SFcompare; try (destruct sx; reflexivity).
  destruct sx; rewrite Z.compare_refl, Pos.compare_cont_refl; reflexivity.
Qed.

Lemma quality_not_nan (x : specificity) : isSpecificityQuality x = true -> Float64.is_nan x.(q) = false.
Proof. unfold isSpecificityQuality, Float64.gt. destruct (q x); simpl; auto. Qed.

Lemma no_match_quality : isSpecificityQuality no_match = false.
Proof. reflexivity. Qed.

Lemma specificity_eqb_refl (x : specificity) :
  isSpecificityQuality x = true -> specificity_eqb x x = true.
Proof.
  intros H. unfold specificity_eqb.
  rewrite !Z.eqb_refl, SFeqb_refl_nonnan by (apply quality_not_nan; exact H). reflexivity.
Qed.

Lemma specificity_eqb_i (x y : specificity) : specificity_eqb x y = true -> x.(i) = y.(i).
Proof. unfold specificity_eqb. intros H. repeat (apply andb_prop in H as [H ?]). lia. Qed.

(** the priorities of the selectors: entry [k] is about candidate [k], or is
    the no-match value *)
Definition indexed (priorities : list specificity) : Prop :=
  forall k v, priorities !! k = Some v ->
    v.(i) = Z.of_nat k \/ (v.(i) = 0 /\ isSpecificityQuality v = false).

Lemma indexOf_from_indexed (ps : list specificity) (off : nat) (k : nat) (v : specificity) :
  (forall k' w, ps !! k' = Some w ->
     w.(i) = Z.of_nat (off + k') \/ (w.(i) = 0 /\ isSpecificityQuality w = false)) ->
  ps !! k = Some v -> isSpecificityQuality v = true -> v.(i) = Z.of_nat (off + k) ->
  (off + k > 0)%nat \/ k = 0%nat ->
  indexOf_from ps v (Z.of_nat off) = Z.of_nat (off + k).
Proof.
  revert off k. induction ps as [|w ps IH]; intros off k Hidx Hk Hq Hi Hpos; [discriminate|].
  simpl. destruct k as [|k].
  - simpl in Hk. injection Hk as ->. rewrite specificity_eqb_refl by exact Hq. f_equal; lia.
  - destruct (specificity_eqb w v) eqn:E.
    + exfalso. apply specificity_eqb_i in E.
      destruct (Hidx 0%nat w eq_refl) as [Hw|[Hw Hq']]; lia.
    + replace (Z.of_nat off + 1) with (Z.of_nat (S off)) by lia.
      replace (off + S k)%nat with (S off + k)%nat by lia.
      apply IH; auto.
      * intros k' w' Hk'. replace (S off + k')%nat with (off + S k')%nat by lia.
        apply Hidx. exact Hk'.
      * rewrite Hi. f_equal. lia.
      * lia.
Qed.

Lemma indexOf_indexed (ps : list specificity) (k : nat) (v : specificity) :
  indexed ps -> ps !! k = Some v -> isSpecificityQuality v = true ->
  indexOf ps v = Z.of_nat k.
Proof.
  intros Hidx Hk Hq. unfold indexOf.
  assert (Hi : v.(i) = Z.of_nat k).
  { destruct (Hidx k v Hk) as [H|[_ H]]; [exact H|congruence]. }
  pose proof (indexOf_from_indexed ps 0 k v) as H. simpl in H.
  apply H; auto. lia.
Qed.

Lemma filter_indexed_in (ps : list specificity) (v : specificity) :
  indexed ps -> In v (List.filter isSpecificityQuality ps) ->
  exists k, ps !! k = Some v /\ v.(i) = Z.of_nat k /\ isSpecificityQuality v = true.
Proof.
  intros Hidx Hin. apply filter_In in Hin as [Hin Hq].
  apply list_elem_of_In, list_elem_of_lookup in Hin as [k Hk].
  exists k. split; [exact Hk|]. split; [|exact Hq].
  destruct (Hidx k v Hk) as [H|[_ H]]; [exact H|congruence].
Qed.

Lemma filter_indexed_nodup_from (ps : list specificity) (off : nat) :
  (forall k w, ps !! k = Some w -> isSpecificityQuality w = true -> w.(i) = Z.of_nat (off + k)) ->
  NoDup (map (fun v => Z.to_nat v.(i)) (List.filter isSpecificityQuality ps)) /\
  Forall (fun n => (off <= n)%nat) (map (fun v => Z.to_nat v.(i)) (List.filter isSpecificityQuality ps)).
Proof.
  revert off. induction ps as [|w ps IH]; intros off H; simpl; [split; constructor|].
  assert (IH' := IH (S off)).
  destruct IH' as [Hnd Hge].
  { intros k w' Hk Hq. replace (S off + k)%nat with (off + S k)%nat by lia. apply H; auto. }
  destruct (isSpecificityQuality w) eqn:Hq; simpl.
  - assert (Hw : w.(i) = Z.of_nat off) by (rewrite (H 0%nat w eq_refl Hq); f_equal; lia).
    rewrite Hw, Nat2Z.id. split.
    + constructor; [|exact Hnd]. intros Hin.
      rewrite Forall_forall in Hge.
      apply Hge in Hin. lia.
    + constructor; [lia|]. rewrite Forall_forall in *. intros x Hx. specialize (Hge x Hx). lia.
  - split; [exact Hnd|]. rewrite Forall_forall in *. intros x Hx. specialize (Hge x Hx). lia.
Qed.

(** the closing loop of the candidate-mode selectors, on a permutation of the
    filtered priorities: each output is the candidate of a distinct index *)
Lemma results_indices (priorities sorted : list specificity) (provided : list string) (out : list string) :
  indexed priorities -> length priorities = length provided ->
  Permutation (List.filter isSpecificityQuality priorities) sorted ->
  results priorities sorted provided = Ok out ->
  exists idx, NoDup idx /\ Forall (fun k => (k < length provided)%nat) idx /\
              out = map (fun k => nth k provided "") idx.
Proof.
  intros Hidx Hlen Hperm Hres.
  assert (Hall : forall v, In v sorted -> exists k, priorities !! k = Some v /\
            v.(i) = Z.of_nat k /\ isSpecificityQuality v = true).
  { intros v Hv. apply filter_indexed_in; [exact Hidx|].
    eapply Permutation_in; [symmetry; exact Hperm|exact Hv]. }
  exists (map (fun v => Z.to_nat v.(i)) sorted). split; [|split].
  - rewrite <- (Permutation_map (fun v => Z.to_nat v.(i)) Hperm).
    apply (filter_indexed_nodup_from priorities 0).
    intros k w Hk Hq. destruct (Hidx k w Hk) as [H|[_ H]]; [exact H|congruence].
  - apply Forall_forall. intros n Hn. apply list_elem_of_In, in_map_iff in Hn as [v [<- Hv]].
    destruct (Hall v Hv) as [k [Hk [Hi _]]]. rewrite Hi, Nat2Z.id.
    rewrite <- Hlen. eapply lookup_lt_Some. exact Hk.
  - clear Hperm. revert out Hres. induction sorted as [|v sorted IH]; intros out Hres; simpl in *.
    + injection Hres as <-. reflexivity.
    + destruct (Hall v (or_introl eq_refl)) as [k [Hk [Hi Hq]]].
      rewrite (indexOf_indexed priorities k v Hidx Hk Hq) in Hres.
      assert (Hkl : (k < length provided)%nat) by (rewrite <- Hlen; eapply lookup_lt_Some; exact Hk).
      destruct (lookup_lt_is_Some_2 provided k Hkl) as [x Hx].
      assert (Hsg : slice_get provided (Z.of_nat k) = Ok x).
      { unfold slice_get. rewrite Nat2Z.id, Hx. destruct (Z.of_nat k <? 0) eqn:E; [lia|reflexivity]. }
      destruct (0 <=? Z.of_nat k) eqn:E0; [|lia].
      rewrite Hsg in Hres. simpl in Hres.
      destruct (results priorities sorted provided) as [r|] eqn:Er; [|discriminate].
      simpl in Hres. injection Hres as <-.
      rewrite Hi, Nat2Z.id. f_equal.
      * symmetry. apply nth_lookup_Some. exact Hx.
      * apply IH; auto.
Qed.

Lemma priority_fold_indexed {A} (f : A -> option specificity) (index : Z) (acs : list A)
    (pr0 : specificity) :
  (forall ac sp, f ac = Some sp -> sp.(i) = index) ->
  pr0.(i) = index \/ (pr0.(i) = 0 /\ isSpecificityQuality pr0 = false) ->
  let r := fold_left (fun pr ac => priority_step pr (f ac)) acs pr0 in
  r.(i) = index \/ (r.(i) = 0 /\ isSpecificityQuality r = false).
Proof.
  intros Hf. revert pr0. induction acs as [|ac acs IH]; intros pr0 H0; simpl; [exact H0|].
  apply IH. unfold priority_step. destruct (f ac) as [sp|] eqn:E; [|exact H0].
  destruct (_ || _ || _); [left; eapply Hf; eauto|exact H0].
Qed.

Lemma imap_from_lookup {A B} (g : A -> Z -> B) (l : list A) (off : Z) (k : nat) (v : B) :
  imap_from g l off !! k = Some v -> exists x, l !! k = Some x /\ v = g x (off + Z.of_nat k).
Proof.
  revert off k. induction l as [|x l IH]; intros off k Hk; [discriminate|].
  destruct k as [|k]; simpl in Hk.
  - injection Hk as <-. exists x. split; [reflexivity|]. f_equal. lia.
  - destruct (IH (off + 1) k Hk) as [y [Hy ->]]. exists y. split; [exact Hy|]. f_equal. lia.
Qed.

Lemma imap_from_length {A B} (g : A -> Z -> B) (l : list A) (off : Z) :
  length (imap_from g l off) = length l.
Proof. revert off. induction l; intros; simpl; auto. Qed.

Lemma imap_priorities_indexed {A} (f : string -> A -> Z -> option specificity)
    (acs : list A) (provided : list string) :
  (forall v ac index sp, f v ac index = Some sp -> sp.(i) = index) ->
  indexed (imap (fun v k => fold_left (fun pr ac => priority_step pr (f v ac k)) acs no_match)
                provided).
Proof.
  intros Hf k v Hk. apply imap_from_lookup in Hk as [x [_ ->]].
  replace (Z.of_nat k) with (0 + Z.of_nat k) by lia.
  apply priority_fold_indexed; [intros ac sp; apply Hf|]. right. split; reflexivity.
Qed.

End CommonFacts.

(** ** Facts on the selectors *)
Module SelectorFacts.
Import Common CommonFacts.

Lemma charsetSpecify_i v ac index sp : Charset.charsetSpecify v ac index = Some sp -> sp.(i) = index.
Proof.
  unfold Charset.charsetSpecify. intros H.
  repeat (destruct (String.eqb _ _) in H); simpl in H; try discriminate; injection H as <-; reflexivity.
Qed.

Lemma mediaTypeSpecify_i v ac index sp : MediaType.mediaTypeSpecify v ac index = Some sp -> sp.(i) = index.
Proof.
  unfold MediaType.mediaTypeSpecify. intros H.
  destruct (MediaType.parseMediaType v index) as [p|]; [|discriminate]. cbv zeta in H.
  repeat match type of H with
         | context [if ?b then _ else _] => destruct b
         end; simpl in H; try discriminate; injection H as <-; reflexivity.
Qed.

Lemma perm_filter_nil {E} (value : E -> string) (good : E -> bool) (acs : list E) (out : list string) :
  Permutation out (map value (List.filter good acs)) ->
  (out = [] <-> Forall (fun ac => good ac = false) acs).
Proof.
  intros Hp. split.
  - intros ->. apply Permutation_nil in Hp.
    apply map_eq_nil in Hp. rewrite Forall_forall. intros x Hx.
    destruct (good x) eqn:Hg; [|reflexivity]. exfalso.
    assert (Hin : In x (List.filter good acs)) by (apply filter_In; split; [apply list_elem_of_In; exact Hx|exact Hg]).
    rewrite Hp in Hin. exact Hin.
  - intros Hall. assert (Hf : List.filter good acs = []).
    { clear Hp. induction acs as [|a acs IH]; [reflexivity|].
      apply Forall_cons in Hall as [Ha Hall]. simpl. rewrite Ha. apply IH. exact Hall. }
    rewrite Hf in Hp. simpl in Hp. apply Permutation_sym, Permutation_nil in Hp. exact Hp.
Qed.

End SelectorFacts.

(** ** The loop of getXPriority keeps the last matching entry *)
Module PriorityFacts.
Import Common.
Local Open Scope Z_scope.

(** entry orders strictly above [lo], each below the largest Go [int] *)
Fixpoint increasing_from (lo : Z) (os : list Z) : bool :=
  match os with
  | [] => true
  | o :: rest => (lo <? o) && (o <? 2 ^ 63 - 1) && increasing_from o rest
  end.

(** the orders of a parsed header: strictly increasing and non-negative *)
Definition entry_orders (os : list Z) : Prop := increasing_from (-1) os = true.

(** the match of the last entry that matches, if any *)
Fixpoint last_match {A} (f : A -> option specificity) (acs : list A) : option specificity :=
  match acs with
  | [] => None
  | ac :: rest =>
      match last_match f rest with
      | Some sp => Some sp
      | None => f ac
      end
  end.

(** languageSpecify once the reparse of the candidate is known not to panic *)
Definition languageMatch (language : string) (index : Z) (ac : Language.acceptLanguage)
    : option specificity :=
  match Language.languageSpecify language ac index with
  | Ok r => r
  | Panic => None
  end.

Lemma wrap_small (z : Z) : - 2 ^ 63 <= z < 2 ^ 63 -> GoInt.wrap z = z.
Proof. intros H. unfold GoInt.wrap. rewrite Z.mod_small; lia. Qed.

Lemma increasing_from_weaken (lo lo' : Z) (os : list Z) :
  lo' <= lo -> increasing_from lo os = true -> increasing_from lo' os = true.
Proof.
  destruct os as [|o os]; simpl; [reflexivity|]. intros Hle H.
  apply andb_prop in H as [H H3]. apply andb_prop in H as [H1 H2].
  apply Z.ltb_lt in H1. rewrite H2, H3. replace (lo' <? o) with true by (symmetry; apply Z.ltb_lt; lia).
  reflexivity.
Qed.

Lemma priority_step_later (pr sp : specificity) :
  -1 <= pr.(o) < sp.(o) -> sp.(o) < 2 ^ 63 - 1 -> priority_step pr (Some sp) = sp.
Proof.
  intros H1 H2. unfold priority_step, GoInt.sub.
  rewrite (wrap_small (o pr - o sp)) by lia.
  replace (o pr - o sp <? 0) with true by (symmetry; apply Z.ltb_lt; lia).
  rewrite orb_true_r. reflexivity.
Qed.

Lemma priority_fold_last {A} (f : A -> option specificity) (ord : A -> Z)
    (acs : list A) (pr0 : specificity) :
  (forall ac sp, f ac = Some sp -> sp.(o) = ord ac) ->
  -1 <= pr0.(o) -> increasing_from pr0.(o) (map ord acs) = true ->
  fold_left (fun pr ac => priority_step pr (f ac)) acs pr0 =
  match last_match f acs with Some sp => sp | None => pr0 end.
Proof.
  intros Hf. revert pr0. induction acs as [|ac acs IH]; intros pr0 Hlo Hinc; [reflexivity|].
  simpl in Hinc |- *. apply andb_prop in Hinc as [H Hrest]. apply andb_prop in H as [H1 H2].
  apply Z.ltb_lt in H1. apply Z.ltb_lt in H2.
  destruct (f ac) as [sp|] eqn:Hac.
  - pose proof (Hf ac sp Hac) as Ho.
    rewrite priority_step_later by lia.
    rewrite IH; [destruct (last_match f acs); reflexivity|lia|rewrite Ho; exact Hrest].
  - simpl. rewrite IH; [|exact Hlo|].
    + destruct (last_match f acs); reflexivity.
    + apply (increasing_from_weaken (ord ac)); [lia|exact Hrest].
Qed.

Lemma charsetSpecify_o v ac index sp :
  Charset.charsetSpecify v ac index = Some sp -> sp.(o) = Charset.i ac.
Proof.
  unfold Charset.charsetSpecify. intros H.
  repeat (destruct (String.eqb _ _) in H); simpl in H; try discriminate; injection H as <-; reflexivity.
Qed.

Lemma mediaTypeSpecify_o v ac index sp :
  MediaType.mediaTypeSpecify v ac index = Some sp -> sp.(o) = MediaType.i ac.
Proof.
  unfold MediaType.mediaTypeSpecify. intros H.
  destruct (MediaType.parseMediaType v index) as [p|]; [|discriminate]. cbv zeta in H.
  repeat match type of H with
         | context [if ?b then _ else _] => destruct b
         end; simpl in H; try discriminate; injection H as <-; reflexivity.
Qed.

Lemma languageMatch_o v index ac sp :
  languageMatch v index ac = Some sp -> sp.(o) = Language.i ac.
Proof.
  unfold languageMatch, Language.languageSpecify. intros H.
  destruct (Language.parseLanguage v index) as [[p|]|]; simpl in H; try discriminate.
  repeat match type of H with
         | context [if ?b then _ else _] => destruct b
         end; simpl in H; try discriminate; injection H as <-; reflexivity.
Qed.

Lemma priority_loop_match v acs index pr0 :
  Language.parseLanguage v index <> Panic ->
  Language.priority_loop v acs index pr0 =
  Ok (fold_left (fun pr ac => priority_step pr (languageMatch v index ac)) acs pr0).
Proof.
  intros Hp. revert pr0. induction acs as [|ac acs IH]; intros pr0; [reflexivity|].
  simpl. destruct (Language.languageSpecify v ac index) as [r|] eqn:E.
  - simpl. replace (languageMatch v index ac) with r by (unfold languageMatch; rewrite E; reflexivity).
    apply IH.
  - exfalso. unfold Language.languageSpecify in E.
    destruct (Language.parseLanguage v index) as [[p|]|]; simpl in E; try discriminate.
    apply Hp. reflexivity.
Qed.

End PriorityFacts.

(** ** The identity entry of parseAcceptEncoding *)
Module EncodingFacts.
Import Common.
Local Open Scope Z_scope.

(** [encodingSpecify("identity", encoding, 0) != nil] *)
Definition identity_match (e : Encoding.acceptEncoding) : bool :=
  match Encoding.encodingSpecify "identity" e 0 with Some _ => true | None => false end.

(** the fold of [math.Min] over the qualities of the parsed entries *)
Definition min_quality (rs : list Encoding.acceptEncoding) (m0 : float64) : float64 :=
  fold_left (fun m e => Float64.math_Min m e.(Encoding.q)) rs m0.

Lemma parse_loop_spec accepts k results hasId minQ :
  Encoding.parse_loop accepts k results hasId minQ =
  (rs <- parse_all_from Encoding.parseEncoding accepts k ;;
   Ok (app results rs, hasId || existsb identity_match rs, min_quality rs minQ)).
Proof.
  revert k results hasId minQ.
  induction accepts as [|a accepts IH]; intros k results hasId minQ.
  - simpl. rewrite app_nil_r, orb_false_r. reflexivity.
  - simpl. destruct (Encoding.parseEncoding (GoStrings.Trim a) k) as [[e|]|]; simpl; [| |reflexivity].
    + rewrite IH. destruct (parse_all_from Encoding.parseEncoding accepts (k + 1)) as [rs|];
        simpl; [|reflexivity].
      rewrite <- app_assoc, orb_assoc. reflexivity.
    + rewrite IH. destruct (parse_all_from Encoding.parseEncoding accepts (k + 1)); reflexivity.
Qed.

End EncodingFacts.

(** ** Where the qualities of the parsed entries come from *)
Module QualityFacts.
Import Common.
Local Open Scope Z_scope.

(** a quality is the default 1 or the value of a [strconv.ParseFloat] *)
Definition quality_from_header (q : float64) : Prop :=
  q = Float64.one \/ exists v, Float64.ParseFloat v = Some q.

(** every element of a parsed list satisfies [P] (nothing is said of a panic) *)
Definition result_forall {A} (P : A -> Prop) (r : result (list A)) : Prop :=
  match r with
  | Ok l => Forall P l
  | Panic => True
  end.

Lemma scan_q_source params q0 r :
  scan_q params q0 = Ok (Some r) -> r = q0 \/ exists v, Float64.ParseFloat v = Some r.
Proof.
  induction params as [|param params IH]; simpl; intros H.
  - injection H as <-. left. reflexivity.
  - destruct (slice_get _ 0) as [p0|]; simpl in H; [|discriminate].
    destruct (String.eqb p0 "q").
    + destruct (slice_get _ 1) as [p1|]; simpl in H; [|discriminate].
      destruct (Float64.ParseFloat p1) as [q1|] eqn:E; [|discriminate].
      injection H as <-. right. exists p1. exact E.
    + exact (IH H).
Qed.

Lemma parse_all_from_forall {A} (parse : string -> Z -> result (option A)) (P : A -> Prop)
    (accepts : list string) (k : Z) :
  (forall s k x, parse s k = Ok (Some x) -> P x) ->
  result_forall P (parse_all_from parse accepts k).
Proof.
  intros Hp. revert k. induction accepts as [|a accepts IH]; intros k; simpl; [constructor|].
  destruct (parse (GoStrings.Trim a) k) as [x|] eqn:E; simpl; [|exact I].
  specialize (IH (k + 1)). destruct (parse_all_from parse accepts (k + 1)); simpl; [|exact I].
  destruct x as [y|]; [constructor; [exact (Hp _ _ _ E)|]|]; exact IH.
Qed.

Ltac scan_q_case H :=
  repeat match type of H with
         | context [if ?b then _ else _] => destruct b
         | context [rbind (scan_q ?ps ?q0) _] =>
             let E := fresh "E" in destruct (scan_q ps q0) as [[?|]|] eqn:E
         | context [match Regexp.FindStringMatch ?r ?s with _ => _ end] =>
             destruct (Regexp.FindStringMatch r s)
         end; simpl in H; try discriminate; injection H as <-; simpl;
  try (left; reflexivity);
  match goal with E : scan_q _ _ = Ok (Some _) |- _ => exact (scan_q_source _ _ _ E) end.

Lemma parseCharset_quality s k ac :
  Charset.parseCharset s k = Ok (Some ac) -> quality_from_header ac.(Charset.q).
Proof. unfold Charset.parseCharset. intros H. scan_q_case H. Qed.

Lemma parseEncoding_quality s k ac :
  Encoding.parseEncoding s k = Ok (Some ac) -> quality_from_header ac.(Encoding.q).
Proof. unfold Encoding.parseEncoding. intros H. scan_q_case H. Qed.

Lemma parseLanguage_quality s k ac :
  Language.parseLanguage s k = Ok (Some ac) -> quality_from_header ac.(Language.q).
Proof. unfold Language.parseLanguage. intros H. cbv zeta in H. scan_q_case H. Qed.

Lemma math_Min_choice (x y : float64) : Float64.math_Min x y = x \/ Float64.math_Min x y = y.
Proof.
  unfold Float64.math_Min.
  destruct (Float64.is_neg_inf x) eqn:Ex.
  { left. destruct x as [sx|[|]| |sx mx ex]; try (cbn in Ex; discriminate); reflexivity. }
  destruct (Float64.is_neg_inf y) eqn:Ey.
  { right. destruct y as [sy|[|]| |sy my ey]; try (cbn in Ey; discriminate); reflexivity. }
  simpl. destruct (Float64.is_nan x) eqn:Nx.
  { left. destruct x; try (cbn in Nx; discriminate); reflexivity. }
  destruct (Float64.is_nan y) eqn:Ny; simpl.
  { right. destruct y; try (cbn in Ny; discriminate); reflexivity. }
  destruct (_ && _); [destruct (Float64.signbit x)|destruct (Float64.lt x y)]; auto.
Qed.

Lemma min_quality_choice (rs : list Encoding.acceptEncoding) (m0 : float64) :
  EncodingFacts.min_quality rs m0 = m0 \/
  exists e, In e rs /\ EncodingFacts.min_quality rs m0 = e.(Encoding.q).
Proof.
  unfold EncodingFacts.min_quality. revert m0.
  induction rs as [|e rs IH]; intros m0; simpl; [left; reflexivity|].
  destruct (IH (Float64.math_Min m0 (Encoding.q e))) as [H|[e' [Hin H]]]; rewrite H.
  - destruct (math_Min_choice m0 (Encoding.q e)) as [H'|H']; rewrite H'; [left; reflexivity|].
    right. exists e. split; [left; reflexivity|reflexivity].
  - right. exists e'. split; [right; exact Hin|reflexivity].
Qed.

Lemma parseAcceptEncoding_quality (accept : string) :
  result_forall (fun ac => quality_from_header ac.(Encoding.q)) (Encoding.parseAcceptEncoding accept).
Proof.
  unfold Encoding.parseAcceptEncoding. rewrite EncodingFacts.parse_loop_spec.
  pose proof (parse_all_from_forall Encoding.parseEncoding (fun ac => quality_from_header ac.(Encoding.q))
                (GoStrings.split "," accept) 0 parseEncoding_quality) as H.
  destruct (parse_all_from Encoding.parseEncoding (GoStrings.split "," accept) 0) as [rs|];
    simpl in H |- *; [|exact I].
  destruct (negb _); [|exact H].
  apply Forall_app. split; [exact H|]. constructor; [|constructor]. simpl.
  destruct (min_quality_choice rs Float64.one) as [E|[e [Hin E]]]; rewrite E; [left; reflexivity|].
  rewrite Forall_forall in H. apply H. apply list_elem_of_In. exact Hin.
Qed.

Lemma params_loop_quality arr ps q0 ps' r :
  MediaType.params_loop arr ps q0 = Some (ps', r) -> r = q0 \/ exists v, Float64.ParseFloat v = Some r.
Proof.
  revert ps. induction arr as [|[k v] arr IH]; intros ps; simpl; intros H.
  - injection H as _ <-. left. reflexivity.
  - destruct (String.eqb _ "q"); [|exact (IH _ H)].
    destruct (Float64.ParseFloat _) as [q1|] eqn:E; [|discriminate].
    injection H as _ <-. right. eexists. exact E.
Qed.

Lemma parseMediaType_quality s k mt :
  MediaType.parseMediaType s k = Some mt -> quality_from_header mt.(MediaType.q).
Proof.
  unfold MediaType.parseMediaType. intros H.
  destruct (Regexp.FindStringMatch _ _) as [m|]; [|discriminate]. cbv zeta in H.
  destruct (String.eqb _ ""); [injection H as <-; left; reflexivity|].
  destruct (MediaType.params_loop _ _ _) as [[ps r]|] eqn:E; [|discriminate].
  injection H as <-. exact (params_loop_quality _ _ _ _ _ E).
Qed.

Lemma media_parse_all_quality accepts k :
  Forall (fun mt => quality_from_header mt.(MediaType.q)) (MediaType.parse_all_from accepts k).
Proof.
  revert k. induction accepts as [|a accepts IH]; intros k; simpl; [constructor|].
  destruct (MediaType.parseMediaType (GoStrings.Trim a) k) as [mt|] eqn:E; [|apply IH].
  constructor; [exact (parseMediaType_quality _ _ _ E)|apply IH].
Qed.

End QualityFacts.

(** ** The parameters of a media range *)
Module ParamFacts.
Import MediaType.
Local Open Scope Z_scope.

(** the pairs the loop of parseMediaType stores: each key lowercased and each
    value unquoted, up to the first key [q] *)
Fixpoint before_q (arr : list (string * string)) : list (string * string) :=
  match arr with
  | [] => []
  | (k, v) :: rest =>
      if String.eqb (GoStrings.ToLower k) "q" then []
      else (GoStrings.ToLower k, unquote v) :: before_q rest
  end.

(** the value of the last pair with key [key] *)
Fixpoint last_value (key : string) (kvs : list (string * string)) : option string :=
  match kvs with
  | [] => None
  | (k, v) :: rest =>
      match last_value key rest with
      | Some x => Some x
      | None => if String.eqb k key then Some v else None
      end
  end.

(** the parameter group of a segment (group 3 of the pattern) *)
Definition param_group (s : string) : string :=
  match Regexp.FindStringMatch Regexp.simpleMediaTypeRegExp s with
  | Some m => Regexp.group m 3
  | None => ""
  end.

(** the key/value pairs of a parameter group, none when the group is empty *)
Definition param_pairs (g : string) : list (string * string) :=
  if String.eqb g "" then [] else map splitKeyValuePair (splitParameters g).

Lemma params_loop_before_q arr ps q0 ps' r :
  params_loop arr ps q0 = Some (ps', r) ->
  forall key, ps' !! key = match last_value key (before_q arr) with Some v => Some v | None => ps !! key end.
Proof.
  revert ps. induction arr as [|[k v] arr IH]; intros ps H key; simpl in H |- *.
  - injection H as <- _. reflexivity.
  - destruct (String.eqb (GoStrings.ToLower k) "q").
    + destruct (Float64.ParseFloat _); [|discriminate]. injection H as <- _. reflexivity.
    + simpl. rewrite (IH _ H key). destruct (last_value key (before_q arr)); [reflexivity|].
      destruct (String.eqb_spec (GoStrings.ToLower k) key) as [<-|Hne].
      * apply lookup_insert_eq.
      * apply lookup_insert_ne. exact Hne.
Qed.

Lemma parseMediaType_params s k mt :
  parseMediaType s k = Some mt ->
  forall key, mt.(params) !! key = last_value key (before_q (param_pairs (param_group s))).
Proof.
  unfold parseMediaType, param_group, param_pairs. intros H key.
  destruct (Regexp.FindStringMatch _ _) as [m|]; [|discriminate]. cbv zeta in H.
  destruct (String.eqb (Regexp.group m 3) ""); [injection H as <-; reflexivity|].
  destruct (params_loop _ _ _) as [[ps r]|] eqn:E; [|discriminate].
  injection H as <-. simpl. rewrite (params_loop_before_q _ _ _ _ _ E key).
  destruct (last_value _ _); reflexivity.
Qed.

Lemma substring_prefix (a b : string) : substring 0 (String.length a) (a ++ b) = a.
Proof. induction a as [|c a IH]; simpl; [destruct b; reflexivity|rewrite IH; reflexivity]. Qed.

Lemma string_length_app (a b : string) : String.length (a ++ b) = (String.length a + String.length b)%nat.
Proof. induction a as [|c a IH]; simpl; [reflexivity|rewrite IH; reflexivity]. Qed.

Lemma unquote_quoted (mid : string) :
  unquote (String dquote (mid ++ String dquote EmptyString)) = mid.
Proof.
  unfold unquote, byte_is, GoStrings.byte_at, GoStrings.slice.
  replace (String.length (String dquote (mid ++ String dquote EmptyString)))
    with (S (S (String.length mid))) by (simpl; rewrite string_length_app; simpl; lia).
  replace (Z.to_nat (Z.of_nat (S (S (String.length mid))) - 1)) with (S (String.length mid)) by lia.
  simpl String.get at 2.
  replace (String.length mid) with (0 + String.length mid)%nat at 1 by reflexivity.
  rewrite <- append_correct2. simpl.
  replace (Z.max (Z.of_nat (S (S (String.length mid))) - 1) 1 - 1) with (Z.of_nat (String.length mid)) by lia.
  rewrite Nat2Z.id. simpl. apply substring_prefix.
Qed.

Lemma unquote_unquoted (v : string) :
  byte_is v 0 dquote = false \/ byte_is v (Z.of_nat (String.length v) - 1) dquote = false ->
  unquote v = v.
Proof.
  unfold unquote. intros [H|H]; rewrite H; [rewrite andb_false_r|rewrite andb_false_r]; reflexivity.
Qed.

End ParamFacts.

(** ** Wildcards and the language matcher *)
Module MatchFacts.
Import Common.
Local Open Scope Z_scope.

(** the bits the language matcher gives an entry against a parsed candidate *)
Definition language_bits (ac p : Language.acceptLanguage) : option Z :=
  let lower := GoStrings.ToLower in
  if String.eqb (lower ac.(Language.full)) (lower p.(Language.full)) then Some 4
  else if String.eqb (lower ac.(Language.prefix)) (lower p.(Language.full)) then Some 2
  else if String.eqb (lower ac.(Language.full)) (lower p.(Language.prefix)) then Some 1
  else if String.eqb ac.(Language.full) "*" then Some 0
  else None.

Lemma ToLower_star (x : string) : String.eqb (GoStrings.ToLower x) "*" = String.eqb x "*".
Proof.
  destruct x as [|c [|c' x]].
  - reflexivity.
  - destruct c as [[] [] [] [] [] [] [] []]; reflexivity.
  - simpl. destruct (Ascii.eqb _ _), (Ascii.eqb _ _); reflexivity.
Qed.

Lemma ToLower_star_l (x : string) : String.eqb "*" (GoStrings.ToLower x) = String.eqb "*" x.
Proof. rewrite (String.eqb_sym "*"), (String.eqb_sym "*"). apply ToLower_star. Qed.

End MatchFacts.

(** ** Where a parsed quality comes from *)
Module QualitySourceFacts.
Import Common EncodingFacts.
Local Open Scope Z_scope.

(** [strings.Split(strings.Trim(param, " "), "=")[0] != "q"] *)
Definition not_q_param (param : string) : Prop :=
  hd "" (GoStrings.split "=" (GoStrings.Trim param)) <> "q".

(** the quality that the parameters [params] of a segment give: 1 when none
    of them is named q; otherwise strconv.ParseFloat of [p[1]] for the first
    parameter [p] named q *)
Definition params_quality (params : list string) (q : float64) : Prop :=
  (Forall not_q_param params /\ q = Float64.one) \/
  exists pre p post v rest,
    params = app pre (p :: post) /\ Forall not_q_param pre /\
    GoStrings.split "=" (GoStrings.Trim p) = "q" :: v :: rest /\
    Float64.ParseFloat v = Some q.

(** the quality of an entry parsed from the trimmed segment [s]: the
    parameter group [g] of the pattern [r], cut at [;], gives it *)
Definition segment_quality (r : Regexp.rx) (g : nat) (s : string) (q : float64) : Prop :=
  exists m, Regexp.FindStringMatch r s = Some m /\
    params_quality (GoStrings.split ";" (Regexp.group m g)) q.

(** the same for a media range, whose parameters are the pairs of
    splitKeyValuePair: 1 when no key lowercases to q; otherwise
    strconv.ParseFloat of the unquoted value of the first such pair *)
Definition media_params_quality (arr : list (string * string)) (q : float64) : Prop :=
  (Forall (fun kv => GoStrings.ToLower (fst kv) <> "q") arr /\ q = Float64.one) \/
  exists pre k v post,
    arr = app pre ((k, v) :: post) /\ Forall (fun kv => GoStrings.ToLower (fst kv) <> "q") pre /\
    GoStrings.ToLower k = "q" /\ Float64.ParseFloat (MediaType.unquote v) = Some q.

Definition media_segment_quality (s : string) (q : float64) : Prop :=
  exists m, Regexp.FindStringMatch Regexp.simpleMediaTypeRegExp s = Some m /\
    media_params_quality (map MediaType.splitKeyValuePair (MediaType.splitParameters (Regexp.group m 3))) q.

(** [x] was parsed from the segment at its order [idx x] of [accepts], and
    [P] holds of that segment (trimmed) and [x] *)
Definition from_segment {A} (accepts : list string) (idx : A -> Z) (P : string -> A -> Prop) (x : A) : Prop :=
  0 <= idx x /\
  exists seg, nth_error accepts (Z.to_nat (idx x)) = Some seg /\ P (GoStrings.Trim seg) x.

Lemma scan_q_quality (ps : list string) (q0 q : float64) :
  scan_q ps q0 = Ok (Some q) ->
  (Forall not_q_param ps /\ q = q0) \/
  exists pre p post v rest,
    ps = app pre (p :: post) /\ Forall not_q_param pre /\
    GoStrings.split "=" (GoStrings.Trim p) = "q" :: v :: rest /\
    Float64.ParseFloat v = Some q.
Proof.
  induction ps as [|param ps IH]; simpl; intros H.
  - injection H as <-. left. split; [constructor|reflexivity].
  - destruct (GoStrings.split "=" (GoStrings.Trim param)) as [|p0 ps'] eqn:Es;
      [discriminate|].
    change (slice_get (p0 :: ps') 0) with (Ok (A := string) p0) in H. simpl in H.
    destruct (String.eqb p0 "q") eqn:Eq.
    + apply String.eqb_eq in Eq. subst p0.
      destruct ps' as [|v rest]; [discriminate|].
      change (slice_get ("q" :: v :: rest) 1) with (Ok (A := string) v) in H. simpl in H.
      destruct (Float64.ParseFloat v) as [q1|] eqn:Ev; [|discriminate].
      injection H as <-. right. exists [], param, ps, v, rest.
      split; [reflexivity|]. split; [constructor|]. split; [exact Es|exact Ev].
    + apply String.eqb_neq in Eq.
      assert (Hn : not_q_param param) by (unfold not_q_param; rewrite Es; exact Eq).
      destruct (IH H) as [[HF ->]|[pre [p [post [v [rest [-> [HF Hp]]]]]]]].
      * left. split; [constructor; [exact Hn|exact HF]|reflexivity].
      * right. exists (param :: pre), p, post, v, rest. split; [reflexivity|].
        split; [constructor; [exact Hn|exact HF]|exact Hp].
Qed.

Lemma params_quality_empty : params_quality (GoStrings.split ";" "") Float64.one.
Proof.
  left. split; [|reflexivity]. constructor; [|constructor].
  unfold not_q_param. vm_compute. intros H. discriminate H.
Qed.

Lemma params_loop_q_source (arr : list (string * string)) (ps ps' : gmap string string)
    (q0 q : float64) :
  MediaType.params_loop arr ps q0 = Some (ps', q) ->
  (Forall (fun kv => GoStrings.ToLower (fst kv) <> "q") arr /\ q = q0) \/
  exists pre k v post,
    arr = app pre ((k, v) :: post) /\ Forall (fun kv => GoStrings.ToLower (fst kv) <> "q") pre /\
    GoStrings.ToLower k = "q" /\ Float64.ParseFloat (MediaType.unquote v) = Some q.
Proof.
  revert ps. induction arr as [|[k v] arr IH]; simpl; intros ps H.
  - injection H as _ <-. left. split; [constructor|reflexivity].
  - destruct (String.eqb (GoStrings.ToLower k) "q") eqn:Eq.
    + apply String.eqb_eq in Eq.
      destruct (Float64.ParseFloat (MediaType.unquote v)) as [q1|] eqn:Ev; [|discriminate].
      injection H as _ <-. right. exists [], k, v, arr.
      split; [reflexivity|]. split; [constructor|]. split; [exact Eq|exact Ev].
    + apply String.eqb_neq in Eq.
      destruct (IH _ H) as [[HF ->]|[pre [k' [v' [post [-> [HF Hp]]]]]]].
      * left. split; [constructor; [exact Eq|exact HF]|reflexivity].
      * right. exists ((k, v) :: pre), k', v', post. split; [reflexivity|].
        split; [constructor; [exact Eq|exact HF]|exact Hp].
Qed.

Lemma media_params_quality_empty :
  media_params_quality (map MediaType.splitKeyValuePair (MediaType.splitParameters "")) Float64.one.
Proof.
  left. split; [|reflexivity]. apply Forall_forall. intros x Hx.
  vm_compute in Hx. apply list_elem_of_singleton in Hx. subst x. vm_compute. intros H. discriminate H.
Qed.

Lemma parseCharset_segment (s : string) (k : Z) (ac : Charset.acceptCharset) :
  Charset.parseCharset s k = Ok (Some ac) ->
  ac.(Charset.i) = k /\ segment_quality Regexp.simpleCharsetRegExp 2 s ac.(Charset.q).
Proof.
  unfold Charset.parseCharset.
  destruct (Regexp.FindStringMatch Regexp.simpleCharsetRegExp s) as [m|] eqn:Em; [|discriminate].
  destruct (String.eqb (Regexp.group m 2) "") eqn:Eg.
  - intros H. injection H as <-. split; [reflexivity|]. exists m. split; [exact Em|].
    apply String.eqb_eq in Eg. rewrite Eg. exact params_quality_empty.
  - destruct (scan_q _ _) as [[q|]|] eqn:Es; simpl; intros H; try discriminate.
    injection H as <-. split; [reflexivity|]. exists m. split; [exact Em|].
    exact (scan_q_quality _ _ _ Es).
Qed.

Lemma parseEncoding_segment (s : string) (k : Z) (ac : Encoding.acceptEncoding) :
  Encoding.parseEncoding s k = Ok (Some ac) ->
  ac.(Encoding.i) = k /\ segment_quality Regexp.simpleEncodingRegExp 2 s ac.(Encoding.q).
Proof.
  unfold Encoding.parseEncoding.
  destruct (Regexp.FindStringMatch Regexp.simpleEncodingRegExp s) as [m|] eqn:Em; [|discriminate].
  destruct (String.eqb (Regexp.group m 2) "") eqn:Eg.
  - intros H. injection H as <-. split; [reflexivity|]. exists m. split; [exact Em|].
    apply String.eqb_eq in Eg. rewrite Eg. exact params_quality_empty.
  - destruct (scan_q _ _) as [[q|]|] eqn:Es; simpl; intros H; try discriminate.
    injection H as <-. split; [reflexivity|]. exists m. split; [exact Em|].
    exact (scan_q_quality _ _ _ Es).
Qed.

Lemma parseLanguage_segment (s : string) (k : Z) (ac : Language.acceptLanguage) :
  Language.parseLanguage s k = Ok (Some ac) ->
  ac.(Language.i) = k /\ segment_quality Regexp.simpleLanguageRegExp 3 s ac.(Language.q).
Proof.
  unfold Language.parseLanguage. cbv zeta.
  destruct (Regexp.FindStringMatch Regexp.simpleLanguageRegExp s) as [m|] eqn:Em; [|discriminate].
  destruct (String.eqb (Regexp.group m 3) "") eqn:Eg.
  - intros H. injection H as <-. split; [reflexivity|]. exists m. split; [exact Em|].
    apply String.eqb_eq in Eg. rewrite Eg. exact params_quality_empty.
  - destruct (scan_q _ _) as [[q|]|] eqn:Es; simpl; intros H; try discriminate.
    injection H as <-. split; [reflexivity|]. exists m. split; [exact Em|].
    exact (scan_q_quality _ _ _ Es).
Qed.

Lemma parseMediaType_segment (s : string) (k : Z) (ac : MediaType.acceptMediaType) :
  MediaType.parseMediaType s k = Some ac ->
  ac.(MediaType.i) = k /\ media_segment_quality s ac.(MediaType.q).
Proof.
  unfold MediaType.parseMediaType.
  destruct (Regexp.FindStringMatch Regexp.simpleMediaTypeRegExp s) as [m|] eqn:Em; [|discriminate].
  destruct (String.eqb (Regexp.group m 3) "") eqn:Eg.
  - intros H. injection H as <-. split; [reflexivity|]. exists m. split; [exact Em|].
    apply String.eqb_eq in Eg. rewrite Eg. exact media_params_quality_empty.
  - destruct (MediaType.params_loop _ _ _) as [[ps q]|] eqn:Ep; [|discriminate].
    intros H. injection H as <-. split; [reflexivity|]. exists m. split; [exact Em|].
    exact (params_loop_q_source _ _ _ _ _ Ep).
Qed.

Lemma nth_error_shift {A} (a : A) (l : list A) (n : Z) :
  1 <= n -> nth_error (a :: l) (Z.to_nat n) = nth_error l (Z.to_nat (n - 1)).
Proof.
  intros Hn. replace (Z.to_nat n) with (S (Z.to_nat (n - 1))) by lia. reflexivity.
Qed.

Lemma parse_all_from_segments {A} (parse : string -> Z -> result (option A)) (idx : A -> Z)
    (P : string -> A -> Prop) (accepts : list string) (k : Z) (l : list A) :
  (forall s k x, parse s k = Ok (Some x) -> idx x = k /\ P s x) ->
  parse_all_from parse accepts k = Ok l ->
  Forall (fun x => k <= idx x /\
    exists seg, nth_error accepts (Z.to_nat (idx x - k)) = Some seg /\ P (GoStrings.Trim seg) x) l.
Proof.
  intros Hp. revert k l. induction accepts as [|a accepts IH]; intros k l; simpl.
  - intros H. injection H as <-. constructor.
  - destruct (parse (GoStrings.Trim a) k) as [x|] eqn:E; simpl; [|discriminate].
    destruct (parse_all_from parse accepts (k + 1)) as [r|] eqn:Er; simpl; [|discriminate].
    intros H. injection H as <-.
    assert (Hr : Forall (fun y => k <= idx y /\
      exists seg, nth_error (a :: accepts) (Z.to_nat (idx y - k)) = Some seg /\
                  P (GoStrings.Trim seg) y) r).
    { eapply Forall_impl; [exact (IH (k + 1) r Er)|]. intros y [Hy [seg [Hs HP]]].
      split; [lia|]. exists seg. split; [|exact HP].
      rewrite nth_error_shift by lia. replace (idx y - k - 1) with (idx y - (k + 1)) by lia. exact Hs. }
    destruct x as [y|]; [|exact Hr].
    destruct (Hp _ _ _ E) as [Hi HP]. constructor; [|exact Hr].
    split; [lia|]. exists a. split; [|exact HP]. rewrite Hi, Z.sub_diag. reflexivity.
Qed.

Lemma parse_all_segments {A} (parse : string -> Z -> result (option A)) (idx : A -> Z)
    (P : string -> A -> Prop) (accepts : list string) (l : list A) :
  (forall s k x, parse s k = Ok (Some x) -> idx x = k /\ P s x) ->
  parse_all_from parse accepts 0 = Ok l ->
  Forall (from_segment accepts idx P) l.
Proof.
  intros Hp H. eapply Forall_impl; [exact (parse_all_from_segments parse idx P accepts 0 l Hp H)|].
  intros x [Hx [seg [Hs HP]]]. split; [exact Hx|]. exists seg. rewrite Z.sub_0_r in Hs. split; assumption.
Qed.

Lemma media_parse_all_segments (accepts : list string) (k : Z) :
  Forall (fun ac => k <= ac.(MediaType.i) /\
    exists seg, nth_error accepts (Z.to_nat (ac.(MediaType.i) - k)) = Some seg /\
                media_segment_quality (GoStrings.Trim seg) ac.(MediaType.q))
    (MediaType.parse_all_from accepts k).
Proof.
  revert k. induction accepts as [|a accepts IH]; intros k; simpl; [constructor|].
  assert (Hr : Forall (fun ac => k <= ac.(MediaType.i) /\
      exists seg, nth_error (a :: accepts) (Z.to_nat (ac.(MediaType.i) - k)) = Some seg /\
                  media_segment_quality (GoStrings.Trim seg) ac.(MediaType.q))
      (MediaType.parse_all_from accepts (k + 1))).
  { eapply Forall_impl; [exact (IH (k + 1))|]. intros y [Hy [seg [Hs HP]]].
    split; [lia|]. exists seg. split; [|exact HP].
    rewrite nth_error_shift by lia. replace (MediaType.i y - k - 1) with (MediaType.i y - (k + 1)) by lia.
    exact Hs. }
  destruct (MediaType.parseMediaType (GoStrings.Trim a) k) as [y|] eqn:E; [|exact Hr].
  destruct (parseMediaType_segment _ _ _ E) as [Hi HP]. constructor; [|exact Hr].
  split; [lia|]. exists a. split; [|exact HP]. rewrite Hi, Z.sub_diag. reflexivity.
Qed.

End QualitySourceFacts.

(** ** The claims *)
Module Claims.
Import Common CommonFacts SelectorFacts PriorityFacts EncodingFacts QualityFacts ParamFacts MatchFacts
  QualitySourceFacts.

(** the outcome of a selector called without candidates, next to the parse of
    its header: both panic, or the output is a permutation of the values of the
    parsed entries of positive quality, empty exactly when there is none *)
Definition no_candidate_outcome {E} (value : E -> string) (good : E -> bool)
    (parsed : result (list E)) (res : result (list string)) : Prop :=
  match parsed, res with
  | Ok acs, Ok out =>
      Permutation out (map value (List.filter good acs)) /\
      (out = [] <-> Forall (fun ac => good ac = false) acs)
  | Panic, Panic => True
  | _, _ => False
  end.

Lemma no_candidate_outcome_sort {E} (value : E -> string) (good : E -> bool) (less : E -> E -> bool)
    (parsed : result (list E)) :
  no_candidate_outcome value good parsed
    (acs <- parsed ;; Ok (map value (GoSort.Sort less (List.filter good acs)))).
Proof.
  destruct parsed as [acs|]; simpl; [|exact I].
  assert (Hp : Permutation (map value (GoSort.Sort less (List.filter good acs)))
                           (map value (List.filter good acs))).
  { apply Permutation_map. symmetry. apply GoSortFacts.Sort_perm. }
  split; [exact Hp|]. exact (perm_filter_nil value good acs _ Hp).
Qed.

(** C7 (amended). With a non-empty candidate list, the output of
    PreferredCharsets and of PreferredMediaTypes is the list of candidates at
    pairwise distinct positions of the candidate list: every output string is a
    candidate, and a string occurs in the output at most as often as it occurs
    among the candidates. *)
Theorem candidate_outputs_distinct_positions (accept : string) (provided out : list string) :
  provided <> [] ->
  Charset.PreferredCharsets accept provided = Ok out \/
  MediaType.PreferredMediaTypes accept provided = Ok out ->
  exists idx, NoDup idx /\ Forall (fun k => (k < length provided)%nat) idx /\
              out = map (fun k => nth k provided "") idx.
Proof.
  intros Hne [H|H].
  - unfold Charset.PreferredCharsets in H.
    destruct (Charset.parseAcceptCharset accept) as [acs|]; simpl in H; [|discriminate].
    destruct provided as [|p ps]; [congruence|].
    eapply results_indices; [| |apply GoSortFacts.Sort_perm|exact H].
    + apply (imap_priorities_indexed (fun v ac k => Charset.charsetSpecify v ac k)).
      apply charsetSpecify_i.
    + apply imap_from_length.
  - unfold MediaType.PreferredMediaTypes in H.
    destruct provided as [|p ps]; [congruence|].
    eapply results_indices; [| |apply GoSortFacts.Sort_perm|exact H].
    + apply (imap_priorities_indexed (fun v ac k => MediaType.mediaTypeSpecify v ac k)).
      apply mediaTypeSpecify_i.
    + apply imap_from_length.
Qed.

(** C9 (amended). Called with zero candidates, each selector takes its
    no-candidate branch: it panics exactly when parsing its header panics, and
    otherwise returns a permutation of the values of the parsed entries with
    quality > 0; the result is empty exactly when no parsed entry has quality
    > 0, which a non-empty header can give. *)
Theorem zero_candidates_outcome (accept : string) :
  no_candidate_outcome Charset.charset Charset.isAcceptCharsetQuality
    (Charset.parseAcceptCharset accept) (Charset.PreferredCharsets accept []) /\
  no_candidate_outcome Encoding.encoding Encoding.isAcceptEncodingQuality
    (Encoding.parseAcceptEncoding accept) (Encoding.PreferredEncodings accept []) /\
  no_candidate_outcome Language.full Language.isAcceptLanguageQuality
    (Language.parseAcceptLanguage accept) (Language.PreferredLanguages accept []) /\
  no_candidate_outcome (fun ac => MediaType.mainType ac ++ "/" ++ MediaType.subtype ac)
    MediaType.isAcceptMediaTypeQuality
    (Ok (MediaType.parseAcceptMediaType accept)) (MediaType.PreferredMediaTypes accept []).
Proof.
  split; [|split; [|split]].
  - exact (no_candidate_outcome_sort _ _ Charset.acceptCharsetLess _).
  - exact (no_candidate_outcome_sort _ _ Encoding.acceptEncodingLess _).
  - exact (no_candidate_outcome_sort _ _ Language.acceptLanguageLess _).
  - exact (no_candidate_outcome_sort _ _ MediaType.acceptMediaTypeLess (Ok _)).
Qed.

Lemma candidate_outputs_distinct_positions_witness :
  ["utf-8"; "iso-8859-1"; "utf-8"] <> [] /\
  Charset.PreferredCharsets "utf-8, iso-8859-1;q=0.5" ["utf-8"; "iso-8859-1"; "utf-8"]
    = Ok ["utf-8"; "utf-8"; "iso-8859-1"] /\
  exists idx, NoDup idx /\ Forall (fun k => (k < length ["utf-8"; "iso-8859-1"; "utf-8"])%nat) idx /\
              ["utf-8"; "utf-8"; "iso-8859-1"] = map (fun k => nth k ["utf-8"; "iso-8859-1"; "utf-8"] "") idx.
Proof.
  split; [discriminate|]. split; [vm_compute; reflexivity|].
  apply (candidate_outputs_distinct_positions "utf-8, iso-8859-1;q=0.5"
           ["utf-8"; "iso-8859-1"; "utf-8"] ["utf-8"; "utf-8"; "iso-8859-1"]); [discriminate|].
  left. vm_compute. reflexivity.
Defined.

(** C7 counterexample: a candidate listed twice is output twice. *)
Lemma duplicate_candidate_output :
  Charset.PreferredCharsets "utf-8" ["utf-8"; "utf-8"] = Ok ["utf-8"; "utf-8"].
Proof. vm_compute. reflexivity. Qed.

(** C9 counterexample: a non-empty header whose only entry has quality 0
    gives an empty result. *)
Lemma zero_quality_header_empty : Charset.PreferredCharsets "utf-8;q=0" [] = Ok [].
Proof. vm_compute. reflexivity. Qed.

(** the float64 values 0.5 and 2 *)
Definition half : float64 := S754_finite false 4503599627370496 (-53).
Definition two : float64 := S754_finite false 4503599627370496 (-51).

(** C1 (code bug). In candidate mode the inline comparator of PreferredCharsets
    and PreferredMediaTypes does not order by quality first: the candidate
    utf-8 resolves to quality 1 and iso-8859-1 to quality 0.5, yet iso-8859-1
    is output first, and likewise image/png (0.5) before text/html (1). *)
Theorem candidate_order_not_by_quality :
  (acs <- Charset.parseAcceptCharset "*;q=0.5, utf-8" ;;
   Ok (Charset.getCharsetSpecificities ["utf-8"; "iso-8859-1"] acs)) =
    Ok [mkSpecificity 0 1 Float64.one 1; mkSpecificity 1 0 half 0] /\
  Charset.PreferredCharsets "*;q=0.5, utf-8" ["utf-8"; "iso-8859-1"] = Ok ["iso-8859-1"; "utf-8"] /\
  MediaType.getMediaTypeSpecificities ["text/html"; "image/png"]
    (MediaType.parseAcceptMediaType "*/*;q=0.5, text/html") =
    [mkSpecificity 0 1 Float64.one 6; mkSpecificity 1 0 half 0] /\
  MediaType.PreferredMediaTypes "*/*;q=0.5, text/html" ["text/html"; "image/png"] =
    Ok ["image/png"; "text/html"].
Proof. vm_compute. repeat split. Qed.

(** C2 (code bug). Without candidates, PreferredCharsets and
    PreferredMediaTypes do not return the entries by quality descending:
    on a header of thirteen entries the entry g of quality 0.5 comes before
    entries j, l and m of quality 1. PreferredLanguages, whose comparator is a
    strict order, returns them in the specified order. *)
Theorem no_candidate_order_not_by_quality :
  Charset.PreferredCharsets "a, b, c, d, e, f, g;q=0.5, h, i, j, k;q=0.1, l, m" [] =
    Ok ["a"; "b"; "c"; "d"; "e"; "f"; "h"; "i"; "g"; "j"; "l"; "m"; "k"] /\
  MediaType.PreferredMediaTypes
    "a/a, b/b, c/c, d/d, e/e, f/f, g/g;q=0.5, h/h, i/i, j/j, k/k;q=0.1, l/l, m/m" [] =
    Ok ["a/a"; "b/b"; "c/c"; "d/d"; "e/e"; "f/f"; "h/h"; "i/i"; "g/g"; "j/j"; "l/l"; "m/m"; "k/k"] /\
  Language.PreferredLanguages "a, b, c, d, e, f, g;q=0.5, h, i, j, k;q=0.1, l, m" [] =
    Ok ["a"; "b"; "c"; "d"; "e"; "f"; "h"; "i"; "j"; "l"; "m"; "g"; "k"].
Proof. vm_compute. repeat split. Qed.

(** C3 counterexample: for the candidate utf-8 and the header
    [utf-8, *;q=0.5], the exact entry utf-8 (bits 1, quality 1, order 0) is
    not the one kept: the later wildcard (bits 0, quality 0.5) is. *)
Lemma later_wildcard_wins :
  (acs <- Charset.parseAcceptCharset "utf-8, *;q=0.5" ;;
   Ok (Charset.getCharsetPriority "utf-8" acs 0)) = Ok (mkSpecificity 0 1 half 0).
Proof. vm_compute. reflexivity. Qed.

(** C3 (amended). When the entries' orders strictly increase (as they do in a
    parsed header), getCharsetPriority, getMediaTypePriority and
    getLanguagePriority return the match of the LAST entry that matches the
    candidate, whatever its bits and quality, and the no-match value when no
    entry matches; getLanguagePriority does so when reparsing the candidate
    does not panic. *)
Theorem priority_last_match (v : string) (index : Z) :
  (forall acs, entry_orders (map Charset.i acs) ->
     Charset.getCharsetPriority v acs index =
     default no_match (last_match (fun ac => Charset.charsetSpecify v ac index) acs)) /\
  (forall acs, entry_orders (map MediaType.i acs) ->
     MediaType.getMediaTypePriority v acs index =
     default no_match (last_match (fun ac => MediaType.mediaTypeSpecify v ac index) acs)) /\
  (forall acs, entry_orders (map Language.i acs) -> Language.parseLanguage v index <> Panic ->
     Language.getLanguagePriority v acs index =
     Ok (default no_match (last_match (languageMatch v index) acs))).
Proof.
  split; [|split].
  - intros acs H. unfold Charset.getCharsetPriority.
    rewrite (priority_fold_last _ Charset.i); [| |simpl; lia|exact H].
    + destruct (last_match _ _); reflexivity.
    + intros ac sp. apply charsetSpecify_o.
  - intros acs H. unfold MediaType.getMediaTypePriority.
    rewrite (priority_fold_last _ MediaType.i); [| |simpl; lia|exact H].
    + destruct (last_match _ _); reflexivity.
    + intros ac sp. apply mediaTypeSpecify_o.
  - intros acs H Hp. unfold Language.getLanguagePriority.
    rewrite (priority_loop_match _ _ _ _ Hp).
    rewrite (priority_fold_last _ Language.i); [| |simpl; lia|exact H].
    + destruct (last_match _ _); reflexivity.
    + intros ac sp. apply languageMatch_o.
Qed.

Lemma priority_last_match_witness :
  entry_orders [0%Z; 1%Z] /\
  Charset.getCharsetPriority "utf-8"
    [Charset.mkAcceptCharset "utf-8" Float64.one 0; Charset.mkAcceptCharset "*" half 1] 0 =
  default no_match (last_match (fun ac => Charset.charsetSpecify "utf-8" ac 0)
    [Charset.mkAcceptCharset "utf-8" Float64.one 0; Charset.mkAcceptCharset "*" half 1]).
Proof.
  split; [reflexivity|].
  apply (proj1 (priority_last_match "utf-8" 0)). reflexivity.
Defined.

(** C4 counterexample: [gzip;q=x] yields no entry, yet the identity entry
    gets order 1, the number of comma-separated segments, not 0. *)
Lemma identity_order_counts_segments :
  parse_all Encoding.parseEncoding (GoStrings.split "," "gzip;q=x") = Ok [] /\
  Encoding.parseAcceptEncoding "gzip;q=x" = Ok [Encoding.mkAcceptEncoding "identity" Float64.one 1].
Proof. vm_compute. split; reflexivity. Qed.

(** C4 (amended). parseAcceptEncoding returns the entries parsed from the
    comma-separated segments, followed, when none of them matches identity
    under encodingSpecify, by the entry identity whose quality is math.Min
    folded over the entries' qualities from 1.0 and whose order is the number
    of segments (parsed or not). *)
Theorem parseAcceptEncoding_identity (accept : string) :
  Encoding.parseAcceptEncoding accept =
  (rs <- parse_all Encoding.parseEncoding (GoStrings.split "," accept) ;;
   Ok (if existsb identity_match rs then rs
       else app rs [Encoding.mkAcceptEncoding "identity" (min_quality rs Float64.one)
                      (Z.of_nat (List.length (GoStrings.split "," accept)))])).
Proof.
  unfold Encoding.parseAcceptEncoding, parse_all. rewrite parse_loop_spec.
  destruct (parse_all_from _ _ 0) as [rs|]; simpl; [|reflexivity].
  destruct (existsb identity_match rs); reflexivity.
Qed.

(** C5 counterexample: [utf-8;q=2] is parsed with quality 2 > 1 and kept. *)
Lemma quality_above_one :
  Charset.parseAcceptCharset "utf-8;q=2" = Ok [Charset.mkAcceptCharset "utf-8" two 0] /\
  Float64.lt Float64.one two = true /\
  Charset.PreferredCharsets "utf-8;q=2" [] = Ok ["utf-8"].
Proof. vm_compute. repeat split. Qed.

(** C5 (amended). The four parsers do not bound the quality: each parsed
    entry comes from the comma-separated segment at its order, and its quality
    is 1 when that segment has no q parameter, or otherwise the value that
    strconv.ParseFloat returns on the text after [q=] of the segment's first q
    parameter (for media ranges, the unquoted value of the first parameter
    whose key lowercases to q); the identity entry that parseAcceptEncoding
    may append takes the math.Min of the parsed qualities, starting from 1. *)
Theorem parsed_quality_source (accept : string) :
  (forall acs, Charset.parseAcceptCharset accept = Ok acs ->
     Forall (from_segment (GoStrings.split "," accept) Charset.i
       (fun s ac => segment_quality Regexp.simpleCharsetRegExp 2 s ac.(Charset.q))) acs) /\
  (forall acs, Encoding.parseAcceptEncoding accept = Ok acs ->
     exists rs,
       Forall (from_segment (GoStrings.split "," accept) Encoding.i
         (fun s ac => segment_quality Regexp.simpleEncodingRegExp 2 s ac.(Encoding.q))) rs /\
       (acs = rs \/
        acs = app rs [Encoding.mkAcceptEncoding "identity" (min_quality rs Float64.one)
                        (Z.of_nat (List.length (GoStrings.split "," accept)))])) /\
  (forall acs, Language.parseAcceptLanguage accept = Ok acs ->
     Forall (from_segment (GoStrings.split "," accept) Language.i
       (fun s ac => segment_quality Regexp.simpleLanguageRegExp 3 s ac.(Language.q))) acs) /\
  Forall (from_segment (MediaType.splitMediaTypes accept) MediaType.i
    (fun s ac => media_segment_quality s ac.(MediaType.q))) (MediaType.parseAcceptMediaType accept).
Proof.
  split; [|split; [|split]].
  - intros acs H. exact (parse_all_segments _ Charset.i _ _ _ parseCharset_segment H).
  - intros acs H. unfold Encoding.parseAcceptEncoding in H. rewrite parse_loop_spec in H.
    destruct (parse_all_from Encoding.parseEncoding (GoStrings.split "," accept) 0) as [rs|] eqn:Ers;
      simpl in H; [|discriminate].
    injection H as <-. exists rs.
    split; [exact (parse_all_segments _ Encoding.i _ _ _ parseEncoding_segment Ers)|].
    destruct (existsb identity_match rs); simpl; [left|right]; reflexivity.
  - intros acs H. exact (parse_all_segments _ Language.i _ _ _ parseLanguage_segment H).
  - eapply Forall_impl; [exact (media_parse_all_segments (MediaType.splitMediaTypes accept) 0)|].
    intros ac [Hi [seg [Hs HP]]]. split; [exact Hi|]. exists seg.
    rewrite Z.sub_0_r in Hs. split; assumption.
Qed.

(** C6 counterexample: a parameter after q is not kept. *)
Lemma param_after_q_dropped :
  option_map (fun mt => MediaType.params mt !! "level") (MediaType.parseMediaType "text/html;q=0.5;level=1" 0)
  = Some None.
Proof. vm_compute. reflexivity. Qed.

(** C6 (amended). The parameters map of an accepted segment holds, for each
    key, the value of the LAST pair with that lowercased key among the
    parameters BEFORE the first key q (parameters after it are dropped), each
    value unquoted; unquoting strips the first and last bytes when both are a
    double quote, maps the lone double quote to the empty string, and leaves
    any other value as it is. *)
Theorem media_params_before_q :
  (forall seg index mt, MediaType.parseMediaType seg index = Some mt ->
     forall key, MediaType.params mt !! key = last_value key (before_q (param_pairs (param_group seg)))) /\
  (forall mid, MediaType.unquote (String MediaType.dquote (mid ++ String MediaType.dquote EmptyString)) = mid) /\
  MediaType.unquote (String MediaType.dquote EmptyString) = EmptyString /\
  (forall v, MediaType.byte_is v 0 MediaType.dquote = false \/
             MediaType.byte_is v (Z.of_nat (String.length v) - 1) MediaType.dquote = false ->
     MediaType.unquote v = v).
Proof.
  split; [|split; [|split]].
  - exact parseMediaType_params.
  - exact unquote_quoted.
  - reflexivity.
  - exact unquote_unquoted.
Qed.

Lemma media_params_before_q_witness :
  MediaType.parseMediaType "text/html;Level=1;q=0.5;x=2" 0 <> None /\
  option_map (fun mt => MediaType.params mt !! "level") (MediaType.parseMediaType "text/html;Level=1;q=0.5;x=2" 0) =
  Some (last_value "level" (before_q (param_pairs (param_group "text/html;Level=1;q=0.5;x=2")))).
Proof.
  assert (Hne : MediaType.parseMediaType "text/html;Level=1;q=0.5;x=2" 0 <> None)
    by (vm_compute; discriminate).
  split; [exact Hne|].
  destruct (MediaType.parseMediaType "text/html;Level=1;q=0.5;x=2" 0) as [mt|] eqn:E; [|congruence].
  simpl. f_equal. exact (proj1 media_params_before_q _ _ _ E "level").
Defined.

(** C8. For a candidate that parses as p, languageSpecify matches an entry
    with bits 4 when its full tag equals p's full tag ignoring case, else 2
    when its primary tag equals p's full tag, else 1 when its full tag equals
    p's primary tag, else 0 when its full tag is *, and does not match
    otherwise. *)
Theorem languageSpecify_bits (language : string) (index : Z) (p ac : Language.acceptLanguage) :
  Language.parseLanguage language index = Ok (Some p) ->
  Language.languageSpecify language ac index =
  Ok (option_map (fun b => mkSpecificity index ac.(Language.i) ac.(Language.q) b) (language_bits ac p)).
Proof.
  intros H. unfold Language.languageSpecify, language_bits. rewrite H. simpl.
  destruct (String.eqb _ _); [reflexivity|].
  destruct (String.eqb _ _); [reflexivity|].
  destruct (String.eqb _ _); [reflexivity|].
  destruct (String.eqb _ "*"); reflexivity.
Qed.

Lemma languageSpecify_bits_witness :
  Language.parseLanguage "en-US" 0 = Ok (Some (Language.mkAcceptLanguage "en" "US" "en-US" Float64.one 0)) /\
  Language.languageSpecify "en-US" (Language.mkAcceptLanguage "en" "" "en" half 3) 0 =
  Ok (option_map (fun b => mkSpecificity 0 3 half b)
        (language_bits (Language.mkAcceptLanguage "en" "" "en" half 3)
                       (Language.mkAcceptLanguage "en" "US" "en-US" Float64.one 0))).
Proof.
  assert (H : Language.parseLanguage "en-US" 0 =
              Ok (Some (Language.mkAcceptLanguage "en" "US" "en-US" Float64.one 0)))
    by (vm_compute; reflexivity).
  split; [exact H|].
  exact (languageSpecify_bits "en-US" 0 _ (Language.mkAcceptLanguage "en" "" "en" half 3) H).
Defined.

(** C10. Wildcards are asymmetric for charsets and encodings: an entry * matches
    every candidate, with bits 1 for the candidate * and bits 0 for any other;
    the candidate * is matched, with bits 1, only by an entry whose value is *,
    and by no other entry. *)
Theorem wildcard_asymmetry (c : string) (q0 : float64) (i0 idx : Z)
    (ac : Charset.acceptCharset) (ae : Encoding.acceptEncoding) :
  Charset.charsetSpecify c (Charset.mkAcceptCharset "*" q0 i0) idx =
    Some (mkSpecificity idx i0 q0 (if String.eqb c "*" then 1 else 0)) /\
  Charset.charsetSpecify "*" ac idx =
    (if String.eqb ac.(Charset.charset) "*"
     then Some (mkSpecificity idx ac.(Charset.i) ac.(Charset.q) 1) else None) /\
  Encoding.encodingSpecify c (Encoding.mkAcceptEncoding "*" q0 i0) idx =
    Some (mkSpecificity idx i0 q0 (if String.eqb c "*" then 1 else 0)) /\
  Encoding.encodingSpecify "*" ae idx =
    (if String.eqb ae.(Encoding.encoding) "*"
     then Some (mkSpecificity idx ae.(Encoding.i) ae.(Encoding.q) 1) else None).
Proof.
  unfold Charset.charsetSpecify, Encoding.encodingSpecify.
  cbn [Charset.charset Charset.i Charset.q Encoding.encoding Encoding.i Encoding.q].
  change (GoStrings.ToLower "*") with "*".
  rewrite !ToLower_star_l, !ToLower_star, !(String.eqb_sym "*" c).
  destruct (String.eqb c "*"), (String.eqb (Charset.charset ac) "*"),
    (String.eqb (Encoding.encoding ae) "*"); repeat split.
Qed.

End Claims.

(** * Further properties of the code *)

(** ** The closing loop of candidate mode *)
Module ResultsFacts.
Import Common CommonFacts SelectorFacts.
Local Open Scope Z_scope.

(** the positions [k] (from [off]) whose priority has quality > 0 *)
Fixpoint quality_positions_from (ps : list specificity) (off : nat) : list nat :=
  match ps with
  | [] => []
  | v :: ps' =>
      if isSpecificityQuality v then off :: quality_positions_from ps' (S off)
      else quality_positions_from ps' (S off)
  end.
Definition quality_positions (ps : list specificity) : list nat := quality_positions_from ps 0.

Lemma filter_positions_from (ps : list specificity) (off : nat) :
  (forall k w, ps !! k = Some w -> isSpecificityQuality w = true -> w.(i) = Z.of_nat (off + k)) ->
  map (fun v => Z.to_nat v.(i)) (List.filter isSpecificityQuality ps) = quality_positions_from ps off.
Proof.
  revert off. induction ps as [|w ps IH]; intros off H; [reflexivity|]. simpl.
  assert (IH' : map (fun v => Z.to_nat v.(i)) (List.filter isSpecificityQuality ps) =
                quality_positions_from ps (S off)).
  { apply IH. intros k w' Hk Hq. replace (S off + k)%nat with (off + S k)%nat by lia. apply H; auto. }
  destruct (isSpecificityQuality w) eqn:Hq; simpl; [|exact IH'].
  rewrite (H 0%nat w eq_refl Hq), IH'. f_equal. lia.
Qed.

(** the loop never panics on a permutation of the filtered priorities, and
    outputs the candidate at the position each priority is about *)
Lemma results_ok (priorities sorted : list specificity) (provided : list string) :
  indexed priorities -> length priorities = length provided ->
  Permutation (List.filter isSpecificityQuality priorities) sorted ->
  exists idx, Permutation idx (quality_positions priorities) /\
    results priorities sorted provided = Ok (map (fun k => nth k provided "") idx).
Proof.
  intros Hidx Hlen Hperm.
  assert (Hall : forall v, In v sorted -> exists k, priorities !! k = Some v /\
            v.(i) = Z.of_nat k /\ isSpecificityQuality v = true).
  { intros v Hv. apply filter_indexed_in; [exact Hidx|].
    eapply Permutation_in; [symmetry; exact Hperm|exact Hv]. }
  exists (map (fun v => Z.to_nat v.(i)) sorted). split.
  - unfold quality_positions. rewrite <- (filter_positions_from priorities 0).
    + symmetry. apply Permutation_map. exact Hperm.
    + intros k w Hk Hq. destruct (Hidx k w Hk) as [H|[_ H]]; [exact H|congruence].
  - clear Hperm. induction sorted as [|v sorted IH]; simpl; [reflexivity|].
    destruct (Hall v (or_introl eq_refl)) as [k [Hk [Hi Hq]]].
    rewrite (indexOf_indexed priorities k v Hidx Hk Hq).
    assert (Hkl : (k < length provided)%nat) by (rewrite <- Hlen; eapply lookup_lt_Some; exact Hk).
    destruct (lookup_lt_is_Some_2 provided k Hkl) as [x Hx].
    assert (Hsg : slice_get provided (Z.of_nat k) = Ok x).
    { unfold slice_get. rewrite Nat2Z.id, Hx. destruct (Z.of_nat k <? 0) eqn:E; [lia|reflexivity]. }
    destruct (0 <=? Z.of_nat k) eqn:E0; [|lia].
    rewrite Hsg. simpl. rewrite IH by (intros w Hw; apply Hall; right; exact Hw). simpl.
    rewrite Hi, Nat2Z.id. f_equal. f_equal. symmetry. apply nth_lookup_Some. exact Hx.
Qed.

Lemma languageSpecify_i v ac index sp :
  Language.languageSpecify v ac index = Ok (Some sp) -> sp.(i) = index.
Proof.
  unfold Language.languageSpecify. intros H.
  destruct (Language.parseLanguage v index) as [[p|]|]; simpl in H; try discriminate.
  repeat match type of H with
         | context [if ?b then _ else _] => destruct b
         end; simpl in H; try discriminate; injection H as <-; reflexivity.
Qed.

Lemma priority_loop_indexed v acs index pr0 r :
  pr0.(i) = index \/ (pr0.(i) = 0 /\ isSpecificityQuality pr0 = false) ->
  Language.priority_loop v acs index pr0 = Ok r ->
  r.(i) = index \/ (r.(i) = 0 /\ isSpecificityQuality r = false).
Proof.
  revert pr0. induction acs as [|ac acs IH]; intros pr0 H0 H; simpl in H.
  - injection H as <-. exact H0.
  - destruct (Language.languageSpecify v ac index) as [spec|] eqn:E; simpl in H; [|discriminate].
    refine (IH _ _ H). unfold priority_step. destruct spec as [sp|]; [|exact H0].
    destruct (_ || _ || _); [left; exact (languageSpecify_i _ _ _ _ E)|exact H0].
Qed.

Lemma specificities_from_indexed types acs off ps :
  Language.specificities_from types acs off = Ok ps ->
  length ps = length types /\
  forall k v, ps !! k = Some v ->
    v.(i) = off + Z.of_nat k \/ (v.(i) = 0 /\ isSpecificityQuality v = false).
Proof.
  revert off ps. induction types as [|t types IH]; intros off ps H; simpl in H.
  - injection H as <-. split; [reflexivity|]. intros k v Hk. discriminate.
  - destruct (Language.getLanguagePriority t acs off) as [x|] eqn:Ex; simpl in H; [|discriminate].
    destruct (Language.specificities_from types acs (off + 1)) as [r|] eqn:Er; simpl in H; [|discriminate].
    injection H as <-. destruct (IH _ _ Er) as [Hl Hr]. split; [simpl; rewrite Hl; reflexivity|].
    intros [|k] v Hk; simpl in Hk.
    + injection Hk as <-. replace (off + Z.of_nat 0) with off by lia.
      exact (priority_loop_indexed _ _ _ no_match _ (or_intror (conj eq_refl eq_refl)) Ex).
    + destruct (Hr k v Hk) as [H|H]; [left; rewrite H; lia|right; exact H].
Qed.

Lemma encodingSpecify_i v ac index sp : Encoding.encodingSpecify v ac index = Some sp -> sp.(i) = index.
Proof.
  unfold Encoding.encodingSpecify. intros H.
  repeat (destruct (String.eqb _ _) in H); simpl in H; try discriminate; injection H as <-; reflexivity.
Qed.

End ResultsFacts.

(** ** Panics of the language selector in candidate mode *)
Module PanicFacts.
Import Common.
Local Open Scope Z_scope.

Lemma languageSpecify_panic v ac index :
  Language.languageSpecify v ac index = Panic <-> Language.parseLanguage v index = Panic.
Proof.
  unfold Language.languageSpecify.
  destruct (Language.parseLanguage v index) as [[p|]|]; simpl; split; congruence.
Qed.

Lemma priority_loop_panic v acs index pr0 :
  Language.priority_loop v acs index pr0 = Panic <->
  acs <> [] /\ Language.parseLanguage v index = Panic.
Proof.
  revert pr0. induction acs as [|ac acs IH]; intros pr0; simpl.
  - split; [discriminate|intros [H _]; congruence].
  - destruct (Language.languageSpecify v ac index) as [spec|] eqn:E; simpl.
    + rewrite IH. split; [intros [_ H]; split; [discriminate|exact H]|].
      intros [_ H]. pose proof (proj2 (languageSpecify_panic v ac index) H). congruence.
    + apply languageSpecify_panic in E. split; [intros _; split; [discriminate|exact E]|reflexivity].
Qed.

Lemma specificities_from_panic types acs off :
  Language.specificities_from types acs off = Panic <->
  acs <> [] /\ exists k t, types !! k = Some t /\ Language.parseLanguage t (off + Z.of_nat k) = Panic.
Proof.
  revert off. induction types as [|t types IH]; intros off; simpl.
  - split; [discriminate|intros [_ [k [t [H _]]]]; discriminate].
  - unfold Language.getLanguagePriority.
    destruct (Language.priority_loop t acs off no_match) as [x|] eqn:Ex; simpl.
    + specialize (IH (off + 1)).
      destruct (Language.specificities_from types acs (off + 1)) as [r|]; simpl.
      * split; [discriminate|]. intros [Hne [[|k] [t' [Hk Hp]]]].
        -- simpl in Hk. injection Hk as <-. replace (off + Z.of_nat 0) with off in Hp by lia.
           assert (Hl : Language.priority_loop t acs off no_match = Panic)
             by (apply priority_loop_panic; split; assumption). congruence.
        -- assert (Hpan : Ok r = Panic).
           { apply IH. split; [exact Hne|]. exists k, t'. split; [exact Hk|].
             replace (off + 1 + Z.of_nat k) with (off + Z.of_nat (S k)) by lia. exact Hp. }
           discriminate.
      * split; [|reflexivity]. intros _. destruct (proj1 IH eq_refl) as [Hne [k [t' [Hk Hp]]]].
        split; [exact Hne|]. exists (S k), t'. split; [exact Hk|].
        replace (off + Z.of_nat (S k)) with (off + 1 + Z.of_nat k) by lia. exact Hp.
    + apply priority_loop_panic in Ex as [Hne Hp]. split; [|reflexivity]. intros _.
      split; [exact Hne|]. exists 0%nat, t. split; [reflexivity|].
      replace (off + Z.of_nat 0) with off by lia. exact Hp.
Qed.

End PanicFacts.

(** * Further properties *)
Module Extras.
Import Common CommonFacts SelectorFacts ResultsFacts PanicFacts.
Local Open Scope Z_scope.

Lemma priorities_indexed_language (provided : list string) acs ps :
  Language.getLanguageSpecificities provided acs = Ok ps -> indexed ps /\ length ps = length provided.
Proof.
  intros H. destruct (specificities_from_indexed _ _ _ _ H) as [Hl Hk].
  split; [|exact Hl]. intros k v Hv. destruct (Hk k v Hv) as [E|E]; [left; rewrite E; lia|right; exact E].
Qed.

Lemma candidate_mode_ok (accept : string) (provided : list string) :
  provided <> [] ->
  (forall acs, Charset.parseAcceptCharset accept = Ok acs ->
     exists idx, Permutation idx (quality_positions (Charset.getCharsetSpecificities provided acs)) /\
       Charset.PreferredCharsets accept provided = Ok (map (fun k => nth k provided "") idx)) /\
  (exists idx, Permutation idx (quality_positions
       (MediaType.getMediaTypeSpecificities provided (MediaType.parseAcceptMediaType accept))) /\
     MediaType.PreferredMediaTypes accept provided = Ok (map (fun k => nth k provided "") idx)).
Proof.
  intros Hne. split.
  - intros acs Hp. unfold Charset.PreferredCharsets. rewrite Hp. simpl.
    destruct provided as [|c cs]; [congruence|].
    apply results_ok; [| |apply GoSortFacts.Sort_perm].
    + apply (imap_priorities_indexed (fun v ac k => Charset.charsetSpecify v ac k)). apply charsetSpecify_i.
    + apply imap_from_length.
  - unfold MediaType.PreferredMediaTypes. destruct provided as [|c cs]; [congruence|].
    apply results_ok; [| |apply GoSortFacts.Sort_perm].
    + apply (imap_priorities_indexed (fun v ac k => MediaType.mediaTypeSpecify v ac k)). apply mediaTypeSpecify_i.
    + apply imap_from_length.
Qed.

(** X1. In candidate mode, PreferredCharsets and PreferredMediaTypes do not
    panic once the header is parsed, and return exactly the candidates whose
    resolved priority has quality > 0, each position once, in some order. *)
Theorem candidate_mode_positive_quality (accept : string) (provided : list string) :
  provided <> [] ->
  (forall acs, Charset.parseAcceptCharset accept = Ok acs ->
     exists idx, Permutation idx (quality_positions (Charset.getCharsetSpecificities provided acs)) /\
       Charset.PreferredCharsets accept provided = Ok (map (fun k => nth k provided "") idx)) /\
  (exists idx, Permutation idx (quality_positions
       (MediaType.getMediaTypeSpecificities provided (MediaType.parseAcceptMediaType accept))) /\
     MediaType.PreferredMediaTypes accept provided = Ok (map (fun k => nth k provided "") idx)).
Proof. exact (candidate_mode_ok accept provided). Qed.

Lemma candidate_mode_positive_quality_witness :
  exists idx, Permutation idx (quality_positions
       (MediaType.getMediaTypeSpecificities ["text/html"; "image/png"]
          (MediaType.parseAcceptMediaType "text/html, image/*;q=0"))) /\
     MediaType.PreferredMediaTypes "text/html, image/*;q=0" ["text/html"; "image/png"] =
       Ok (map (fun k => nth k ["text/html"; "image/png"] "") idx).
Proof. exact (proj2 (candidate_mode_positive_quality _ ["text/html"; "image/png"] ltac:(discriminate))). Defined.

Lemma candidate_mode_ok_specs (accept : string) (provided : list string) :
  provided <> [] ->
  (forall acs, Encoding.parseAcceptEncoding accept = Ok acs ->
     exists idx, Permutation idx (quality_positions (Encoding.getEncodingSpecificities provided acs)) /\
       Encoding.PreferredEncodings accept provided = Ok (map (fun k => nth k provided "") idx)) /\
  (forall acs ps, Language.parseAcceptLanguage accept = Ok acs ->
     Language.getLanguageSpecificities provided acs = Ok ps ->
     exists idx, Permutation idx (quality_positions ps) /\
       Language.PreferredLanguages accept provided = Ok (map (fun k => nth k provided "") idx)).
Proof.
  intros Hne. split.
  - intros acs Hp. unfold Encoding.PreferredEncodings. rewrite Hp. simpl.
    destruct provided as [|c cs]; [congruence|].
    apply results_ok; [| |apply GoSortFacts.Sort_perm].
    + apply (imap_priorities_indexed (fun v ac k => Encoding.encodingSpecify v ac k)). apply encodingSpecify_i.
    + apply imap_from_length.
  - intros acs ps Hp Hs. unfold Language.PreferredLanguages. rewrite Hp. simpl.
    destruct provided as [|c cs]; [congruence|]. rewrite Hs. simpl.
    destruct (priorities_indexed_language _ _ _ Hs) as [Hidx Hlen].
    apply results_ok; [exact Hidx|exact Hlen|apply GoSortFacts.Sort_perm].
Qed.

(** X2. In candidate mode, PreferredEncodings (once the header is parsed) and
    PreferredLanguages (once the candidates' priorities are computed) return
    exactly the candidates whose resolved priority has quality > 0, each
    position once, whatever order compareSpecs puts them in. *)
Theorem candidate_mode_positive_quality_specs (accept : string) (provided : list string) :
  provided <> [] ->
  (forall acs, Encoding.parseAcceptEncoding accept = Ok acs ->
     exists idx, Permutation idx (quality_positions (Encoding.getEncodingSpecificities provided acs)) /\
       Encoding.PreferredEncodings accept provided = Ok (map (fun k => nth k provided "") idx)) /\
  (forall acs ps, Language.parseAcceptLanguage accept = Ok acs ->
     Language.getLanguageSpecificities provided acs = Ok ps ->
     exists idx, Permutation idx (quality_positions ps) /\
       Language.PreferredLanguages accept provided = Ok (map (fun k => nth k provided "") idx)).
Proof. exact (candidate_mode_ok_specs accept provided). Qed.

Lemma candidate_mode_positive_quality_specs_witness :
  exists idx, Permutation idx (quality_positions
       (Encoding.getEncodingSpecificities ["gzip"; "br"]
          [Encoding.mkAcceptEncoding "gzip" Float64.one 0; Encoding.mkAcceptEncoding "identity" Float64.one 1])) /\
     Encoding.PreferredEncodings "gzip" ["gzip"; "br"] = Ok (map (fun k => nth k ["gzip"; "br"] "") idx).
Proof.
  apply (proj1 (candidate_mode_positive_quality_specs "gzip" ["gzip"; "br"] ltac:(discriminate))).
  vm_compute. reflexivity.
Defined.

(** X3. The selectors panic only where Go would index out of range:
    PreferredCharsets and PreferredEncodings exactly when parsing the header
    panics, PreferredMediaTypes never, and PreferredLanguages exactly when
    parsing the header panics or, with at least one parsed entry, reparsing
    one of the candidates panics. *)
Theorem selector_panics (accept : string) (provided : list string) :
  (Charset.PreferredCharsets accept provided = Panic <-> Charset.parseAcceptCharset accept = Panic) /\
  (Encoding.PreferredEncodings accept provided = Panic <-> Encoding.parseAcceptEncoding accept = Panic) /\
  MediaType.PreferredMediaTypes accept provided <> Panic /\
  (Language.PreferredLanguages accept provided = Panic <->
   Language.parseAcceptLanguage accept = Panic \/
   exists acs, Language.parseAcceptLanguage accept = Ok acs /\ acs <> [] /\
     exists k t, provided !! k = Some t /\ Language.parseLanguage t (Z.of_nat k) = Panic).
Proof.
  split; [|split; [|split]].
  - destruct (Charset.parseAcceptCharset accept) as [acs|] eqn:Hp; [|unfold Charset.PreferredCharsets; rewrite Hp; split; reflexivity].
    split; [|discriminate]. destruct provided as [|c cs].
    + unfold Charset.PreferredCharsets. rewrite Hp. discriminate.
    + destruct (proj1 (candidate_mode_ok accept (c :: cs) ltac:(discriminate)) acs Hp)
        as [idx [_ ->]]. discriminate.
  - destruct (Encoding.parseAcceptEncoding accept) as [acs|] eqn:Hp; [|unfold Encoding.PreferredEncodings; rewrite Hp; split; reflexivity].
    split; [|discriminate]. destruct provided as [|c cs].
    + unfold Encoding.PreferredEncodings. rewrite Hp. discriminate.
    + destruct (proj1 (candidate_mode_ok_specs accept (c :: cs) ltac:(discriminate)) acs Hp)
        as [idx [_ ->]]. discriminate.
  - destruct provided as [|c cs]; [unfold MediaType.PreferredMediaTypes; discriminate|].
    destruct (proj2 (candidate_mode_ok accept (c :: cs) ltac:(discriminate))) as [idx [_ ->]].
    discriminate.
  - unfold Language.PreferredLanguages.
    destruct (Language.parseAcceptLanguage accept) as [acs|] eqn:Hp; simpl;
      [|split; [intros _; left; reflexivity|reflexivity]].
    destruct provided as [|c cs].
    + split; [discriminate|]. intros [H|[acs' [_ [_ [k [t [Hk _]]]]]]]; [discriminate|destruct k; discriminate].
    + destruct (Language.getLanguageSpecificities (c :: cs) acs) as [ps|] eqn:Hs; simpl.
      * split.
        -- destruct (priorities_indexed_language _ _ _ Hs) as [Hidx Hlen].
           destruct (results_ok ps (GoSort.Sort compareSpecs (List.filter isSpecificityQuality ps)) (c :: cs)
                       Hidx Hlen (GoSortFacts.Sort_perm _ _)) as [idx [_ ->]].
           discriminate.
        -- intros [H|[acs' [Ha [Hne [k [t [Hk Ht]]]]]]]; [discriminate|].
           injection Ha as <-. exfalso.
           assert (Hpan : Language.getLanguageSpecificities (c :: cs) acs = Panic).
           { apply specificities_from_panic. split; [exact Hne|]. exists k, t. split; [exact Hk|]. exact Ht. }
           congruence.
      * split; [|reflexivity]. intros _. right. exists acs. split; [reflexivity|].
        apply specificities_from_panic in Hs as [Hne [k [t [Hk Ht]]]].
        split; [exact Hne|]. exists k, t. split; [exact Hk|]. exact Ht.
Qed.

End Extras.

(** ** Splitting: Split, the quote-aware merge and key=value pairs *)
Module SplitFacts.
Import MediaType.
Local Open Scope Z_scope.

Lemma Join_cons (x : string) (l : list string) (sep : string) :
  l <> [] -> GoStrings.Join (x :: l) sep = x ++ sep ++ GoStrings.Join l sep.
Proof. destruct l; [congruence|reflexivity]. Qed.

Lemma split_nonempty (c : ascii) (s : string) : GoStrings.split c s <> [].
Proof.
  destruct s as [|d s]; simpl; [discriminate|].
  destruct (GoStrings.ascii_eqb d c); [discriminate|]. destruct (GoStrings.split c s); discriminate.
Qed.

Lemma string_app_assoc (a b c : string) : (a ++ b) ++ c = a ++ (b ++ c).
Proof.
  induction a as [|x a IH]; [reflexivity|].
  change (String x ((a ++ b) ++ c) = String x (a ++ b ++ c)). rewrite IH. reflexivity.
Qed.

Lemma Join_String (d : ascii) (p : string) (ps : list string) (sep : string) :
  GoStrings.Join (String d p :: ps) sep = String d (GoStrings.Join (p :: ps) sep).
Proof. destruct ps; reflexivity. Qed.

Lemma split_Join (c : ascii) (s : string) :
  GoStrings.Join (GoStrings.split c s) (String c EmptyString) = s.
Proof.
  induction s as [|d s IH]; [reflexivity|]. simpl.
  destruct (GoStrings.ascii_eqb d c) eqn:E.
  - unfold GoStrings.ascii_eqb in E. apply Ascii.eqb_eq in E as ->.
    rewrite Join_cons by apply split_nonempty. simpl. rewrite IH. reflexivity.
  - destruct (GoStrings.split c s) as [|p ps] eqn:Es; [exfalso; exact (split_nonempty c s Es)|].
    rewrite Join_String, IH. reflexivity.
Qed.

Lemma join_quoted_nonempty (sep cur : string) (rest : list string) : join_quoted sep cur rest <> [].
Proof.
  revert cur. induction rest as [|x rest IH]; intros cur; simpl; [discriminate|].
  destruct (_ =? 0); [discriminate|apply IH].
Qed.

(** merging keeps the text: the pieces, joined again, give the input back *)
Lemma join_quoted_Join (sep cur : string) (rest : list string) :
  GoStrings.Join (join_quoted sep cur rest) sep = GoStrings.Join (cur :: rest) sep.
Proof.
  revert cur. induction rest as [|x rest IH]; intros cur; [reflexivity|].
  rewrite (Join_cons cur (x :: rest)) by discriminate. simpl join_quoted.
  destruct (Z.rem (quoteCount cur) 2 =? 0).
  - rewrite Join_cons by apply join_quoted_nonempty. rewrite IH. reflexivity.
  - rewrite IH. destruct rest as [|y rest]; [reflexivity|].
    rewrite !Join_cons by discriminate. rewrite !string_app_assoc. reflexivity.
Qed.

(** every piece but the last holds an even number of double quotes *)
Lemma join_quoted_even (sep cur : string) (rest : list string) :
  Forall (fun p => Z.rem (quoteCount p) 2 = 0) (removelast (join_quoted sep cur rest)).
Proof.
  revert cur. induction rest as [|x rest IH]; intros cur; simpl; [constructor|].
  destruct (Z.rem (quoteCount cur) 2 =? 0) eqn:E; [|apply IH].
  apply Z.eqb_eq in E. pose proof (join_quoted_nonempty sep x rest) as Hne.
  destruct (join_quoted sep x rest) as [|p ps] eqn:Ej; [congruence|].
  change (removelast (cur :: p :: ps)) with (cur :: removelast (p :: ps)).
  constructor; [exact E|]. rewrite <- Ej. apply IH.
Qed.

Lemma Index_cases (s : string) (c : ascii) :
  GoStrings.Index s c = -1 \/
  exists a b, s = a ++ String c b /\ GoStrings.Index a c = -1 /\ GoStrings.Index s c = Z.of_nat (String.length a).
Proof.
  induction s as [|d s IH]; simpl; [left; reflexivity|].
  destruct (GoStrings.ascii_eqb d c) eqn:E.
  - right. exists EmptyString, s. unfold GoStrings.ascii_eqb in E. apply Ascii.eqb_eq in E as ->.
    split; [reflexivity|split; reflexivity].
  - destruct IH as [H|[a [b [Hs [Ha Hi]]]]].
    + left. rewrite H. reflexivity.
    + right. exists (String d a), b. split; [rewrite Hs; reflexivity|]. simpl. rewrite E, Ha, Hi.
      split; [reflexivity|]. destruct (Z.of_nat (String.length a) <? 0) eqn:E'; [lia|]. lia.
Qed.

Lemma substring_app_r (a b : string) (n : nat) :
  substring (String.length a) n (a ++ b) = substring 0 n b.
Proof. induction a as [|x a IH]; simpl; [reflexivity|exact IH]. Qed.

Lemma substring_all (b : string) : substring 0 (String.length b) b = b.
Proof. induction b as [|x b IH]; simpl; [reflexivity|rewrite IH; reflexivity]. Qed.

End SplitFacts.

(** ** Properties of the header splitting helpers *)
Module SplitExtras.
Import MediaType ParamFacts SplitFacts.
Local Open Scope Z_scope.

(** X4: splitMediaTypes never returns an empty slice; joining its pieces
    with commas gives the header back, and every piece but the last holds an
    even number of double quotes (a comma inside a quoted string does not
    split). *)
Theorem splitMediaTypes_pieces (accept : string) :
  splitMediaTypes accept <> [] /\
  GoStrings.Join (splitMediaTypes accept) "," = accept /\
  Forall (fun p => Z.rem (quoteCount p) 2 = 0) (removelast (splitMediaTypes accept)).
Proof.
  unfold splitMediaTypes. pose proof (split_Join "," accept) as HJ.
  pose proof (split_nonempty "," accept) as Hne.
  destruct (GoStrings.split "," accept) as [|a0 rest]; [congruence|].
  split; [apply join_quoted_nonempty|split].
  - rewrite join_quoted_Join. exact HJ.
  - apply join_quoted_even.
Qed.

(** X5: splitParameters trims the pieces of a split that never cuts inside
    a quoted string: the untrimmed pieces are non-empty in number, join back
    with semicolons to the input, and all but the last hold an even number
    of double quotes. *)
Theorem splitParameters_pieces (str : string) :
  exists raw,
    splitParameters str = map GoStrings.Trim raw /\ raw <> [] /\
    GoStrings.Join raw ";" = str /\
    Forall (fun p => Z.rem (quoteCount p) 2 = 0) (removelast raw).
Proof.
  unfold splitParameters. pose proof (split_Join ";" str) as HJ.
  pose proof (split_nonempty ";" str) as Hne.
  destruct (GoStrings.split ";" str) as [|p0 rest]; [congruence|].
  exists (join_quoted ";" p0 rest). split; [reflexivity|].
  split; [apply join_quoted_nonempty|split].
  - rewrite join_quoted_Join. exact HJ.
  - apply join_quoted_even.
Qed.

(** X6: splitKeyValuePair gives [(s, "")] when [s] has no '=', and otherwise
    cuts [s] at its first '=': key, '=' and value put together give [s] and
    the key holds no '='. *)
Theorem splitKeyValuePair_first_eq (s : string) :
  match splitKeyValuePair s with
  | (key, val) =>
      (GoStrings.Index s "=" = -1 /\ key = s /\ val = "") \/
      (key ++ "=" ++ val = s /\ GoStrings.Index key "=" = -1)
  end.
Proof.
  unfold splitKeyValuePair.
  destruct (Index_cases s "=") as [H|[a [b [Hs [Ha Hi]]]]].
  - rewrite H. left. auto.
  - rewrite Hi. destruct (Z.of_nat (String.length a) =? -1) eqn:E; [lia|].
    right. unfold GoStrings.slice. subst s.
    replace (Z.to_nat (Z.of_nat (String.length a) - 0)) with (String.length a) by lia.
    change (Z.to_nat 0) with 0%nat. rewrite substring_prefix.
    replace (a ++ String "=" b) with ((a ++ "=") ++ b) by (rewrite string_app_assoc; reflexivity).
    replace (Z.to_nat (Z.of_nat (String.length a) + 1))
      with (String.length (a ++ "=")) by (rewrite string_length_app; simpl; lia).
    replace (Z.to_nat (Z.of_nat (String.length ((a ++ "=") ++ b)) - (Z.of_nat (String.length a) + 1)))
      with (String.length b) by (rewrite !string_length_app; simpl; lia).
    rewrite substring_app_r, substring_all. split; [|exact Ha].
    rewrite string_app_assoc. reflexivity.
Qed.

End SplitExtras.

(** ** The orders of the parsed entries *)
Module OrderFacts.
Import Common PriorityFacts SplitFacts.
Local Open Scope Z_scope.

Lemma parse_all_from_orders {A} (parse : string -> Z -> result (option A)) (ord : A -> Z)
    (accepts : list string) (k : Z) (l : list A) :
  (forall s k x, parse s k = Ok (Some x) -> ord x = k) ->
  parse_all_from parse accepts k = Ok l ->
  StronglySorted Z.lt (map ord l) /\
  Forall (fun o => k <= o < k + Z.of_nat (length accepts)) (map ord l).
Proof.
  intros Hp. revert k l. induction accepts as [|a accepts IH]; intros k l; simpl.
  - intros H. injection H as <-. split; constructor.
  - destruct (parse (GoStrings.Trim a) k) as [x|] eqn:E; simpl; [|discriminate].
    destruct (parse_all_from parse accepts (k + 1)) as [r|] eqn:Er; simpl; [|discriminate].
    intros H. injection H as <-. destruct (IH (k + 1) r Er) as [HS HF].
    destruct x as [y|]; simpl.
    + rewrite (Hp _ _ _ E). split.
      * constructor; [exact HS|]. eapply Forall_impl; [exact HF|]. intros o Ho. simpl in *. lia.
      * constructor; [lia|]. eapply Forall_impl; [exact HF|]. intros o Ho. simpl in *. lia.
    + split; [exact HS|]. eapply Forall_impl; [exact HF|]. intros o Ho. simpl in *. lia.
Qed.

Lemma media_parse_all_from_orders (accepts : list string) (k : Z) :
  StronglySorted Z.lt (map MediaType.i (MediaType.parse_all_from accepts k)) /\
  Forall (fun o => k <= o < k + Z.of_nat (length accepts))
    (map MediaType.i (MediaType.parse_all_from accepts k)).
Proof.
  revert k. induction accepts as [|a accepts IH]; intros k; simpl; [split; constructor|].
  destruct (IH (k + 1)) as [HS HF].
  destruct (MediaType.parseMediaType (GoStrings.Trim a) k) as [y|] eqn:E; simpl.
  - replace (MediaType.i y) with k.
    2:{ unfold MediaType.parseMediaType in E.
        destruct (Regexp.FindStringMatch _ _); [|discriminate].
        destruct (String.eqb _ _); [injection E as <-; reflexivity|].
        destruct (MediaType.params_loop _ _ _) as [[? ?]|]; [|discriminate].
        injection E as <-; reflexivity. }
    split.
    + constructor; [exact HS|]. eapply Forall_impl; [exact HF|]. intros o Ho. simpl in *. lia.
    + constructor; [lia|]. eapply Forall_impl; [exact HF|]. intros o Ho. simpl in *. lia.
  - split; [exact HS|]. eapply Forall_impl; [exact HF|]. intros o Ho. simpl in *. lia.
Qed.

Ltac parse_order_case H :=
  repeat match type of H with
         | context [if ?b then _ else _] => destruct b
         | context [rbind (scan_q ?ps ?q0) _] => destruct (scan_q ps q0) as [[?|]|]
         | context [match Regexp.FindStringMatch ?r ?s with _ => _ end] =>
             destruct (Regexp.FindStringMatch r s)
         end; simpl in H; try discriminate; injection H as <-; reflexivity.

Lemma parseCharset_i s k x : Charset.parseCharset s k = Ok (Some x) -> Charset.i x = k.
Proof. unfold Charset.parseCharset. intros H. parse_order_case H. Qed.

Lemma parseEncoding_i s k x : Encoding.parseEncoding s k = Ok (Some x) -> Encoding.i x = k.
Proof. unfold Encoding.parseEncoding. intros H. parse_order_case H. Qed.

Lemma parseLanguage_i s k x : Language.parseLanguage s k = Ok (Some x) -> Language.i x = k.
Proof. unfold Language.parseLanguage. intros H. cbv zeta in H. parse_order_case H. Qed.

Lemma encodingSpecify_o v ac index sp :
  Encoding.encodingSpecify v ac index = Some sp -> sp.(o) = Encoding.i ac.
Proof.
  unfold Encoding.encodingSpecify. intros H.
  repeat (destruct (String.eqb _ _) in H); simpl in H; try discriminate; injection H as <-; reflexivity.
Qed.

Lemma parseAcceptEncoding_shape (accept : string) (acs : list Encoding.acceptEncoding) :
  Encoding.parseAcceptEncoding accept = Ok acs ->
  exists rs, parse_all_from Encoding.parseEncoding (GoStrings.split "," accept) 0 = Ok rs /\
    (acs = rs \/ exists q, acs = app rs [Encoding.mkAcceptEncoding "identity" q
                                          (Z.of_nat (length (GoStrings.split "," accept)))]).
Proof.
  unfold Encoding.parseAcceptEncoding. rewrite EncodingFacts.parse_loop_spec.
  destruct (parse_all_from Encoding.parseEncoding (GoStrings.split "," accept) 0) as [rs|];
    simpl; [|discriminate].
  intros H. injection H as <-. exists rs. split; [reflexivity|].
  destruct (existsb _ rs); simpl; [left; reflexivity|right; eexists; reflexivity].
Qed.

Lemma StronglySorted_app_last (l : list Z) (x : Z) :
  StronglySorted Z.lt l -> Forall (fun o => o < x) l -> StronglySorted Z.lt (app l [x]).
Proof.
  induction l as [|y l IH]; simpl; intros HS HF; [repeat constructor|].
  inversion HS as [|? ? HS' Hy]; subst. inversion HF as [|? ? Hyx HF']; subst.
  constructor; [exact (IH HS' HF')|]. apply Forall_app. split; [exact Hy|]. constructor; [exact Hyx|constructor].
Qed.

Lemma increasing_of_sorted (lo : Z) (os : list Z) :
  StronglySorted Z.lt os -> Forall (fun o => lo < o < 2 ^ 63 - 1) os ->
  increasing_from lo os = true.
Proof.
  revert lo. induction os as [|o os IH]; intros lo HS HF; simpl; [reflexivity|].
  inversion HS as [|? ? HS' Ho]; subst. inversion HF as [|? ? Hb HF']; subst.
  rewrite (proj2 (Z.ltb_lt lo o)) by lia. rewrite (proj2 (Z.ltb_lt o _)) by lia. simpl.
  apply IH; [exact HS'|]. apply Forall_forall. intros y Hy.
  pose proof (proj1 (Forall_forall _ _) Ho y Hy). pose proof (proj1 (Forall_forall _ _) HF' y Hy).
  simpl in *; lia.
Qed.

Lemma join_quoted_length (sep cur : string) (rest : list string) :
  (length (MediaType.join_quoted sep cur rest) <= S (length rest))%nat.
Proof.
  revert cur. induction rest as [|x rest IH]; intros cur; simpl; [lia|].
  destruct (_ =? 0); simpl; [specialize (IH x)|specialize (IH (cur ++ sep ++ x))]; lia.
Qed.

Lemma splitMediaTypes_length (accept : string) :
  (length (MediaType.splitMediaTypes accept) <= length (GoStrings.split "," accept))%nat.
Proof.
  unfold MediaType.splitMediaTypes. destruct (GoStrings.split "," accept) as [|a0 rest]; simpl; [lia|].
  apply join_quoted_length.
Qed.

End OrderFacts.

(** ** Entry orders and the priority of a candidate over a parsed header *)
Module OrderExtras.
Import Common PriorityFacts OrderFacts.
Local Open Scope Z_scope.

Lemma bounded_increasing (os : list Z) (n : Z) :
  StronglySorted Z.lt os -> Forall (fun o => 0 <= o <= n) os -> n < 2 ^ 63 - 1 ->
  increasing_from (-1) os = true.
Proof.
  intros HS HF Hn. apply increasing_of_sorted; [exact HS|].
  eapply Forall_impl; [exact HF|]. intros x Hx. simpl in *. lia.
Qed.

Lemma Forall_lt_le (os : list Z) (n : Z) :
  Forall (fun o => 0 <= o < n) os -> Forall (fun o => 0 <= o <= n) os.
Proof. intros H. eapply Forall_impl; [exact H|]. intros x Hx. simpl in *. lia. Qed.

Lemma encoding_orders (accept : string) (acs : list Encoding.acceptEncoding) :
  Encoding.parseAcceptEncoding accept = Ok acs ->
  StronglySorted Z.lt (map Encoding.i acs) /\
  Forall (fun o => 0 <= o <= Z.of_nat (length (GoStrings.split "," accept))) (map Encoding.i acs).
Proof.
  intros H. destruct (parseAcceptEncoding_shape accept acs H) as [rs [Hrs [->|[q ->]]]];
    destruct (parse_all_from_orders _ Encoding.i _ _ _ parseEncoding_i Hrs) as [HS HF];
    simpl in HF.
  - split; [exact HS|]. apply Forall_lt_le. exact HF.
  - rewrite map_app. simpl. split.
    + apply StronglySorted_app_last; [exact HS|].
      eapply Forall_impl; [exact HF|]. intros x Hx. simpl in *. lia.
    + apply Forall_app. split; [apply Forall_lt_le; exact HF|].
      constructor; [simpl; lia|constructor].
Qed.

(** X7: the entries of a parsed header keep the order of their segments:
    their orders strictly increase and lie in [[0, n)] for the [n]
    comma-separated segments of the header (for media types, the
    quote-aware pieces of splitMediaTypes); the identity entry that
    parseAcceptEncoding may append has order [n]. *)
Theorem parsed_entry_orders (accept : string) :
  (forall acs, Charset.parseAcceptCharset accept = Ok acs ->
     StronglySorted Z.lt (map Charset.i acs) /\
     Forall (fun o => 0 <= o < Z.of_nat (length (GoStrings.split "," accept))) (map Charset.i acs)) /\
  (forall acs, Language.parseAcceptLanguage accept = Ok acs ->
     StronglySorted Z.lt (map Language.i acs) /\
     Forall (fun o => 0 <= o < Z.of_nat (length (GoStrings.split "," accept))) (map Language.i acs)) /\
  (forall acs, Encoding.parseAcceptEncoding accept = Ok acs ->
     StronglySorted Z.lt (map Encoding.i acs) /\
     exists rs,
       Forall (fun o => 0 <= o < Z.of_nat (length (GoStrings.split "," accept))) (map Encoding.i rs) /\
       (acs = rs \/
        exists q, acs = app rs [Encoding.mkAcceptEncoding "identity" q
                                  (Z.of_nat (length (GoStrings.split "," accept)))])) /\
  (StronglySorted Z.lt (map MediaType.i (MediaType.parseAcceptMediaType accept)) /\
   Forall (fun o => 0 <= o < Z.of_nat (length (MediaType.splitMediaTypes accept)))
     (map MediaType.i (MediaType.parseAcceptMediaType accept))).
Proof.
  split; [|split; [|split]].
  - intros acs H. exact (parse_all_from_orders _ Charset.i _ _ _ parseCharset_i H).
  - intros acs H. exact (parse_all_from_orders _ Language.i _ _ _ parseLanguage_i H).
  - intros acs H. split; [exact (proj1 (encoding_orders accept acs H))|].
    destruct (parseAcceptEncoding_shape accept acs H) as [rs [Hrs Hacs]].
    exists rs. split; [|exact Hacs].
    exact (proj2 (parse_all_from_orders _ Encoding.i _ _ _ parseEncoding_i Hrs)).
  - exact (media_parse_all_from_orders _ 0).
Qed.

(** X8: on the entries of a parsed header with fewer than [2^63 - 1]
    segments, getCharsetPriority, getEncodingPriority, getMediaTypePriority
    and getLanguagePriority (when reparsing the candidate does not panic)
    give the match of the last entry that matches the candidate, and the
    no-match value when none does. *)
Theorem parsed_priority_last_match (accept v : string) (index : Z) :
  Z.of_nat (length (GoStrings.split "," accept)) < 2 ^ 63 - 1 ->
  (forall acs, Charset.parseAcceptCharset accept = Ok acs ->
     Charset.getCharsetPriority v acs index =
     default no_match (last_match (fun ac => Charset.charsetSpecify v ac index) acs)) /\
  (forall acs, Encoding.parseAcceptEncoding accept = Ok acs ->
     Encoding.getEncodingPriority v acs index =
     default no_match (last_match (fun ac => Encoding.encodingSpecify v ac index) acs)) /\
  (MediaType.getMediaTypePriority v (MediaType.parseAcceptMediaType accept) index =
   default no_match (last_match (fun ac => MediaType.mediaTypeSpecify v ac index)
                       (MediaType.parseAcceptMediaType accept))) /\
  (forall acs, Language.parseAcceptLanguage accept = Ok acs ->
     Language.parseLanguage v index <> Panic ->
     Language.getLanguagePriority v acs index =
     Ok (default no_match (last_match (languageMatch v index) acs))).
Proof.
  intros Hn.
  assert (Hc : forall acs, Charset.parseAcceptCharset accept = Ok acs ->
     StronglySorted Z.lt (map Charset.i acs) /\
     Forall (fun o => 0 <= o < Z.of_nat (length (GoStrings.split "," accept))) (map Charset.i acs))
    by (intros acs H; exact (parse_all_from_orders _ Charset.i _ _ _ parseCharset_i H)).
  assert (Hl : forall acs, Language.parseAcceptLanguage accept = Ok acs ->
     StronglySorted Z.lt (map Language.i acs) /\
     Forall (fun o => 0 <= o < Z.of_nat (length (GoStrings.split "," accept))) (map Language.i acs))
    by (intros acs H; exact (parse_all_from_orders _ Language.i _ _ _ parseLanguage_i H)).
  pose proof (encoding_orders accept) as He.
  destruct (media_parse_all_from_orders (MediaType.splitMediaTypes accept) 0) as [HmS HmF].
  split; [|split; [|split]].
  - intros acs H. destruct (Hc acs H) as [HS HF]. unfold Charset.getCharsetPriority.
    rewrite (priority_fold_last _ Charset.i); [| |simpl; lia|].
    + destruct (last_match _ _); reflexivity.
    + intros ac sp. apply charsetSpecify_o.
    + apply (bounded_increasing _ _ HS (Forall_lt_le _ _ HF) Hn).
  - intros acs H. destruct (He acs H) as [HS HF]. unfold Encoding.getEncodingPriority.
    rewrite (priority_fold_last _ Encoding.i); [| |simpl; lia|].
    + destruct (last_match _ _); reflexivity.
    + intros ac sp. apply encodingSpecify_o.
    + apply (bounded_increasing _ _ HS HF Hn).
  - unfold MediaType.getMediaTypePriority.
    rewrite (priority_fold_last _ MediaType.i); [| |simpl; lia|].
    + destruct (last_match _ _); reflexivity.
    + intros ac sp. apply mediaTypeSpecify_o.
    + apply (bounded_increasing _ (Z.of_nat (length (GoStrings.split "," accept))) HmS); [|exact Hn].
      pose proof (splitMediaTypes_length accept).
      eapply Forall_impl; [exact HmF|]. intros x Hx. simpl in *. lia.
  - intros acs H Hp. destruct (Hl acs H) as [HS HF]. unfold Language.getLanguagePriority.
    rewrite (priority_loop_match _ _ _ _ Hp).
    rewrite (priority_fold_last _ Language.i); [| |simpl; lia|].
    + destruct (last_match _ _); reflexivity.
    + intros ac sp. apply languageMatch_o.
    + apply (bounded_increasing _ _ HS (Forall_lt_le _ _ HF) Hn).
Qed.

Lemma parsed_priority_last_match_witness :
  Z.of_nat (length (GoStrings.split "," "gzip, *;q=0.5")) < 2 ^ 63 - 1 /\
  Encoding.getEncodingPriority "gzip"
    (match Encoding.parseAcceptEncoding "gzip, *;q=0.5" with Ok acs => acs | Panic => [] end) 0 =
  default no_match (last_match (fun ac => Encoding.encodingSpecify "gzip" ac 0)
    (match Encoding.parseAcceptEncoding "gzip, *;q=0.5" with Ok acs => acs | Panic => [] end)).
Proof.
  assert (Hn : Z.of_nat (length (GoStrings.split "," "gzip, *;q=0.5")) < 2 ^ 63 - 1)
    by (vm_compute; reflexivity).
  split; [exact Hn|].
  destruct (Encoding.parseAcceptEncoding "gzip, *;q=0.5") as [acs|] eqn:E; [|reflexivity].
  exact (proj1 (proj2 (parsed_priority_last_match "gzip, *;q=0.5" "gzip" 0 Hn)) acs E).
Defined.

End OrderExtras.

(** ** textproto.CanonicalMIMEHeaderKey and the header lookup *)
Module HeaderKeyFacts.
Import NegotiatorAPI.

(** one byte of the rewriting loop of [canonicalMIMEHeaderKey] *)
Definition canon_byte (upper : bool) (c : ascii) : ascii :=
  if upper && is_lower c then ascii_of_nat (nat_of_ascii c - 32)
  else if negb upper && is_upper c then ascii_of_nat (nat_of_ascii c + 32)
  else c.

Definition token_key (s : string) : bool := forallb validHeaderFieldByte (list_ascii_of_string s).

Lemma canonical_loop_cons (u : bool) (c : ascii) (a : string) :
  canonical_loop u (String c a) = String (canon_byte u c) (canonical_loop (Ascii.eqb (canon_byte u c) "-") a).
Proof. reflexivity. Qed.

Ltac all_bytes c := destruct c as [[] [] [] [] [] [] [] []]; reflexivity.

Lemma valid_lower (c : ascii) :
  validHeaderFieldByte (GoStrings.lower_byte c) = validHeaderFieldByte c.
Proof. all_bytes c. Qed.

Lemma canon_byte_lower (u : bool) (c : ascii) : canon_byte u (GoStrings.lower_byte c) = canon_byte u c.
Proof. destruct u; all_bytes c. Qed.

Lemma canon_byte_valid (u : bool) (c : ascii) :
  validHeaderFieldByte (canon_byte u c) = validHeaderFieldByte c.
Proof. destruct u; all_bytes c. Qed.

Lemma lower_canon_byte (u : bool) (c : ascii) :
  GoStrings.lower_byte (canon_byte u c) = GoStrings.lower_byte c.
Proof. destruct u; all_bytes c. Qed.

Lemma canon_byte_canonical (u : bool) (c : ascii) :
  (u && is_lower (canon_byte u c)) = false /\ (negb u && is_upper (canon_byte u c)) = false.
Proof. destruct u; destruct c as [[] [] [] [] [] [] [] []]; split; reflexivity. Qed.

Lemma canon_byte_fixed (u : bool) (c : ascii) :
  (u && is_lower c) = false -> (negb u && is_upper c) = false -> canon_byte u c = c.
Proof. unfold canon_byte. intros H1 H2. rewrite H1, H2. reflexivity. Qed.

Lemma token_key_cons (c : ascii) (s : string) :
  token_key (String c s) = validHeaderFieldByte c && token_key s.
Proof. reflexivity. Qed.

Lemma token_key_ToLower (s : string) : token_key (GoStrings.ToLower s) = token_key s.
Proof.
  induction s as [|c s IH]; [reflexivity|].
  change (GoStrings.ToLower (String c s)) with (String (GoStrings.lower_byte c) (GoStrings.ToLower s)).
  rewrite !token_key_cons, valid_lower, IH. reflexivity.
Qed.

Lemma canonical_loop_ToLower (u : bool) (s : string) :
  canonical_loop u (GoStrings.ToLower s) = canonical_loop u s.
Proof.
  revert u. induction s as [|c s IH]; intros u; [reflexivity|].
  change (GoStrings.ToLower (String c s)) with (String (GoStrings.lower_byte c) (GoStrings.ToLower s)).
  rewrite !canonical_loop_cons, canon_byte_lower, IH. reflexivity.
Qed.

Lemma ToLower_canonical_loop (u : bool) (s : string) :
  GoStrings.ToLower (canonical_loop u s) = GoStrings.ToLower s.
Proof.
  revert u. induction s as [|c s IH]; intros u; [reflexivity|].
  rewrite canonical_loop_cons.
  change (GoStrings.ToLower (String ?x ?y)) with (String (GoStrings.lower_byte x) (GoStrings.ToLower y)).
  rewrite lower_canon_byte, IH. reflexivity.
Qed.

Lemma token_key_canonical_loop (u : bool) (s : string) :
  token_key (canonical_loop u s) = token_key s.
Proof.
  revert u. induction s as [|c s IH]; intros u; [reflexivity|].
  rewrite canonical_loop_cons, !token_key_cons, canon_byte_valid, IH. reflexivity.
Qed.

Lemma needs_canonical_loop (u : bool) (s : string) :
  token_key s = true -> needs_canonical u (canonical_loop u s) = false.
Proof.
  revert u. induction s as [|c s IH]; intros u H; [reflexivity|].
  rewrite token_key_cons in H. apply andb_prop in H as [Hc Hs].
  rewrite canonical_loop_cons. simpl needs_canonical.
  rewrite canon_byte_valid, Hc. destruct (canon_byte_canonical u c) as [H1 H2].
  rewrite H1, H2. simpl. apply IH. exact Hs.
Qed.

Lemma canonical_loop_fixed (u : bool) (s : string) :
  token_key s = true -> needs_canonical u s = false -> canonical_loop u s = s.
Proof.
  revert u. induction s as [|c s IH]; intros u H Hn; [reflexivity|].
  rewrite token_key_cons in H. apply andb_prop in H as [Hc Hs].
  simpl in Hn. rewrite Hc in Hn. simpl in Hn.
  destruct (u && is_lower c) eqn:H1; [discriminate|].
  destruct (negb u && is_upper c) eqn:H2; [discriminate|].
  rewrite canonical_loop_cons, (canon_byte_fixed u c H1 H2), IH by assumption. reflexivity.
Qed.

Lemma Canonical_token (s : string) :
  token_key s = true -> CanonicalMIMEHeaderKey s = canonical_loop true s.
Proof.
  intros H. unfold CanonicalMIMEHeaderKey, canonicalMIMEHeaderKey.
  fold (token_key s). rewrite H.
  destruct (needs_canonical true s) eqn:E; [reflexivity|].
  symmetry. apply canonical_loop_fixed; assumption.
Qed.

Lemma Canonical_not_token (s : string) :
  token_key s = false -> CanonicalMIMEHeaderKey s = s.
Proof.
  intros H. unfold CanonicalMIMEHeaderKey, canonicalMIMEHeaderKey.
  fold (token_key s). rewrite H. destruct (needs_canonical true s); reflexivity.
Qed.

Lemma Canonical_ToLower (s1 s2 : string) :
  token_key s1 = true -> GoStrings.ToLower s1 = GoStrings.ToLower s2 ->
  CanonicalMIMEHeaderKey s1 = CanonicalMIMEHeaderKey s2.
Proof.
  intros H1 Hl.
  assert (H2 : token_key s2 = true) by (rewrite <- token_key_ToLower, <- Hl, token_key_ToLower; exact H1).
  rewrite (Canonical_token s1 H1), (Canonical_token s2 H2).
  rewrite <- (canonical_loop_ToLower true s1), Hl, canonical_loop_ToLower. reflexivity.
Qed.

End HeaderKeyFacts.

(** ** Properties of the header key and of the header lookup *)
Module HeaderExtras.
Import NegotiatorAPI HeaderKeyFacts.

(** X9: CanonicalMIMEHeaderKey returns a key holding a byte outside the
    token bytes unchanged; it is idempotent; it only changes the case of
    letters; and two token keys that are equal ignoring ASCII case get the
    same canonical key. *)
Theorem CanonicalMIMEHeaderKey_spec :
  (forall s, forallb validHeaderFieldByte (list_ascii_of_string s) = false ->
     CanonicalMIMEHeaderKey s = s) /\
  (forall s, CanonicalMIMEHeaderKey (CanonicalMIMEHeaderKey s) = CanonicalMIMEHeaderKey s) /\
  (forall s, GoStrings.ToLower (CanonicalMIMEHeaderKey s) = GoStrings.ToLower s) /\
  (forall s1 s2, forallb validHeaderFieldByte (list_ascii_of_string s1) = true ->
     GoStrings.ToLower s1 = GoStrings.ToLower s2 ->
     CanonicalMIMEHeaderKey s1 = CanonicalMIMEHeaderKey s2).
Proof.
  split; [|split; [|split]].
  - exact Canonical_not_token.
  - intros s. destruct (token_key s) eqn:H.
    + rewrite (Canonical_token s H).
      assert (H' : token_key (canonical_loop true s) = true) by (rewrite token_key_canonical_loop; exact H).
      rewrite (Canonical_token _ H'). apply canonical_loop_fixed; [exact H'|].
      apply needs_canonical_loop. exact H.
    + rewrite (Canonical_not_token s H). apply Canonical_not_token. exact H.
  - intros s. destruct (token_key s) eqn:H.
    + rewrite (Canonical_token s H). apply ToLower_canonical_loop.
    + rewrite (Canonical_not_token s H). reflexivity.
  - exact Canonical_ToLower.
Qed.

(** X10: the header lookup ignores the case of a token key: two such keys
    equal ignoring case find the same values in any header, and values
    stored under the canonical form of one are found with the other. *)
Theorem getHeaderValues_case_insensitive (k1 k2 : string) :
  forallb validHeaderFieldByte (list_ascii_of_string k1) = true ->
  GoStrings.ToLower k1 = GoStrings.ToLower k2 ->
  (forall h, getHeaderValues h k1 = getHeaderValues h k2) /\
  (forall m v, getHeaderValues (Some (<[CanonicalMIMEHeaderKey k1 := v]> m)) k2 = v).
Proof.
  intros Ht Hl. pose proof (Canonical_ToLower k1 k2 Ht Hl) as Hc. split.
  - intros [m|]; [|reflexivity]. unfold getHeaderValues. rewrite Hc. reflexivity.
  - intros m v. unfold getHeaderValues. rewrite <- Hc, lookup_insert_eq. reflexivity.
Qed.

Lemma getHeaderValues_case_insensitive_witness :
  (forall h, getHeaderValues h "accept-charset" = getHeaderValues h "ACCEPT-CHARSET") /\
  (forall m v, getHeaderValues (Some (<[CanonicalMIMEHeaderKey "accept-charset" := v]> m))
                 "ACCEPT-CHARSET" = v).
Proof.
  apply getHeaderValues_case_insensitive; vm_compute; reflexivity.
Defined.

End HeaderExtras.

(** ** The candidates kept by a header of one entry *)
Module DefaultFacts.
Import Common CommonFacts SelectorFacts ResultsFacts NegotiatorAPI.
Local Open Scope Z_scope.

Lemma quality_positions_from_S (ps : list specificity) (off : nat) :
  quality_positions_from ps (S off) = map S (quality_positions_from ps off).
Proof.
  revert off. induction ps as [|v ps IH]; intros off; [reflexivity|]. simpl.
  rewrite !IH. destruct (isSpecificityQuality v); reflexivity.
Qed.

(** the candidates at the positions of positive quality *)
Lemma quality_positions_filter (g : string -> Z -> specificity) (f : string -> bool)
    (l : list string) (k : Z) :
  (forall v k, isSpecificityQuality (g v k) = f v) ->
  map (fun j => nth j l "") (quality_positions_from (imap_from g l k) 0) = List.filter f l.
Proof.
  intros Hg. revert k. induction l as [|a l IH]; intros k; [reflexivity|]. simpl.
  rewrite Hg, quality_positions_from_S.
  destruct (f a); simpl; rewrite map_map; simpl; rewrite IH; reflexivity.
Qed.

Lemma filter_true (l : list string) : List.filter (fun _ => true) l = l.
Proof. induction l as [|a l IH]; simpl; [reflexivity|rewrite IH; reflexivity]. Qed.

Lemma filter_none_positive (g : string -> Z -> specificity) (l : list string) (k : Z) :
  (forall v k, isSpecificityQuality (g v k) = false) ->
  List.filter isSpecificityQuality (imap_from g l k) = [].
Proof.
  intros Hg. revert k. induction l as [|a l IH]; intros k; [reflexivity|]. simpl.
  rewrite Hg. apply IH.
Qed.

(** [results] on a permutation of the filtered priorities gives a
    permutation of the candidates that [f] keeps *)
Lemma results_filter (g : string -> Z -> specificity) (f : string -> bool)
    (provided : list string) (sorted : list specificity) :
  indexed (imap g provided) ->
  (forall v k, isSpecificityQuality (g v k) = f v) ->
  Permutation (List.filter isSpecificityQuality (imap g provided)) sorted ->
  exists r, results (imap g provided) sorted provided = Ok r /\ Permutation r (List.filter f provided).
Proof.
  intros Hidx Hg Hp.
  destruct (results_ok (imap g provided) sorted provided Hidx (imap_from_length _ _ _) Hp)
    as [idx [Hi Hr]].
  exists (map (fun k => nth k provided "") idx). split; [exact Hr|].
  rewrite <- (quality_positions_filter g f provided 0 Hg).
  apply Permutation_map. exact Hi.
Qed.

Lemma getAccept_none (h : httpHeader) (key d : string) :
  getHeaderValues h key = None -> getAccept h key d = d.
Proof. unfold getAccept. intros ->. reflexivity. Qed.

Lemma getAccept_some (h : httpHeader) (key d : string) (values : list string) :
  getHeaderValues h key = Some values -> getAccept h key d = GoStrings.Join values ",".
Proof. unfold getAccept. intros ->. reflexivity. Qed.

Lemma parseAcceptCharset_star :
  Charset.parseAcceptCharset "*" = Ok [Charset.mkAcceptCharset "*" Float64.one 0].
Proof. vm_compute. reflexivity. Qed.

Lemma parseAcceptEncoding_star :
  Encoding.parseAcceptEncoding "*" = Ok [Encoding.mkAcceptEncoding "*" Float64.one 0].
Proof. vm_compute. reflexivity. Qed.

Lemma parseAcceptEncoding_empty :
  Encoding.parseAcceptEncoding "" = Ok [Encoding.mkAcceptEncoding "identity" Float64.one 1].
Proof. vm_compute. reflexivity. Qed.

Lemma charset_star_positive (v : string) (k : Z) :
  isSpecificityQuality (Charset.getCharsetPriority v [Charset.mkAcceptCharset "*" Float64.one 0] k) = true.
Proof.
  unfold Charset.getCharsetPriority, Charset.charsetSpecify. cbn [fold_left Charset.charset].
  destruct (String.eqb _ _); vm_compute; reflexivity.
Qed.

Lemma encoding_star_positive (v : string) (k : Z) :
  isSpecificityQuality (Encoding.getEncodingPriority v [Encoding.mkAcceptEncoding "*" Float64.one 0] k) = true.
Proof.
  unfold Encoding.getEncodingPriority, Encoding.encodingSpecify. cbn [fold_left Encoding.encoding].
  destruct (String.eqb _ _); vm_compute; reflexivity.
Qed.

Lemma encoding_identity_positive (v : string) (k : Z) :
  isSpecificityQuality
    (Encoding.getEncodingPriority v [Encoding.mkAcceptEncoding "identity" Float64.one 1] k) =
  String.eqb (GoStrings.ToLower v) "identity".
Proof.
  unfold Encoding.getEncodingPriority, Encoding.encodingSpecify. cbn [fold_left Encoding.encoding].
  change (GoStrings.ToLower "identity") with "identity".
  rewrite String.eqb_sym. destruct (String.eqb _ _); vm_compute; reflexivity.
Qed.

Lemma no_entry_priority_charset (v : string) (k : Z) :
  isSpecificityQuality (Charset.getCharsetPriority v [] k) = false.
Proof. reflexivity. Qed.

Lemma no_entry_priority_mediatype (v : string) (k : Z) :
  isSpecificityQuality (MediaType.getMediaTypePriority v [] k) = false.
Proof. reflexivity. Qed.

Lemma specificities_from_no_entry (types : list string) (k : Z) :
  Language.specificities_from types [] k = Ok (imap_from (fun _ _ => no_match) types k).
Proof.
  revert k. induction types as [|v types IH]; intros k; [reflexivity|]. simpl. rewrite IH. reflexivity.
Qed.

Lemma Sort_nil {T} (less : T -> T -> bool) : GoSort.Sort less [] = [].
Proof. apply Permutation_nil. apply GoSortFacts.Sort_perm. Qed.

End DefaultFacts.

(** ** What the Negotiator returns without a header, or with an empty one *)
Module DefaultExtras.
Import Common CommonFacts SelectorFacts ResultsFacts NegotiatorAPI DefaultFacts.
Local Open Scope Z_scope.

Lemma most_preferred_in (r available : list string) :
  Permutation r available -> available <> [] -> In (getMostPreferred r) available.
Proof.
  intros Hp Hne. destruct r as [|x r].
  - apply Permutation_nil in Hp. congruence.
  - simpl. apply (Permutation_in x Hp). left. reflexivity.
Qed.

Lemma charsets_no_header (n : Negotiator) (available : list string) :
  getHeaderValues n.(Header) HeaderAcceptCharset = None -> available <> [] ->
  exists r, Charsets n available = Ok r /\ Permutation r available.
Proof.
  intros H Hne. unfold Charsets. rewrite (getAccept_none _ _ _ H).
  unfold Charset.PreferredCharsets. rewrite parseAcceptCharset_star. cbn [rbind].
  destruct available as [|a rest]; [congruence|].
  destruct (results_filter (fun v k => Charset.getCharsetPriority v [Charset.mkAcceptCharset "*" Float64.one 0] k)
              (fun _ => true) (a :: rest)
              (GoSort.Sort specificityLess (List.filter isSpecificityQuality
                 (Charset.getCharsetSpecificities (a :: rest) [Charset.mkAcceptCharset "*" Float64.one 0]))))
    as [r [Hr Hp]].
  - apply (imap_priorities_indexed (fun v ac k => Charset.charsetSpecify v ac k)). apply charsetSpecify_i.
  - apply charset_star_positive.
  - apply GoSortFacts.Sort_perm.
  - exists r. rewrite filter_true in Hp. split; [exact Hr|exact Hp].
Qed.

Lemma encodings_no_header (n : Negotiator) (available : list string) :
  getHeaderValues n.(Header) HeaderAcceptEncoding = None -> available <> [] ->
  exists r, Encodings n available = Ok r /\ Permutation r available.
Proof.
  intros H Hne. unfold Encodings. rewrite (getAccept_none _ _ _ H).
  unfold Encoding.PreferredEncodings. rewrite parseAcceptEncoding_star. cbn [rbind].
  destruct available as [|a rest]; [congruence|].
  destruct (results_filter (fun v k => Encoding.getEncodingPriority v [Encoding.mkAcceptEncoding "*" Float64.one 0] k)
              (fun _ => true) (a :: rest)
              (GoSort.Sort compareSpecs (List.filter isSpecificityQuality
                 (Encoding.getEncodingSpecificities (a :: rest) [Encoding.mkAcceptEncoding "*" Float64.one 0]))))
    as [r [Hr Hp]].
  - apply (imap_priorities_indexed (fun v ac k => Encoding.encodingSpecify v ac k)). apply encodingSpecify_i.
  - apply encoding_star_positive.
  - apply GoSortFacts.Sort_perm.
  - exists r. rewrite filter_true in Hp. split; [exact Hr|exact Hp].
Qed.

(** X11: without an Accept-Charset (resp. Accept-Encoding) header the
    Negotiator takes the header as "*": Charsets (resp. Encodings) with no
    candidates returns ["*"], and with candidates returns all of them, each
    once, in some order; Charset (resp. Encoding) then returns one of the
    candidates. *)
Theorem no_header_accepts_all (n : Negotiator) (available : list string) :
  (getHeaderValues n.(Header) HeaderAcceptCharset = None ->
     (available = [] -> Charsets n available = Ok ["*"]) /\
     (available <> [] -> exists r, Charsets n available = Ok r /\ Permutation r available /\
        Charset n available = Ok (getMostPreferred r) /\ In (getMostPreferred r) available)) /\
  (getHeaderValues n.(Header) HeaderAcceptEncoding = None ->
     (available = [] -> Encodings n available = Ok ["*"]) /\
     (available <> [] -> exists r, Encodings n available = Ok r /\ Permutation r available /\
        Encoding n available = Ok (getMostPreferred r) /\ In (getMostPreferred r) available)).
Proof.
  split; intros H; split.
  - intros ->. unfold Charsets. rewrite (getAccept_none _ _ _ H). vm_compute. reflexivity.
  - intros Hne. destruct (charsets_no_header n available H Hne) as [r [Hr Hp]].
    exists r. split; [exact Hr|split; [exact Hp|split]].
    + unfold Charset. rewrite Hr. reflexivity.
    + exact (most_preferred_in r available Hp Hne).
  - intros ->. unfold Encodings. rewrite (getAccept_none _ _ _ H). vm_compute. reflexivity.
  - intros Hne. destruct (encodings_no_header n available H Hne) as [r [Hr Hp]].
    exists r. split; [exact Hr|split; [exact Hp|split]].
    + unfold Encoding. rewrite Hr. reflexivity.
    + exact (most_preferred_in r available Hp Hne).
Qed.

(** X12: a header that is present but empty (its values join to the empty
    string) accepts nothing: Charsets, Languages and MediaTypes return an
    empty list whatever the candidates; for Accept-Encoding only the
    implicit identity entry remains, so Encodings returns ["identity"]
    without candidates and otherwise the candidates equal to "identity"
    ignoring case, each once, in some order. *)
Theorem empty_header_value (n : Negotiator) (available : list string) :
  (forall values, getHeaderValues n.(Header) HeaderAcceptCharset = Some values ->
     GoStrings.Join values "," = "" -> Charsets n available = Ok []) /\
  (forall values, getHeaderValues n.(Header) HeaderAcceptLanguage = Some values ->
     GoStrings.Join values "," = "" -> Languages n available = Ok []) /\
  (forall values, getHeaderValues n.(Header) HeaderAccept = Some values ->
     GoStrings.Join values "," = "" -> MediaTypes n available = Ok []) /\
  (forall values, getHeaderValues n.(Header) HeaderAcceptEncoding = Some values ->
     GoStrings.Join values "," = "" ->
     (available = [] -> Encodings n available = Ok ["identity"]) /\
     (available <> [] -> exists r, Encodings n available = Ok r /\
        Permutation r (List.filter (fun a => String.eqb (GoStrings.ToLower a) "identity") available))).
Proof.
  split; [|split; [|split]]; intros values H Hj.
  - unfold Charsets. rewrite (getAccept_some _ _ _ _ H), Hj.
    unfold Charset.PreferredCharsets.
    replace (Charset.parseAcceptCharset "") with (Ok (@nil Charset.acceptCharset))
      by (vm_compute; reflexivity).
    cbn [rbind]. destruct available as [|a rest]; [vm_compute; reflexivity|].
    unfold Charset.getCharsetSpecificities, imap.
    rewrite filter_none_positive by (intros; reflexivity). rewrite Sort_nil. reflexivity.
  - unfold Languages. rewrite (getAccept_some _ _ _ _ H), Hj.
    unfold Language.PreferredLanguages.
    replace (Language.parseAcceptLanguage "") with (Ok (@nil Language.acceptLanguage))
      by (vm_compute; reflexivity).
    cbn [rbind]. destruct available as [|a rest]; [vm_compute; reflexivity|].
    unfold Language.getLanguageSpecificities. rewrite specificities_from_no_entry. cbn [rbind].
    rewrite filter_none_positive by (intros; reflexivity). rewrite Sort_nil. reflexivity.
  - unfold MediaTypes. rewrite (getAccept_some _ _ _ _ H), Hj.
    unfold MediaType.PreferredMediaTypes.
    replace (MediaType.parseAcceptMediaType "") with (@nil MediaType.acceptMediaType)
      by (vm_compute; reflexivity).
    destruct available as [|a rest]; [vm_compute; reflexivity|].
    unfold MediaType.getMediaTypeSpecificities, imap.
    rewrite filter_none_positive by (intros; reflexivity). rewrite Sort_nil. reflexivity.
  - unfold Encodings. rewrite (getAccept_some _ _ _ _ H), Hj.
    unfold Encoding.PreferredEncodings. rewrite parseAcceptEncoding_empty. cbn [rbind].
    split; [intros ->; vm_compute; reflexivity|intros Hne].
    destruct available as [|a rest]; [congruence|].
    apply (results_filter (fun v k => Encoding.getEncodingPriority v [Encoding.mkAcceptEncoding "identity" Float64.one 1] k)).
    + apply (imap_priorities_indexed (fun v ac k => Encoding.encodingSpecify v ac k)). apply encodingSpecify_i.
    + apply encoding_identity_positive.
    + apply GoSortFacts.Sort_perm.
Qed.

End DefaultExtras.

(** ** The parameters of a media-type entry *)
Module MediaMatchFacts.
Import MediaType.

(** [every(getMapKeys(m), f)] with [f] reading [m[k]]: whatever the order
    of the keys, it holds when every binding of the map satisfies [f] *)
Lemma every_keys (m : gmap string string) (g : string -> string -> bool) :
  every (getMapKeys m) (fun k => g k (lookup_str m k)) = true <-> map_Forall (fun k x => g k x = true) m.
Proof.
  unfold every, getMapKeys. split.
  - intros H k x Hk.
    assert (Hin : In k (map fst (map_to_list m))).
    { apply in_map_iff. exists (k, x). split; [reflexivity|].
      apply list_elem_of_In. apply elem_of_map_to_list. exact Hk. }
    pose proof (proj1 (forallb_forall _ _) H k Hin) as Hg. simpl in Hg.
    unfold lookup_str in Hg. rewrite Hk in Hg. exact Hg.
  - intros H. apply forallb_forall. intros k Hin.
    apply in_map_iff in Hin as [[k' x] [Hk Hin]]. simpl in Hk. subst k'.
    apply list_elem_of_In, elem_of_map_to_list in Hin.
    unfold lookup_str. rewrite Hin. exact (H _ _ Hin).
Qed.

(** the parameter check of mediaTypeSpecify, as a property of the map *)
Lemma params_check_iff (m pm : gmap string string) :
  (if (0 <? Z.of_nat (length (getMapKeys m)))%Z then
     every (getMapKeys m) (fun k => String.eqb (lookup_str m k) "*"
             || String.eqb (GoStrings.ToLower (lookup_str m k)) (GoStrings.ToLower (lookup_str pm k)))
   else true) = true <->
  map_Forall (fun k x => x = "*" \/ GoStrings.ToLower x = GoStrings.ToLower (lookup_str pm k)) m.
Proof.
  assert (E : every (getMapKeys m) (fun k => String.eqb (lookup_str m k) "*"
             || String.eqb (GoStrings.ToLower (lookup_str m k)) (GoStrings.ToLower (lookup_str pm k))) = true <->
              map_Forall (fun k x => x = "*" \/ GoStrings.ToLower x = GoStrings.ToLower (lookup_str pm k)) m).
  { rewrite (every_keys m (fun k x => String.eqb x "*"
                || String.eqb (GoStrings.ToLower x) (GoStrings.ToLower (lookup_str pm k)))).
    split; intros H; eapply map_Forall_impl; try exact H; intros k x Hx; simpl in *.
    - apply orb_true_iff in Hx as [Hx|Hx]; apply String.eqb_eq in Hx; auto.
    - apply orb_true_iff. destruct Hx as [Hx|Hx]; [left|right]; apply String.eqb_eq; exact Hx. }
  destruct (0 <? Z.of_nat (length (getMapKeys m)))%Z eqn:E3; [exact E|].
  split; [intros _|intros _; reflexivity]. apply E. unfold every.
  destruct (getMapKeys m) as [|k ks] eqn:Ek; [reflexivity|].
  apply Z.ltb_ge in E3. simpl in E3. lia.
Qed.

End MediaMatchFacts.

Module MediaMatchExtras.
Import MediaType MediaMatchFacts.

Lemma mediaTypeSpecify_chain (ac p : acceptMediaType) (index : Z) :
  (let lower := GoStrings.ToLower in
   let s := 0%Z in
   let s_type :=
     if String.eqb (lower ac.(mainType)) (lower p.(mainType)) then Some (Z.lor s 4)
     else if negb (String.eqb ac.(mainType) "*") then None else Some s in
   match s_type with
   | None => None
   | Some s =>
   let s_sub :=
     if String.eqb (lower ac.(subtype)) (lower p.(subtype)) then Some (Z.lor s 2)
     else if negb (String.eqb ac.(subtype) "*") then None else Some s in
   match s_sub with
   | None => None
   | Some s =>
   let keys := getMapKeys ac.(params) in
   let s_params :=
     if (0 <? Z.of_nat (List.length keys))%Z then
       if every keys (fun k => String.eqb (lookup_str ac.(params) k) "*"
                             || String.eqb (lower (lookup_str ac.(params) k))
                                           (lower (lookup_str p.(params) k)))
       then Some (Z.lor s 1) else None
     else Some s in
   match s_params with
   | None => None
   | Some s => Some (Common.mkSpecificity index ac.(i) ac.(q) s)
   end end end) <> None <->
  (String.eqb (GoStrings.ToLower ac.(mainType)) (GoStrings.ToLower p.(mainType))
     || String.eqb ac.(mainType) "*") = true /\
  (String.eqb (GoStrings.ToLower ac.(subtype)) (GoStrings.ToLower p.(subtype))
     || String.eqb ac.(subtype) "*") = true /\
  (if (0 <? Z.of_nat (length (getMapKeys ac.(params))))%Z then
     every (getMapKeys ac.(params)) (fun k => String.eqb (lookup_str ac.(params) k) "*"
             || String.eqb (GoStrings.ToLower (lookup_str ac.(params) k))
                           (GoStrings.ToLower (lookup_str p.(params) k)))
   else true) = true.
Proof.
  cbv zeta.
  destruct (String.eqb (GoStrings.ToLower ac.(mainType)) (GoStrings.ToLower p.(mainType))),
    (String.eqb ac.(mainType) "*"),
    (String.eqb (GoStrings.ToLower ac.(subtype)) (GoStrings.ToLower p.(subtype))),
    (String.eqb ac.(subtype) "*"),
    (0 <? Z.of_nat (length (getMapKeys ac.(params))))%Z,
    (every (getMapKeys ac.(params)) (fun k => String.eqb (lookup_str ac.(params) k) "*"
             || String.eqb (GoStrings.ToLower (lookup_str ac.(params) k))
                           (GoStrings.ToLower (lookup_str p.(params) k))));
    cbv beta iota delta [negb orb]; intuition (first [discriminate | congruence]).
Qed.

(** X13: an entry of an Accept header matches a candidate media type
    (mediaTypeSpecify is not nil) exactly when the candidate parses, the
    entry's type and subtype each equal the candidate's ignoring case or are
    "*", and each parameter of the entry is "*" or equal ignoring case to
    the candidate's value for that key (the empty string when the candidate
    lacks it), in whatever order the map keys come. *)
Theorem mediaTypeSpecify_match (v : string) (ac : acceptMediaType) (index : Z) :
  mediaTypeSpecify v ac index <> None <->
  exists p, parseMediaType v index = Some p /\
    (GoStrings.ToLower ac.(mainType) = GoStrings.ToLower p.(mainType) \/ ac.(mainType) = "*") /\
    (GoStrings.ToLower ac.(subtype) = GoStrings.ToLower p.(subtype) \/ ac.(subtype) = "*") /\
    map_Forall (fun k x => x = "*" \/ GoStrings.ToLower x = GoStrings.ToLower (lookup_str p.(params) k))
      ac.(params).
Proof.
  unfold mediaTypeSpecify. destruct (parseMediaType v index) as [p|] eqn:Ep.
  2:{ split; [congruence|]. intros [p' [H _]]. discriminate. }
  rewrite mediaTypeSpecify_chain, params_check_iff, !orb_true_iff, !String.eqb_eq.
  split.
  - intros H. exists p. split; [reflexivity|exact H].
  - intros [p' [Hp' H]]. injection Hp' as <-. exact H.
Qed.

End MediaMatchExtras.

(** ** The no-candidate branch of the selectors *)
Module NoCandidateExtras.

(** X14: called without candidates, each selector returns the values of the
    parsed entries whose quality is > 0 (the charset, the encoding, the full
    language tag, type/subtype), each once, in some order. *)
Theorem no_candidate_values (accept : string) :
  (forall acs, Charset.parseAcceptCharset accept = Ok acs ->
     exists r, Charset.PreferredCharsets accept [] = Ok r /\
       Permutation r (Charset.toCharsets (List.filter Charset.isAcceptCharsetQuality acs))) /\
  (forall acs, Encoding.parseAcceptEncoding accept = Ok acs ->
     exists r, Encoding.PreferredEncodings accept [] = Ok r /\
       Permutation r (Encoding.toEncodings (List.filter Encoding.isAcceptEncodingQuality acs))) /\
  (forall acs, Language.parseAcceptLanguage accept = Ok acs ->
     exists r, Language.PreferredLanguages accept [] = Ok r /\
       Permutation r (Language.toLanguages (List.filter Language.isAcceptLanguageQuality acs))) /\
  (exists r, MediaType.PreferredMediaTypes accept [] = Ok r /\
     Permutation r (MediaType.toMediaTypes
       (List.filter MediaType.isAcceptMediaTypeQuality (MediaType.parseAcceptMediaType accept)))).
Proof.
  split; [|split; [|split]]; [intros acs H..|].
  - unfold Charset.PreferredCharsets. rewrite H. eexists. split; [reflexivity|].
    unfold Charset.toCharsets. apply Permutation_map. symmetry. apply GoSortFacts.Sort_perm.
  - unfold Encoding.PreferredEncodings. rewrite H. eexists. split; [reflexivity|].
    unfold Encoding.toEncodings. apply Permutation_map. symmetry. apply GoSortFacts.Sort_perm.
  - unfold Language.PreferredLanguages. rewrite H. eexists. split; [reflexivity|].
    unfold Language.toLanguages. apply Permutation_map. symmetry. apply GoSortFacts.Sort_perm.
  - unfold MediaType.PreferredMediaTypes. eexists. split; [reflexivity|].
    unfold MediaType.toMediaTypes. apply Permutation_map. symmetry. apply GoSortFacts.Sort_perm.
Qed.

End NoCandidateExtras.

(** ** The q parameter of Accept-Charset, Accept-Encoding and Accept-Language *)
Module QParamFacts.
Import Common SplitFacts.

(** [p := strings.Split(strings.Trim(param, " "), "="); p[0] == "q"] *)
Definition q_param (param : string) : bool :=
  String.eqb (hd "" (GoStrings.split "=" (GoStrings.Trim param))) "q".

Lemma slice_get_split0 (c : ascii) (s : string) :
  slice_get (GoStrings.split c s) 0 = Ok (hd "" (GoStrings.split c s)).
Proof.
  pose proof (split_nonempty c s) as H. destruct (GoStrings.split c s); [congruence|reflexivity].
Qed.

Lemma scan_q_skip (pre ps : list string) (q0 : float64) :
  forallb (fun x => negb (q_param x)) pre = true -> scan_q (pre ++ ps) q0 = scan_q ps q0.
Proof.
  induction pre as [|x pre IH]; intros H; [reflexivity|].
  simpl in H. apply andb_prop in H as [Hx H]. simpl app.
  unfold scan_q at 1; fold scan_q. cbv zeta. rewrite slice_get_split0. cbn [rbind].
  unfold q_param in Hx. destruct (String.eqb _ "q"); [discriminate|]. exact (IH H).
Qed.

End QParamFacts.

Module QParamExtras.
Import Common SplitFacts QParamFacts.

(** X15: in the parameter loop of parseCharset, parseEncoding and
    parseLanguage only the first parameter named q counts: without one the
    quality stays at its default; the parameters after it are never read; a
    bare "q" panics (index out of range); and "q=" followed by a value gives
    strconv.ParseFloat of the value up to the next '=' (a value that does
    not parse drops the entry). *)
Theorem scan_q_first_q_param :
  (forall ps q0, forallb (fun x => negb (q_param x)) ps = true -> scan_q ps q0 = Ok (Some q0)) /\
  (forall pre p post post' q0, forallb (fun x => negb (q_param x)) pre = true -> q_param p = true ->
     scan_q (pre ++ p :: post) q0 = scan_q (pre ++ p :: post') q0) /\
  (forall pre p post q0, forallb (fun x => negb (q_param x)) pre = true ->
     GoStrings.Trim p = "q" -> scan_q (pre ++ p :: post) q0 = Panic) /\
  (forall pre p v post q0, forallb (fun x => negb (q_param x)) pre = true ->
     GoStrings.Trim p = "q=" ++ v ->
     scan_q (pre ++ p :: post) q0 =
     match Float64.ParseFloat (hd "" (GoStrings.split "=" v)) with
     | None => Ok None
     | Some q1 => Ok (Some q1)
     end).
Proof.
  split; [|split; [|split]].
  - intros ps q0 H. rewrite <- (app_nil_r ps), (scan_q_skip ps [] q0 H). reflexivity.
  - intros pre p post post' q0 H Hp. rewrite !(scan_q_skip pre _ q0 H).
    unfold scan_q; fold scan_q. cbv zeta. rewrite slice_get_split0. cbn [rbind].
    unfold q_param in Hp. rewrite Hp. reflexivity.
  - intros pre p post q0 H Hp. rewrite (scan_q_skip pre _ q0 H).
    unfold scan_q; fold scan_q. cbv zeta. rewrite Hp. reflexivity.
  - intros pre p v post q0 H Hp. rewrite (scan_q_skip pre _ q0 H).
    unfold scan_q; fold scan_q. cbv zeta. rewrite Hp.
    change (GoStrings.split "=" ("q=" ++ v)) with ("q" :: GoStrings.split "=" v).
    pose proof (split_nonempty "=" v) as Hne.
    destruct (GoStrings.split "=" v) as [|w ws]; [congruence|]. reflexivity.
Qed.

End QParamExtras.

(** ** What the capture groups of the patterns hold *)
Module RegexpFacts.
Import Regexp.

(** a value matched by [[^\s...]+]: not empty, no white space, none of [excl] *)
Definition token_ok (excl : list ascii) (v : string) : Prop :=
  v <> "" /\ forall c, In c (list_ascii_of_string v) -> is_space c = false /\ ~ In c excl.

(** every group [n] of [r] is [(cls'+)] (or with a larger minimum) for a
    class [cls'] inside [cls] *)
Fixpoint good (n : nat) (cls : ascii -> bool) (r : rx) : Prop :=
  match r with
  | Cap m r1 =>
      if (m =? n)%nat then
        exists l cls', r1 = Rep l cls' /\ (1 <= l)%nat /\ forall c, cls' c = true -> cls c = true
      else good n cls r1
  | Opt r1 => good n cls r1
  | Seq r1 r2 => good n cls r1 /\ good n cls r2
  | _ => True
  end.

Definition caps_ok (n : nat) (cls : ascii -> bool) (cs : caps) : Prop :=
  forall v, In (n, v) cs -> v <> "" /\ forall c, In c (list_ascii_of_string v) -> cls c = true.

Lemma rep_try_some (least j : nat) (s : string) (cs : caps) (k : string -> caps -> option caps) res :
  rep_try least j s cs k = Some res ->
  exists j', (least <= j' <= j)%nat /\ k (substring j' (String.length s - j') s) cs = Some res.
Proof.
  induction j as [|j IH]; simpl; intros H.
  - destruct (0 <? least)%nat eqn:E; [discriminate|]. apply Nat.ltb_ge in E.
    destruct (k _ cs) eqn:Ek; [|discriminate]. exists 0%nat. split; [lia|]. rewrite Ek. exact H.
  - destruct (S j <? least)%nat eqn:E; [discriminate|]. apply Nat.ltb_ge in E.
    destruct (k (substring (S j) _ s) cs) eqn:Ek.
    + exists (S j). split; [lia|]. rewrite Ek. exact H.
    + destruct (IH H) as [j' [Hj Hk]]. exists j'. split; [lia|exact Hk].
Qed.

Lemma span_le (cls : ascii -> bool) (s : string) : (span cls s <= String.length s)%nat.
Proof. induction s as [|c s IH]; simpl; [lia|destruct (cls c); simpl; lia]. Qed.

Lemma substring_length_le (j m : nat) (s : string) :
  (j + m <= String.length s)%nat -> String.length (substring j m s) = m.
Proof.
  revert j m. induction s as [|c s IH]; intros j m H; simpl in H.
  - assert (j = 0 /\ m = 0)%nat as [-> ->] by lia. reflexivity.
  - destruct j as [|j]; simpl.
    + destruct m as [|m]; simpl; [reflexivity|]. rewrite IH; [reflexivity|lia].
    + apply IH. lia.
Qed.

Lemma prefix_span (cls : ascii -> bool) (j : nat) (s : string) :
  (j <= span cls s)%nat -> forall c, In c (list_ascii_of_string (substring 0 j s)) -> cls c = true.
Proof.
  revert j. induction s as [|d s IH]; intros j Hj c Hc; simpl in Hj.
  - destruct j; simpl in Hc; contradiction.
  - destruct j as [|j]; simpl in Hc; [contradiction|].
    destruct (cls d) eqn:Ed; simpl in Hj; [|lia].
    destruct Hc as [<-|Hc]; [exact Ed|]. apply (IH j); [lia|exact Hc].
Qed.

Lemma captured_prefix (j : nat) (s : string) :
  (j <= String.length s)%nat ->
  substring 0 (String.length s - String.length (substring j (String.length s - j) s)) s = substring 0 j s.
Proof.
  intros H. rewrite substring_length_le by lia. f_equal. lia.
Qed.

Lemma substring_nonempty (j : nat) (s : string) :
  (1 <= j <= String.length s)%nat -> substring 0 j s <> "".
Proof. destruct s as [|c s]; simpl; intros H; [lia|]. destruct j; [lia|]. discriminate. Qed.

Lemma mt_caps_ok (n : nat) (cls : ascii -> bool) (r : rx) :
  good n cls r ->
  forall n0 s cs k res,
    caps_ok n cls cs ->
    (forall s' cs' res', caps_ok n cls cs' -> k s' cs' = Some res' -> caps_ok n cls res') ->
    mt n0 r s cs k = Some res -> caps_ok n cls res.
Proof.
  induction r as [| | c | least cls0 | m r1 IH | r1 IH | r1 IH1 r2 IH2];
    intros Hg n0 s cs k res Hcs Hk H; simpl in H.
  - destruct (_ =? _)%nat; [exact (Hk _ _ _ Hcs H)|discriminate].
  - destruct s as [|d [|e s']]; [exact (Hk _ _ _ Hcs H)| |];
      destruct d as [[] [] [] [] [] [] [] []]; try discriminate; exact (Hk _ _ _ Hcs H).
  - destruct s as [|d s']; [discriminate|]. destruct (Ascii.eqb c d); [exact (Hk _ _ _ Hcs H)|discriminate].
  - destruct (rep_try_some _ _ _ _ _ _ H) as [j [_ Hj]]. exact (Hk _ _ _ Hcs Hj).
  - simpl in Hg. destruct (m =? n)%nat eqn:Em.
    + apply Nat.eqb_eq in Em. subst m. destruct Hg as [l [cls' [-> [Hl Hcls]]]].
      simpl in H. destruct (rep_try_some _ _ _ _ _ _ H) as [j [Hj Hk']].
      pose proof (span_le cls' s) as Hsp.
      refine (Hk _ _ _ _ Hk'). intros v [Hv|Hv].
      * injection Hv as <-. rewrite captured_prefix by lia. split.
        -- apply substring_nonempty. lia.
        -- intros c Hc. apply Hcls. exact (prefix_span cls' j s ltac:(lia) c Hc).
      * exact (Hcs v Hv).
    + refine (IH Hg n0 s cs _ res Hcs _ H). intros s' cs' res' Hcs' Hk'.
      refine (Hk _ _ _ _ Hk'). intros v [Hv|Hv].
      * injection Hv as Hm _. apply Nat.eqb_neq in Em. congruence.
      * exact (Hcs' v Hv).
  - destruct (mt n0 r1 s cs k) as [res'|] eqn:E.
    + injection H as <-. exact (IH Hg n0 s cs k res' Hcs Hk E).
    + exact (Hk _ _ _ Hcs H).
  - destruct Hg as [Hg1 Hg2].
    refine (IH1 Hg1 n0 s cs _ res Hcs _ H). intros s' cs' res' Hcs' Hk'.
    exact (IH2 Hg2 n0 s' cs' k res' Hcs' Hk Hk').
Qed.

(** a successful match ends in a call of the continuation that extends the captures *)
Lemma mt_calls_k (r : rx) :
  forall n0 s cs k res, mt n0 r s cs k = Some res -> exists s' cs', k s' cs' = Some res.
Proof.
  induction r as [| | c | least cls0 | m r1 IH | r1 IH | r1 IH1 r2 IH2];
    intros n0 s cs k res H; simpl in H.
  - destruct (_ =? _)%nat; [eauto|discriminate].
  - destruct s as [|d [|e s']]; [eauto| |];
      destruct d as [[] [] [] [] [] [] [] []]; try discriminate; eauto.
  - destruct s as [|d s']; [discriminate|]. destruct (Ascii.eqb c d); [eauto|discriminate].
  - destruct (rep_try_some _ _ _ _ _ _ H) as [j [_ Hj]]. eauto.
  - destruct (IH _ _ _ _ _ H) as [s' [cs' Hk]]. eauto.
  - destruct (mt n0 r1 s cs k) as [res'|] eqn:E.
    + injection H as <-. exact (IH _ _ _ _ _ E).
    + eauto.
  - destruct (IH1 _ _ _ _ _ H) as [s' [cs' Hk]]. exact (IH2 _ _ _ _ _ Hk).
Qed.

(** the continuations of the matcher only add captures *)
Lemma mt_mono (r : rx) :
  forall n0 s cs k res, (forall s' cs' res', k s' cs' = Some res' -> incl cs' res') ->
    mt n0 r s cs k = Some res -> incl cs res.
Proof.
  induction r as [| | c | least cls0 | m r1 IH | r1 IH | r1 IH1 r2 IH2];
    intros n0 s cs k res Hk H; simpl in H.
  - destruct (_ =? _)%nat; [exact (Hk _ _ _ H)|discriminate].
  - destruct s as [|d [|e s']]; [exact (Hk _ _ _ H)| |];
      destruct d as [[] [] [] [] [] [] [] []]; try discriminate; exact (Hk _ _ _ H).
  - destruct s as [|d s']; [discriminate|]. destruct (Ascii.eqb c d); [exact (Hk _ _ _ H)|discriminate].
  - destruct (rep_try_some _ _ _ _ _ _ H) as [j [_ Hj]]. exact (Hk _ _ _ Hj).
  - refine (IH n0 s cs _ res _ H). intros s' cs' res' Hk' x Hx.
    apply (Hk _ _ _ Hk'). right. exact Hx.
  - destruct (mt n0 r1 s cs k) as [res'|] eqn:E.
    + injection H as <-. exact (IH _ _ _ _ _ Hk E).
    + exact (Hk _ _ _ H).
  - refine (IH1 n0 s cs _ res _ H). intros s' cs' res' Hk'.
    exact (IH2 _ _ _ _ _ Hk Hk').
Qed.

(** a group outside any optional part of the pattern *)
Fixpoint on_path (n : nat) (r : rx) : bool :=
  match r with
  | Cap m r1 => (m =? n)%nat || on_path n r1
  | Seq r1 r2 => on_path n r1 || on_path n r2
  | _ => false
  end.

(** a group that every match goes through is in the captures *)
Lemma mt_on_path (n : nat) (r : rx) :
  on_path n r = true ->
  forall n0 s cs k res, (forall s' cs' res', k s' cs' = Some res' -> incl cs' res') ->
    mt n0 r s cs k = Some res -> exists v, In (n, v) res.
Proof.
  induction r as [| | c | least cls0 | m r1 IH | r1 IH | r1 IH1 r2 IH2];
    intros Hp n0 s cs k res Hk H; simpl in Hp; try discriminate.
  - simpl in H. destruct (m =? n)%nat eqn:Em.
    + apply Nat.eqb_eq in Em. subst m.
      destruct (mt_calls_k _ _ _ _ _ _ H) as [s' [cs' H']].
      eexists. exact (Hk _ _ _ H' _ (or_introl eq_refl)).
    + refine (IH Hp n0 s cs _ res _ H). intros s' cs' res' Hk' x Hx.
      apply (Hk _ _ _ Hk'). right. exact Hx.
  - simpl in H. apply orb_true_iff in Hp as [Hp|Hp].
    + refine (IH1 Hp n0 s cs _ res _ H). intros s' cs' res' Hk'.
      exact (mt_mono r2 _ _ _ _ _ Hk Hk').
    + destruct (mt_calls_k _ _ _ _ _ _ H) as [s' [cs' H']].
      exact (IH2 Hp _ _ _ _ _ Hk H').
Qed.

(** [group cs n] is a value of group [n] once the group is in [cs] *)
Lemma group_in (cs : caps) (n : nat) : (exists v, In (n, v) cs) -> In (n, group cs n) cs.
Proof.
  induction cs as [|[m v] cs IH]; simpl; intros [w Hw]; [contradiction|].
  destruct (m =? n)%nat eqn:E.
  - apply Nat.eqb_eq in E. subst. left. reflexivity.
  - right. apply IH. destruct Hw as [Hw|Hw]; [injection Hw as -> _; apply Nat.eqb_neq in E; congruence|].
    exists w. exact Hw.
Qed.

Lemma group_nonempty (cs : caps) (n : nat) : group cs n <> "" -> In (n, group cs n) cs.
Proof.
  induction cs as [|[m v] cs IH]; simpl; [congruence|].
  destruct (m =? n)%nat eqn:E; intros H.
  - apply Nat.eqb_eq in E. subst. left. reflexivity.
  - right. exact (IH H).
Qed.

Lemma not_in_spec (excl : list ascii) (c : ascii) :
  not_in excl c = true -> is_space c = false /\ ~ In c excl.
Proof.
  unfold not_in. intros H. apply andb_prop in H as [H1 H2].
  apply negb_true_iff in H1, H2. split; [exact H1|]. intros Hin.
  assert (existsb (Ascii.eqb c) excl = true) by (apply existsb_exists; exists c; split; [exact Hin|apply Ascii.eqb_refl]).
  congruence.
Qed.

(** the captures of group [n] in a match of [r] are [cls]-tokens *)
Lemma find_caps_ok (n : nat) (cls : ascii -> bool) (r : rx) (s : string) (m : caps) :
  good n cls r -> FindStringMatch r s = Some m -> caps_ok n cls m.
Proof.
  intros Hg H. refine (mt_caps_ok n cls r Hg _ _ _ _ _ _ _ H).
  - intros v [].
  - intros s' cs' res' Hcs Hr. injection Hr as <-. exact Hcs.
Qed.

Lemma find_group_token (n : nat) (excl : list ascii) (r : rx) (s : string) (m : caps) :
  good n (not_in excl) r -> on_path n r = true -> FindStringMatch r s = Some m ->
  token_ok excl (group m n).
Proof.
  intros Hg Hp H. pose proof (find_caps_ok n _ r s m Hg H) as Hok.
  assert (Hin : In (n, group m n) m).
  { apply group_in. refine (mt_on_path n r Hp _ _ _ _ _ _ H).
    intros s' cs' res' Hr. injection Hr as <-. intros x Hx. exact Hx. }
  destruct (Hok _ Hin) as [Hne Hc]. split; [exact Hne|].
  intros c Hi. apply not_in_spec. exact (Hc c Hi).
Qed.

Lemma find_group_opt (n : nat) (excl : list ascii) (r : rx) (s : string) (m : caps) :
  good n (not_in excl) r -> FindStringMatch r s = Some m ->
  group m n = "" \/ token_ok excl (group m n).
Proof.
  intros Hg H. destruct (String.eqb (group m n) "") eqn:E; [left; apply String.eqb_eq; exact E|right].
  apply String.eqb_neq in E. pose proof (find_caps_ok n _ r s m Hg H) as Hok.
  destruct (Hok _ (group_nonempty m n E)) as [Hne Hc]. split; [exact Hne|].
  intros c Hi. apply not_in_spec. exact (Hc c Hi).
Qed.

Ltac good_rx := vm_compute; repeat split; eexists _, _; split; [reflexivity|split; [lia|intros c Hc; exact Hc]].

Lemma good_charset : good 1 (not_in [";"%char]) simpleCharsetRegExp.
Proof. good_rx. Qed.

Lemma good_language1 : good 1 (not_in ["-"%char; ";"%char]) simpleLanguageRegExp.
Proof. good_rx. Qed.

Lemma good_language2 : good 2 (not_in [";"%char]) simpleLanguageRegExp.
Proof. good_rx. Qed.

Lemma good_media1 : good 1 (not_in ["/"%char; ";"%char]) simpleMediaTypeRegExp.
Proof. good_rx. Qed.

Lemma good_media2 : good 2 (not_in [";"%char]) simpleMediaTypeRegExp.
Proof. good_rx. Qed.

End RegexpFacts.

(** ** Parsed values are tokens of their pattern *)
Module RegexpExtras.
Import Regexp RegexpFacts.

(** a language tag: the prefix alone, or prefix, dash and a suffix *)
Definition language_shape (prefix suffix full : string) : Prop :=
  token_ok ["-"%char; ";"%char] prefix /\
  ((suffix = "" /\ full = prefix) \/
   (token_ok [";"%char] suffix /\ full = prefix ++ "-" ++ suffix)).

Lemma language_shape_full (pre suf : string) :
  token_ok ["-"%char; ";"%char] pre -> suf = "" \/ token_ok [";"%char] suf ->
  language_shape pre suf (if negb (String.eqb suf "") then pre ++ "-" ++ suf else pre).
Proof.
  intros Hp Hs. split; [exact Hp|].
  destruct (String.eqb suf "") eqn:E; simpl.
  - left. split; [apply String.eqb_eq; exact E|reflexivity].
  - right. split; [|reflexivity]. destruct Hs as [->|Hs]; [discriminate|exact Hs].
Qed.

Lemma parseCharset_token (s : string) (k : Z) (ac : Charset.acceptCharset) :
  Charset.parseCharset s k = Ok (Some ac) -> token_ok [";"%char] ac.(Charset.charset).
Proof.
  unfold Charset.parseCharset.
  destruct (FindStringMatch simpleCharsetRegExp s) as [m|] eqn:Em; [|discriminate].
  pose proof (find_group_token 1 _ _ s m good_charset eq_refl Em) as T.
  intros H. destruct (String.eqb _ _); [injection H as <-; exact T|].
  destruct (Common.scan_q _ _) as [[?|]|]; simpl in H; try discriminate.
  injection H as <-. exact T.
Qed.

Lemma parseEncoding_token (s : string) (k : Z) (ac : Encoding.acceptEncoding) :
  Encoding.parseEncoding s k = Ok (Some ac) -> token_ok [";"%char] ac.(Encoding.encoding).
Proof.
  unfold Encoding.parseEncoding.
  destruct (FindStringMatch simpleEncodingRegExp s) as [m|] eqn:Em; [|discriminate].
  pose proof (find_group_token 1 _ _ s m good_charset eq_refl Em) as T.
  intros H. destruct (String.eqb _ _); [injection H as <-; exact T|].
  destruct (Common.scan_q _ _) as [[?|]|]; simpl in H; try discriminate.
  injection H as <-. exact T.
Qed.

Lemma parseLanguage_token (s : string) (k : Z) (ac : Language.acceptLanguage) :
  Language.parseLanguage s k = Ok (Some ac) ->
  language_shape ac.(Language.prefix) ac.(Language.suffix) ac.(Language.full).
Proof.
  unfold Language.parseLanguage. cbv zeta.
  destruct (FindStringMatch simpleLanguageRegExp s) as [m|] eqn:Em; [|discriminate].
  pose proof (language_shape_full (group m 1) (group m 2)
    (find_group_token 1 _ _ s m good_language1 eq_refl Em)
    (find_group_opt 2 _ _ s m good_language2 Em)) as T.
  intros H. destruct (String.eqb (group m 3) _); [injection H as <-; exact T|].
  destruct (Common.scan_q _ _) as [[?|]|]; simpl in H; try discriminate.
  injection H as <-. exact T.
Qed.

Lemma parseMediaType_token (s : string) (k : Z) (ac : MediaType.acceptMediaType) :
  MediaType.parseMediaType s k = Some ac ->
  token_ok ["/"%char; ";"%char] ac.(MediaType.mainType) /\ token_ok [";"%char] ac.(MediaType.subtype).
Proof.
  unfold MediaType.parseMediaType.
  destruct (FindStringMatch simpleMediaTypeRegExp s) as [m|] eqn:Em; [|discriminate].
  pose proof (conj (find_group_token 1 _ _ s m good_media1 eq_refl Em)
                   (find_group_token 2 _ _ s m good_media2 eq_refl Em)) as T.
  intros H. destruct (String.eqb (group m 3) _); [injection H as <-; exact T|].
  destruct (MediaType.params_loop _ _ _) as [[? ?]|]; [|discriminate].
  injection H as <-. exact T.
Qed.

Lemma media_parse_all_from_forall (P : MediaType.acceptMediaType -> Prop)
    (accepts : list string) (k : Z) :
  (forall s k ac, MediaType.parseMediaType s k = Some ac -> P ac) ->
  Forall P (MediaType.parse_all_from accepts k).
Proof.
  intros Hp. revert k. induction accepts as [|a accepts IH]; intros k; simpl; [constructor|].
  destruct (MediaType.parseMediaType (GoStrings.Trim a) k) eqn:E; [constructor; [exact (Hp _ _ _ E)|]|];
    apply IH.
Qed.

Lemma identity_token : token_ok [";"%char] "identity".
Proof.
  split; [discriminate|]. intros c Hc. simpl in Hc.
  repeat destruct Hc as [<-|Hc]; try contradiction;
    (split; [reflexivity|intros [Hx|[]]; discriminate Hx]).
Qed.

(** The values of parsed entries are what the patterns' groups match: a
    charset, an encoding, a language prefix or suffix and a media main type or
    subtype is never empty and holds no white space and no [;]; a language
    prefix holds no [-] and a main type no [/]; a full language tag is the
    prefix, or the prefix, [-] and the suffix. *)
Theorem parsed_values_tokens (accept : string) :
  (forall acs, Charset.parseAcceptCharset accept = Ok acs ->
     Forall (fun ac => token_ok [";"%char] ac.(Charset.charset)) acs) /\
  (forall acs, Encoding.parseAcceptEncoding accept = Ok acs ->
     Forall (fun ac => token_ok [";"%char] ac.(Encoding.encoding)) acs) /\
  (forall acs, Language.parseAcceptLanguage accept = Ok acs ->
     Forall (fun ac => language_shape ac.(Language.prefix) ac.(Language.suffix) ac.(Language.full)) acs) /\
  Forall (fun ac => token_ok ["/"%char; ";"%char] ac.(MediaType.mainType) /\
                    token_ok [";"%char] ac.(MediaType.subtype))
    (MediaType.parseAcceptMediaType accept).
Proof.
  split; [|split; [|split]].
  - intros acs H. pose proof (QualityFacts.parse_all_from_forall Charset.parseCharset
      (fun ac => token_ok [";"%char] ac.(Charset.charset)) (GoStrings.split "," accept) 0
      parseCharset_token) as F.
    unfold Charset.parseAcceptCharset, Common.parse_all in H. rewrite H in F. exact F.
  - intros acs H. destruct (OrderFacts.parseAcceptEncoding_shape accept acs H) as [rs [Hrs Hacs]].
    pose proof (QualityFacts.parse_all_from_forall Encoding.parseEncoding
      (fun ac => token_ok [";"%char] ac.(Encoding.encoding)) (GoStrings.split "," accept) 0
      parseEncoding_token) as F.
    rewrite Hrs in F. simpl in F. destruct Hacs as [->|[q ->]]; [exact F|].
    apply Forall_app. split; [exact F|]. constructor; [exact identity_token|constructor].
  - intros acs H. pose proof (QualityFacts.parse_all_from_forall Language.parseLanguage
      (fun ac => language_shape ac.(Language.prefix) ac.(Language.suffix) ac.(Language.full))
      (GoStrings.split "," accept) 0 parseLanguage_token) as F.
    unfold Language.parseAcceptLanguage, Common.parse_all in H. rewrite H in F. exact F.
  - apply media_parse_all_from_forall. exact parseMediaType_token.
Qed.

End RegexpExtras.

(** ** Unquoting of media type parameter values *)
Module QuoteExtras.
Import MediaType.
Local Open Scope Z_scope.

(** The unquoting step of parseMediaType removes exactly one pair of
    surrounding double quotes, whatever the value between them holds; a value
    that does not start, or does not end, with a double quote is kept as it
    is; a value made of a single double quote becomes empty. *)
Theorem unquote_strips_one_pair :
  (forall mid, unquote (String dquote (mid ++ String dquote EmptyString)) = mid) /\
  (forall v, byte_is v 0 dquote = false \/ byte_is v (Z.of_nat (String.length v) - 1) dquote = false ->
     unquote v = v) /\
  unquote (String dquote EmptyString) = "".
Proof.
  split; [exact ParamFacts.unquote_quoted|]. split; [exact ParamFacts.unquote_unquoted|].
  reflexivity.
Qed.

End QuoteExtras.
